(** * SFTP bridge: client correlator, server dispatcher and transfer codec

    A shallow embedding of [src/lib/sftpClient.js] (the browser-side
    [SFTPClient] class), of [server/server.js] (the WebSocket bridge) and of
    the path and download code of [src/pages/FileManager.jsx], with the
    statements of the specification proved or refuted on it, and further
    properties of the code.

    Part I, the programs:
    - [Codec]   : the base64 functions both ends call ([btoa], [atob],
                  [Buffer.from(_, 'base64')], [Buffer.toString('base64')])
                  and the two conversions of sftpClient.js.
    - [Math]    : the doubles [formatFileSize] computes with: [Math.log],
                  [Math.floor], [Math.pow].
    - [Format]  : [formatFileSize] of server.js.
    - [Json], [File], [Response], [Command] : the frames on the wire.
    - [Client]  : the [SFTPClient] object, its listener table, its promises
                  and its timers, as a machine fed with calls, frames,
                  timeouts and closes.
    - [Server]  : the connection handler of server.js, the registry
                  [activeConnections] and the lifecycle hooks of the ssh
                  client, as a machine fed with channel and ssh events.
    - [Date]    : [formatDate] of server.js, with the time values and
                  [toISOString] of ECMAScript.
    - [Callbacks] : the callbacks of [readdir], [stat] and the read stream
                  in server.js.
    - [FileManager] : the paths, the breadcrumbs and the blob of a download
                  in FileManager.jsx.

    Part II, their properties: [CodecFacts], [FormatFacts], [ClientFacts],
    [ServerFacts], [BridgeFacts] for one client talking to the bridge; then
    [DateFacts], [ListingFacts], [ListenerFacts], [DispatchFacts] and
    [FileManagerFacts]. *)

From Stdlib Require Import ZArith NArith List Ascii String Lia ZifyNat DecimalString.
From Stdlib.Strings Require Byte.
From Stdlib.Floats Require PrimFloat SpecFloat FloatOps.
From stdpp Require Import gmap strings list.

Open Scope string_scope.

(* ===================================================================== *)
Module Codec.

(** A JavaScript string is a sequence of 16-bit code units. *)
Definition js_string := list N.

(** The base64 alphabet of RFC 4648, section 4. *)
Definition alphabet : list ascii :=
  list_ascii_of_string
    "ABCDEFGHIJKLMNOPQRSTUVWXYZabcdefghijklmnopqrstuvwxyz0123456789+/".

Definition pad : ascii := "="%char.

Definition sextet_char (n : N) : ascii := nth (N.to_nat n) alphabet "A"%char.

Fixpoint index_of (c : ascii) (l : list ascii) : option N :=
  match l with
  | [] => None
  | x :: r => if Ascii.eqb c x then Some 0%N else N.succ <$> index_of c r
  end.

Definition char_sextet (c : ascii) : option N := index_of c alphabet.

(** Three octets become four sextets; a last group of one or two octets
    becomes two or three sextets. *)
Fixpoint sextets (bs : list N) : list N :=
  match bs with
  | a :: b :: c :: rest =>
      let n := (a * 65536 + b * 256 + c)%N in
      (n / 262144 :: n / 4096 mod 64 :: n / 64 mod 64 :: n mod 64
         :: sextets rest)%N
  | [a; b] =>
      let n := (a * 65536 + b * 256)%N in
      [n / 262144; n / 4096 mod 64; n / 64 mod 64]%N
  | [a] =>
      let n := (a * 65536)%N in [n / 262144; n / 4096 mod 64]%N
  | [] => []
  end.

Definition padding (len : nat) : list ascii :=
  replicate ((3 - len mod 3) mod 3) pad.

Definition base64_encode (bs : list N) : string :=
  string_of_list_ascii ((sextet_char <$> sextets bs) ++ padding (length bs)).

(** Four sextets become three octets; a last group of three or two sextets
    becomes two or one octets, the spare bits dropped. *)
Fixpoint octets (ss : list N) : list N :=
  match ss with
  | a :: b :: c :: d :: rest =>
      let n := (((a * 64 + b) * 64 + c) * 64 + d)%N in
      (n / 65536 :: n / 256 mod 256 :: n mod 256 :: octets rest)%N
  | [a; b; c] =>
      let n := (((a * 64 + b) * 64 + c) * 64)%N in
      [n / 65536; n / 256 mod 256]%N
  | [a; b] =>
      let n := ((a * 64 + b) * 4096)%N in [n / 65536]%N
  | _ => []
  end.

(** ** Browser side *)

(** [btoa(s)]: throws InvalidCharacterError ([None]) when a code unit of [s]
    is above 0xFF, else encodes the code units as octets. *)
Definition btoa (s : js_string) : option string :=
  if forallb (λ u, u <=? 255)%N s then Some (base64_encode s) else None.

(** [String.fromCharCode(b1, ..., bn)]: the string whose code units are
    the octets. *)
Definition fromCharCode (content : list Byte.byte) : js_string :=
  Byte.to_N <$> content.

(** [String.fromCharCode.apply(null, new Uint8Array(content))]: every octet
    is one argument of the call. An engine takes no more than a certain
    number of arguments, [max_arguments] (it depends on the engine and on
    the room left on its stack at the call); with more, [apply] throws a
    RangeError ([None]). *)
Definition fromCharCode_apply (max_arguments : nat) (content : list Byte.byte)
  : option js_string :=
  if (length content <=? max_arguments)%nat then Some (fromCharCode content)
  else None.

Definition is_ascii_whitespace (c : ascii) : bool :=
  bool_decide (nat_of_ascii c ∈ [9; 10; 12; 13; 32]).

Definition strip_padding (l : list ascii) : list ascii :=
  if (length l mod 4 =? 0)%nat then
    match rev l with
    | c1 :: r1 =>
        if Ascii.eqb c1 pad then
          match r1 with
          | c2 :: r2 => if Ascii.eqb c2 pad then rev r2 else rev r1
          | [] => rev r1
          end
        else l
    | [] => l
    end
  else l.

(** [atob(s)], the forgiving-base64 decode of the HTML standard: white space
    is removed, then one or two final [=] when the length is a multiple of
    four; a length of 1 modulo 4 or a character outside the alphabet throws
    ([None]). The result is a string whose code units are the octets. *)
Definition atob (s : string) : option js_string :=
  let l := filter (λ c, is_ascii_whitespace c = false) (list_ascii_of_string s) in
  let l := strip_padding l in
  if (length l mod 4 =? 1)%nat then None
  else octets <$> mapM char_sextet l.

(** ** Node side *)

(** [buf.toString('base64')]. *)
Definition Buffer_toString_base64 (buf : list Byte.byte) : string :=
  base64_encode (Byte.to_N <$> buf).

(** Node also reads the URL-safe letters. *)
Definition node_sextet (c : ascii) : option N :=
  match char_sextet c with
  | Some n => Some n
  | None =>
      if Ascii.eqb c "-" then Some 62%N
      else if Ascii.eqb c "_" then Some 63%N else None
  end.

Fixpoint until_pad (l : list ascii) : list ascii :=
  match l with
  | [] => []
  | c :: r => if Ascii.eqb c pad then [] else c :: until_pad r
  end.

(** [Buffer.from(s, 'base64')]: decoding stops at the first [=], characters
    outside the alphabet are skipped; it never throws on a string. *)
Definition Buffer_from_base64 (s : string) : list Byte.byte :=
  omap Byte.of_N (octets (omap node_sextet (until_pad (list_ascii_of_string s)))).

(** ** The two conversions of sftpClient.js *)

(** The argument of [uploadFile(remotePath, content)]. *)
Inductive content :=
| StringContent (s : js_string)            (* typeof content === 'string' *)
| ArrayBufferContent (b : list Byte.byte)  (* content instanceof ArrayBuffer *)
| OtherContent.

Inductive encoded :=
| Base64 (s : string)
| InvalidContentType          (* reject(new Error('Invalid content type')) *)
| InvalidCharacter            (* btoa throws *)
| RangeError.                 (* String.fromCharCode.apply throws *)

(** sftpClient.js, uploadFile: "Convert content to base64". *)
Definition upload_encode (max_arguments : nat) (c : content) : encoded :=
  match c with
  | StringContent s =>
      match btoa s with Some e => Base64 e | None => InvalidCharacter end
  | ArrayBufferContent b =>
      match fromCharCode_apply max_arguments b with
      | Some s =>
          match btoa s with Some e => Base64 e | None => InvalidCharacter end
      | None => RangeError
      end
  | OtherContent => InvalidContentType
  end.

(** sftpClient.js, downloadFile, [onFileContent]: [atob(data.content)]. *)
Definition download_decode (wire : string) : option js_string := atob wire.

(** The remote file system as the bridge uses it: [createWriteStream(p)]
    followed by [stream.end(buffer)] replaces the file at [p];
    [createReadStream(p)] yields its octets. *)
Abbreviation remote_fs := (gmap string (list Byte.byte)).

(** server.js, case 'upload_file'. *)
Definition server_upload (p : string) (wire : string) (fs : remote_fs) : remote_fs :=
  <[p := Buffer_from_base64 wire]> fs.

(** server.js, case 'download_file', the [content] field of the response. *)
Definition server_download (p : string) (fs : remote_fs) : option string :=
  Buffer_toString_base64 <$> fs !! p.

(** Upload through the client, then download through the client; [None]
    when one of the two conversions throws. *)
Definition upload_then_download (max_arguments : nat) (p : string) (c : content)
    (fs : remote_fs) : option js_string :=
  match upload_encode max_arguments c with
  | Base64 wire =>
      match server_download p (server_upload p wire fs) with
      | Some back => download_decode back
      | None => None
      end
  | _ => None
  end.

End Codec.

(* ===================================================================== *)
(** * Numbers: the doubles of server.js *)

Module Math.
Import PrimFloat SpecFloat FloatOps.

Open Scope Z_scope.

(** The double nearest to an integer (a tie goes to the even one): what a
    JavaScript number holds of it. *)
Definition Number (n : Z) : float :=
  SF2Prim (binary_normalize prec emax n 0 false).

(** The 64 bits of a double, and the double of 64 bits. *)
Definition bits (x : float) : Z :=
  match Prim2SF x with
  | S754_zero s => if s then 2 ^ 63 else 0
  | S754_infinity s => (if s then 2 ^ 63 else 0) + 2047 * 2 ^ 52
  | S754_nan => 2047 * 2 ^ 52 + 2 ^ 51
  | S754_finite s m e =>
      (if s then 2 ^ 63 else 0)
      + (if Z.pos m <? 2 ^ 52 then Z.pos m
         else (e + 1075) * 2 ^ 52 + (Z.pos m - 2 ^ 52))
  end.

Definition of_bits (b : Z) : float :=
  let s := Z.testbit b 63 in
  let e := (b / 2 ^ 52) mod 2048 in
  let m := b mod 2 ^ 52 in
  SF2Prim
    (if e =? 2047 then if m =? 0 then S754_infinity s else S754_nan
     else
       match (if e =? 0 then m else m + 2 ^ 52) with
       | Z.pos p => S754_finite s p (Z.max e 1 - 1075)
       | _ => S754_zero s
       end).

(** The high word of a double, an int32, and its low word, a uint32. *)
Definition HIGH_WORD (x : float) : Z :=
  let h := bits x / 2 ^ 32 in if h <? 2 ^ 31 then h else h - 2 ^ 32.
Definition LOW_WORD (x : float) : Z := bits x mod 2 ^ 32.
Definition SET_HIGH_WORD (x : float) (hx : Z) : float :=
  of_bits (hx mod 2 ^ 32 * 2 ^ 32 + LOW_WORD x).

Definition ln2_hi : float := Eval vm_compute in of_bits 0x3fe62e42fee00000.
Definition ln2_lo : float := Eval vm_compute in of_bits 0x3dea39ef35793c76.
Definition two54 : float := Eval vm_compute in of_bits 0x4350000000000000.
Definition Lg1 : float := Eval vm_compute in of_bits 0x3FE5555555555593.
Definition Lg2 : float := Eval vm_compute in of_bits 0x3FD999999997FA04.
Definition Lg3 : float := Eval vm_compute in of_bits 0x3FD2492494229359.
Definition Lg4 : float := Eval vm_compute in of_bits 0x3FCC71C51D8E78AF.
Definition Lg5 : float := Eval vm_compute in of_bits 0x3FC7466496CB03DE.
Definition Lg6 : float := Eval vm_compute in of_bits 0x3FC39A09D078C69F.
Definition Lg7 : float := Eval vm_compute in of_bits 0x3FC2F112DF3E5244.

Local Open Scope float_scope.

(** [Math.log]. ECMAScript leaves its precision to the implementation;
    server.js runs in Node, whose engine V8 computes it with the function
    [log] of fdlibm (e_log.c), in doubles: [x] is split into [2^k * (1+f)]
    with [sqrt(2)/2 < 1+f < sqrt(2)], and [log(1+f)] is approximated by a
    polynomial. [0x1.5555555555555p-2] is the double the source writes
    0.33333333333333333. *)
Definition log (x : float) : float :=
  let hx := HIGH_WORD x in
  let lx := LOW_WORD x in
  if (hx <? 0x00100000)%Z && (Z.lor (Z.land hx 0x7fffffff) lx =? 0)%Z
  then - two54 / 0                      (* log(+-0) = -inf *)
  else if (hx <? 0)%Z then (x - x) / 0  (* log(-#) = NaN *)
  else
    let '(k, x, hx) :=
      if (hx <? 0x00100000)%Z           (* subnormal number, scale up x *)
      then let x := x * two54 in ((-54)%Z, x, HIGH_WORD x)
      else (0%Z, x, hx) in
    if (0x7ff00000 <=? hx)%Z then x + x
    else
      let k := (k + (Z.shiftr hx 20 - 1023))%Z in
      let hx := Z.land hx 0x000fffff in
      let i := Z.land (hx + 0x95f64) 0x100000 in
      let x := SET_HIGH_WORD x (Z.lor hx (Z.lxor i 0x3ff00000)) in
      let k := (k + Z.shiftr i 20)%Z in
      let f := x - 1 in
      if (Z.land 0x000fffff (2 + hx) <? 3)%Z then  (* -2**-20 <= f < 2**-20 *)
        if f =? 0 then
          if (k =? 0)%Z then 0
          else let dk := Number k in dk * ln2_hi + dk * ln2_lo
        else
          let R := f * f * (0.5 - 0x1.5555555555555p-2 * f) in
          if (k =? 0)%Z then f - R
          else let dk := Number k in dk * ln2_hi - ((R - dk * ln2_lo) - f)
      else
        let s := f / (2 + f) in
        let dk := Number k in
        let z := s * s in
        let i := (hx - 0x6147a)%Z in
        let w := z * z in
        let j := (0x6b851 - hx)%Z in
        let t1 := w * (Lg2 + w * (Lg4 + w * Lg6)) in
        let t2 := z * (Lg1 + w * (Lg3 + w * (Lg5 + w * Lg7))) in
        let i := Z.lor i j in
        let R := t2 + t1 in
        if (0 <? i)%Z then
          let hfsq := 0.5 * f * f in
          if (k =? 0)%Z then f - (hfsq - s * (hfsq + R))
          else dk * ln2_hi - ((hfsq - (s * (hfsq + R) + dk * ln2_lo)) - f)
        else
          if (k =? 0)%Z then f - s * (f - R)
          else dk * ln2_hi - ((s * (f - R) - dk * ln2_lo) - f).

(** What [Math.floor] returns: NaN, an infinity or an integer. *)
Inductive integral := NaN | Infinity (negative : bool) | Integer (k : Z).

(** [Math.floor]. *)
Definition floor (x : float) : integral :=
  match Prim2SF x with
  | S754_nan => NaN
  | S754_infinity s => Infinity s
  | S754_zero _ => Integer 0
  | S754_finite s m e => Integer (Z.shiftl (if s then Z.neg m else Z.pos m) e)
  end.

(** [Math.pow(1024, i)] for such an [i]: the power of two [2^(10 i)], which
    is a double, or Infinity or 0 when it is beyond the doubles. *)
Definition pow_1024 (i : integral) : float :=
  match i with
  | NaN => nan
  | Infinity s => if s then 0 else infinity
  | Integer k => Z.ldexp 1 (10 * k)
  end.

End Math.

(* ===================================================================== *)
Module Format.
Import PrimFloat SpecFloat FloatOps.

Open Scope Z_scope.

(** server.js, formatFileSize: [const units = ['B','KB','MB','GB','TB']]. *)
Definition units : list string := ["B"; "KB"; "MB"; "GB"; "TB"].

Definition decimal (n : Z) : string := NilZero.string_of_uint (N.to_uint (Z.to_N n)).

Definition two_digits (r : Z) : string :=
  if r <? 10 then "0" ++ decimal r else decimal r.

(** The digits of a number without the zeros at its end. *)
Fixpoint significant (digits : list ascii) : list ascii :=
  match digits with
  | [] => []
  | c :: r =>
      match significant r with
      | [] => if Ascii.eqb c "0" then [] else [c]
      | r' => c :: r'
      end
  end.

(** How a number of 10^21 or more is printed: [v] is the integer the double
    [x] holds; the decimal with the fewest digits that reads back as [x]
    is taken (of two such, the nearer one) and written in exponent
    notation. *)
Definition exponential (x : float) (v : Z) : string :=
  let d := Z.of_nat (String.length (decimal v)) in
  let reads_back c := PrimFloat.eqb (Math.Number c) x in
  let shortest :=
    foldr (λ k found,
      let t := 10 ^ (d - k) in
      let lo := v / t * t in
      let hi := lo + t in
      match reads_back lo, reads_back hi with
      | true, true => if v - lo <=? hi - v then lo else hi
      | true, false => lo
      | false, true => hi
      | false, false => found
      end) v (seqZ 1 17) in
  let digits := list_ascii_of_string (decimal shortest) in
  let e := Z.of_nat (length digits) - 1 in
  match significant digits with
  | [] => "0"
  | [c] => String c ("e+" ++ decimal e)
  | c :: r => String c ("." ++ string_of_list_ascii r ++ "e+" ++ decimal e)
  end.

(** [x.toFixed(2)]: for a number below 10^21, the integer [n] for which
    [n / 100] is nearest to [x], the larger one on a tie, printed with its
    last two digits after the point. *)
Definition toFixed2 (x : float) : string :=
  match Prim2SF x with
  | S754_nan => "NaN"
  | S754_infinity s => if s then "-Infinity" else "Infinity"
  | S754_zero _ => "0.00"
  | S754_finite s m e =>
      (if s then "-" else "") ++
      if 10 ^ 21 <=? Z.shiftl (Z.pos m) e
      then exponential (abs x) (Z.shiftl (Z.pos m) e)
      else
        let n := Z.shiftr (Z.shiftl (200 * Z.pos m) e + 1) 1 in
        decimal (n / 100) ++ "." ++ two_digits (n mod 100)
  end.

(** [units[i]], where [+] appends it to a string: an index that is no
    position of the array reads [undefined], printed as that word. *)
Definition element (l : list string) (i : Math.integral) : string :=
  match i with
  | Math.Integer k =>
      if 0 <=? k then nth (Z.to_nat k) l "undefined" else "undefined"
  | _ => "undefined"
  end.

(** server.js, formatFileSize; [bytes] is a size as ssh2 reports it, an
    integer in a JavaScript number. *)
Definition formatFileSize (bytes : Z) : string :=
  if bytes =? 0 then "0 B"
  else
    let bytes := Math.Number bytes in
    let i := Math.floor (Math.log bytes / Math.log 1024)%float in
    toFixed2 (bytes / Math.pow_1024 i)%float ++ " " ++ element units i.

(** server.js, case 'list_files': the [size] field of an entry. *)
Definition entry_size (isDirectory : bool) (size : Z) : string :=
  if isDirectory then "-" else formatFileSize size.

End Format.

(* ===================================================================== *)
(** * The wire: tagged JSON objects, [{type: <kind>, ...fields}] *)

Module Json.

(** The [type] member of a parsed frame. *)
Inductive type_field :=
| Absent                      (* no such member: it reads undefined *)
| Kind (s : string)           (* a string *)
| NotString (key : string)    (* any other JSON value that converts to a
                                 string, with that string *)
| Unconvertible.              (* an object with a member toString (after
                                 JSON.parse no function), alone or within
                                 arrays: converting it to a string throws
                                 a TypeError *)

(** The string [t] converts to, as the property key of [obj[t]] and in a
    template literal; [None] when the conversion throws. *)
Definition property_key (t : type_field) : option string :=
  match t with
  | Absent => Some "undefined"
  | Kind s => Some s
  | NotString key => Some key
  | Unconvertible => None
  end.

(** What [JSON.parse] makes of the text of a frame. *)
Inductive parsed (A : Type) :=
| SyntaxError        (* JSON.parse throws *)
| Null               (* the text null: reading a member of it throws *)
| Scalar             (* a number, a string, a boolean or an array: the
                        members the code reads are all undefined *)
| Object (o : A).
Arguments SyntaxError {A}.
Arguments Null {A}.
Arguments Scalar {A}.
Arguments Object {A} o.

(** [v || d] on a string member: undefined and the empty string are falsy. *)
Definition or_else (v : option string) (d : string) : string :=
  match v with
  | Some s => if String.eqb s "" then d else s
  | None => d
  end.

End Json.

(** An entry of a [file_list] response (server.js, case 'list_files'). *)
Module File.
Record entry := {
  name : string;
  type : string;
  size : string;
  modified : string;
  permissions : Z;
  isDirectory : bool
}.
End File.

(** Server to client. *)
Module Response.
Record t := {
  type : Json.type_field;
  error : option string;
  connectionId : option string;
  message : option string;
  path : option string;
  files : option (list File.entry);
  content : option string;
  size : option Z
}.

(** [{}]: every member reads undefined. *)
Definition object : t :=
  {| type := Json.Absent; error := None; connectionId := None;
     message := None; path := None; files := None; content := None;
     size := None |}.

(** [{type}] alone. *)
Definition tagged (kind : string) : t :=
  {| type := Json.Kind kind; error := None; connectionId := None;
     message := None; path := None; files := None; content := None;
     size := None |}.

Definition with_error (e : option string) (r : t) : t :=
  {| type := type r; error := e; connectionId := connectionId r;
     message := message r; path := path r; files := files r;
     content := content r; size := size r |}.
Definition with_connectionId (c : option string) (r : t) : t :=
  {| type := type r; error := error r; connectionId := c;
     message := message r; path := path r; files := files r;
     content := content r; size := size r |}.
Definition with_message (m : option string) (r : t) : t :=
  {| type := type r; error := error r; connectionId := connectionId r;
     message := m; path := path r; files := files r;
     content := content r; size := size r |}.
End Response.

(** Client to server. *)
Module Command.
Record t := {
  type : Json.type_field;
  host : option string;
  port : option Z;
  username : option string;
  password : option string;
  privateKey : option string;
  path : option string;
  remotePath : option string;
  content : option string;
  isDirectory : bool            (* the truthiness of the member *)
}.

Definition tagged (kind : Json.type_field) : t :=
  {| type := kind; host := None; port := None; username := None;
     password := None; privateKey := None; path := None; remotePath := None;
     content := None; isDirectory := false |}.

Definition with_path (p : option string) (c : t) : t :=
  {| type := type c; host := host c; port := port c; username := username c;
     password := password c; privateKey := privateKey c; path := p;
     remotePath := remotePath c; content := content c;
     isDirectory := isDirectory c |}.
Definition with_remotePath (p : option string) (c : t) : t :=
  {| type := type c; host := host c; port := port c; username := username c;
     password := password c; privateKey := privateKey c; path := path c;
     remotePath := p; content := content c; isDirectory := isDirectory c |}.
Definition with_content (x : option string) (c : t) : t :=
  {| type := type c; host := host c; port := port c; username := username c;
     password := password c; privateKey := privateKey c; path := path c;
     remotePath := remotePath c; content := x; isDirectory := isDirectory c |}.
Definition with_isDirectory (b : bool) (c : t) : t :=
  {| type := type c; host := host c; port := port c; username := username c;
     password := password c; privateKey := privateKey c; path := path c;
     remotePath := remotePath c; content := content c; isDirectory := b |}.
End Command.

(* ===================================================================== *)
(** * src/lib/sftpClient.js *)

Module Client.

Inductive ready_state := CONNECTING | OPEN | CLOSING | CLOSED.

(** The argument of [connect(connection)]. *)
Record connection := {
  host : option string;
  port : option Z;
  username : option string;
  password : option string;
  privateKey : option string
}.

(** What the promises of the operations resolve with. *)
Inductive value :=
| Undefined                                    (* resolve() *)
| Success                                      (* {success: true} *)
| FileList (files : option (list File.entry))  (* data.files *)
| FileData (content : Codec.js_string) (size : option Z) (path : option string)
| Data (data : Response.t).                    (* resolve(data) *)

Inductive settlement := Resolved (v : value) | Rejected (e : string).
Inductive promise_state := Pending | Settled (s : settlement).

(** The arrow functions the operations hand to [once]. Each closes over
    the [resolve]/[reject] pair of its promise [p] and, but for the last,
    over the [timeoutId] [t]. *)
Inductive handler :=
| onConnectSuccess (p t : nat)
| onConnectError (p t : nat)
| onFileList (p t : nat)
| onFileContent (p t : nat)
| onUploadSuccess (p t : nat)
| onDeleteSuccess (p t : nat)
| onMkdirSuccess (p t : nat)
| onError (p t : nat) (fallback : string)
| onDisconnected (p : nat).

(** A member of a listener array. Function identity ([cb !== callback]) is
    equality here: [once] builds one [onceCallback] per handler, a handler is
    built once, for a promise of its own; the application's functions are
    told apart by [id]. *)
Inductive callback :=
| onceCallback (event : string) (h : handler)
| listener (id : nat).

Global Instance handler_eq_dec : EqDecision handler.
Proof. solve_decision. Defined.
Global Instance callback_eq_dec : EqDecision callback.
Proof. solve_decision. Defined.

(** [setTimeout(() => reject(new Error(reason)), delay)]. *)
Record timer := { rejects : nat; reason : string; delay : Z }.

(** The object ([ws] to [eventListeners]; [serverUrl] never changes) and what
    its closures reach in the host: the timers, the promises, the frames
    handed to [ws.send]. [settled] and [invoked] record every call of a
    [resolve]/[reject] function and of a listener, latest first. *)
Record state := {
  ws : option ready_state;
  isConnected : bool;
  connectionId : option string;
  eventListeners : gmap string (list callback);
  timers : gmap nat timer;
  promises : gmap nat promise_state;
  settled : list (nat * settlement);
  sent : list Command.t;
  invoked : list callback;
  next : nat
}.

Definition with_ws x st :=
  {| ws := x; isConnected := isConnected st; connectionId := connectionId st;
     eventListeners := eventListeners st; timers := timers st;
     promises := promises st; settled := settled st; sent := sent st;
     invoked := invoked st; next := next st |}.
Definition with_isConnected x st :=
  {| ws := ws st; isConnected := x; connectionId := connectionId st;
     eventListeners := eventListeners st; timers := timers st;
     promises := promises st; settled := settled st; sent := sent st;
     invoked := invoked st; next := next st |}.
Definition with_connectionId x st :=
  {| ws := ws st; isConnected := isConnected st; connectionId := x;
     eventListeners := eventListeners st; timers := timers st;
     promises := promises st; settled := settled st; sent := sent st;
     invoked := invoked st; next := next st |}.
Definition with_eventListeners x st :=
  {| ws := ws st; isConnected := isConnected st; connectionId := connectionId st;
     eventListeners := x; timers := timers st;
     promises := promises st; settled := settled st; sent := sent st;
     invoked := invoked st; next := next st |}.
Definition with_timers x st :=
  {| ws := ws st; isConnected := isConnected st; connectionId := connectionId st;
     eventListeners := eventListeners st; timers := x;
     promises := promises st; settled := settled st; sent := sent st;
     invoked := invoked st; next := next st |}.
Definition with_promises x st :=
  {| ws := ws st; isConnected := isConnected st; connectionId := connectionId st;
     eventListeners := eventListeners st; timers := timers st;
     promises := x; settled := settled st; sent := sent st;
     invoked := invoked st; next := next st |}.
Definition with_settled x st :=
  {| ws := ws st; isConnected := isConnected st; connectionId := connectionId st;
     eventListeners := eventListeners st; timers := timers st;
     promises := promises st; settled := x; sent := sent st;
     invoked := invoked st; next := next st |}.
Definition with_sent x st :=
  {| ws := ws st; isConnected := isConnected st; connectionId := connectionId st;
     eventListeners := eventListeners st; timers := timers st;
     promises := promises st; settled := settled st; sent := x;
     invoked := invoked st; next := next st |}.
Definition with_invoked x st :=
  {| ws := ws st; isConnected := isConnected st; connectionId := connectionId st;
     eventListeners := eventListeners st; timers := timers st;
     promises := promises st; settled := settled st; sent := sent st;
     invoked := x; next := next st |}.
Definition with_next x st :=
  {| ws := ws st; isConnected := isConnected st; connectionId := connectionId st;
     eventListeners := eventListeners st; timers := timers st;
     promises := promises st; settled := settled st; sent := sent st;
     invoked := invoked st; next := x |}.

(** ** Code that changes the state and may throw *)

Inductive completion (A : Type) := Normal (a : A) | Throw (e : string).
Arguments Normal {A} a.
Arguments Throw {A} e.

Definition M (A : Type) : Type := state → completion A * state.

Global Instance M_ret : MRet M := λ A a st, (Normal a, st).
Global Instance M_bind : MBind M := λ A B f m st,
  match m st with
  | (Normal a, st') => f a st'
  | (Throw e, st') => (Throw e, st')
  end.

Definition throw {A} (e : string) : M A := λ st, (Throw e, st).
Definition modify (f : state → state) : M unit := λ st, (Normal (), f st).
Definition fresh : M nat := λ st, (Normal (next st), with_next (S (next st)) st).

(** [try { m } catch (error) { console.error(...) }]. *)
Definition try_catch (m : M unit) : M unit := λ st, (Normal (), (m st).2).

(** [l.forEach(f)]. *)
Fixpoint forEach (l : list callback) (f : callback → M unit) : M unit :=
  match l with
  | [] => mret ()
  | cb :: r => f cb ;; forEach r f
  end.

(** ** The constructor *)

Definition event_names : list string :=
  ["connect"; "disconnect"; "error"; "fileList"; "fileContent";
   "uploadSuccess"; "deleteSuccess"; "mkdirSuccess"].

Definition constructor : state :=
  {| ws := None; isConnected := false; connectionId := None;
     eventListeners := list_to_map ((λ k, (k, [])) <$> event_names);
     timers := ∅; promises := ∅; settled := []; sent := []; invoked := [];
     next := 0 |}.

(** ** The listener table *)

(** [eventListeners] is an object literal: a name it does not own is looked
    up in [Object.prototype]. *)
Definition Object_prototype : list string :=
  ["constructor"; "__defineGetter__"; "__defineSetter__"; "hasOwnProperty";
   "__lookupGetter__"; "__lookupSetter__"; "isPrototypeOf";
   "propertyIsEnumerable"; "toString"; "valueOf"; "__proto__";
   "toLocaleString"].

(** [this.eventListeners[event]]. *)
Inductive slot :=
| Own (l : list callback)   (* an array of the table: truthy *)
| Inherited                 (* a member of Object.prototype: truthy, and
                               no array *)
| Missing.                  (* undefined *)

Definition member (tbl : gmap string (list callback)) (event : string) : slot :=
  match tbl !! event with
  | Some l => Own l
  | None => if bool_decide (event ∈ Object_prototype) then Inherited else Missing
  end.

Definition on (event : string) (cb : callback) : M unit := λ st,
  match member (eventListeners st) event with
  | Own l =>
      (Normal (), with_eventListeners (<[event := (l ++ [cb])%list]> (eventListeners st)) st)
  | Inherited => (Throw "TypeError: push is not a function", st)
  | Missing => (Normal (), st)
  end.

Definition off (event : string) (cb : callback) : M unit := λ st,
  match member (eventListeners st) event with
  | Own l =>
      (Normal (),
       with_eventListeners (<[event := filter (λ c, c ≠ cb) l]> (eventListeners st)) st)
  | Inherited => (Throw "TypeError: filter is not a function", st)
  | Missing => (Normal (), st)
  end.

Definition once (event : string) (h : handler) : M unit :=
  on event (onceCallback event h).

(** ** Promises and timers *)

(** A call of [resolve] or [reject]: it settles a pending promise and does
    nothing to a settled one. *)
Definition settle (p : nat) (s : settlement) : M unit :=
  modify (λ st,
    with_settled ((p, s) :: settled st)
      (with_promises
         (match promises st !! p with
          | Some Pending => <[p := Settled s]> (promises st)
          | _ => promises st
          end) st)).

Definition resolve (p : nat) (v : value) : M unit := settle p (Resolved v).
Definition reject (p : nat) (e : string) : M unit := settle p (Rejected e).

(** [new Promise(executor)]: an executor that throws rejects the promise. *)
Definition new_Promise (executor : nat → M unit) : M nat :=
  p ← fresh;
  modify (λ st, with_promises (<[p := Pending]> (promises st)) st);;
  ((λ st, match executor p st with
          | (Throw e, st') => reject p e st'
          | r => r
          end) : M unit);;
  mret p.

Definition Promise_reject (e : string) : M nat := new_Promise (λ p, reject p e).
Definition Promise_resolve (v : value) : M nat := new_Promise (λ p, resolve p v).

Definition setTimeout (p : nat) (reason : string) (delay : Z) : M nat :=
  t ← fresh;
  modify (λ st, with_timers
                  (<[t := {| rejects := p; reason := reason; delay := delay |}]>
                     (timers st)) st);;
  mret t.

Definition clearTimeout (t : nat) : M unit :=
  modify (λ st, with_timers (delete t (timers st)) st).

(** ** The handlers *)

Definition run_handler (h : handler) (data : Response.t) : M unit :=
  match h with
  | onConnectSuccess p t =>
      clearTimeout t;;
      modify (with_isConnected true);;
      modify (with_connectionId (Response.connectionId data));;
      resolve p Success
  | onConnectError p t =>
      clearTimeout t;;
      reject p (Json.or_else (Response.error data) "Connection failed")
  | onFileList p t =>
      clearTimeout t;;
      resolve p (FileList (Response.files data))
  | onFileContent p t =>
      clearTimeout t;;
      match Codec.download_decode (default "undefined" (Response.content data)) with
      | Some binaryContent =>
          resolve p (FileData binaryContent (Response.size data) (Response.path data))
      | None => throw "InvalidCharacterError"
      end
  | onUploadSuccess p t | onDeleteSuccess p t | onMkdirSuccess p t =>
      clearTimeout t;;
      resolve p (Data data)
  | onError p t fallback =>
      clearTimeout t;;
      reject p (Json.or_else (Response.error data) fallback)
  | onDisconnected p =>
      modify (with_isConnected false);;
      modify (with_connectionId None);;
      resolve p Undefined
  end.

(** A call [callback(data)] of a member of a listener array. The function
    [once] registered is [(data) => { this.off(event, onceCallback);
    callback(data); }]; a function of the application does not touch the
    client. *)
Definition invoke (cb : callback) (data : Response.t) : M unit :=
  modify (λ st, with_invoked (cb :: invoked st) st);;
  match cb with
  | onceCallback event h => off event cb;; run_handler h data
  | listener _ => mret ()
  end.

Definition _emitEvent (event : string) (data : Response.t) : M unit := λ st,
  match member (eventListeners st) event with
  | Own l => forEach l (λ cb, try_catch (invoke cb data)) st
  | Inherited => (Throw "TypeError: forEach is not a function", st)
  | Missing => (Normal (), st)
  end.

(** [_handleMessage(data)]. The first thing [_emitEvent(message.type,
    message)] does is read [this.eventListeners[event]], which converts
    [message.type] to a property key: when that throws, nothing else of
    [_emitEvent] has run. *)
Definition _handleMessage (data : Json.parsed Response.t) : M unit :=
  try_catch
    match data with
    | Json.SyntaxError => throw "SyntaxError"
    | Json.Null => throw "TypeError: cannot read properties of null"
    | Json.Scalar => _emitEvent "undefined" Response.object
    | Json.Object message =>
        match Json.property_key (Response.type message) with
        | Some event => _emitEvent event message
        | None => throw "TypeError: cannot convert object to primitive value"
        end
    end.

Definition _sendMessage (message : Command.t) : M unit := λ st,
  match ws st with
  | Some OPEN => (Normal (), with_sent (message :: sent st) st)
  | _ => (Throw "WebSocket is not connected", st)
  end.

(** ** The operations *)

Definition socket_open (st : state) : bool :=
  match ws st with Some OPEN => true | _ => false end.

(** [connectToWebsocket()], awaited: [opens] tells whether the new socket
    reaches [onopen] or [onerror]. *)
Definition connectToWebsocket (opens : bool) : M unit :=
  if opens then modify (with_ws (Some OPEN))
  else
    modify (with_ws (Some CLOSED));;
    _emitEvent "error"
      (Response.with_error (Some "WebSocket connection error") Response.object);;
    throw "WebSocket error".

Definition connect_command (c : connection) : Command.t :=
  {| Command.type := Json.Kind "connect";
     Command.host := host c;
     Command.port := Some (match port c with
                           | Some 0%Z | None => 22%Z
                           | Some n => n
                           end);
     Command.username := username c;
     Command.password := password c;
     Command.privateKey := match privateKey c with
                           | Some "" | None => None
                           | Some k => Some k
                           end;
     Command.path := None; Command.remotePath := None;
     Command.content := None; Command.isDirectory := false |}.

(** An [async] function: what it throws rejects the promise it returns. *)
Definition connect (c : connection) (opens : bool) : M nat := λ st,
  let body :=
    ((λ st, if socket_open st then (Normal (), st)
            else connectToWebsocket opens st) : M unit);;
    new_Promise (λ p,
      t ← setTimeout p "Connection timed out" 15000;
      once "connect_success" (onConnectSuccess p t);;
      once "connect_error" (onConnectError p t);;
      _sendMessage (connect_command c)) in
  match body st with
  | (Throw e, st') => Promise_reject e st'
  | r => r
  end.

Definition not_connected : string := "Not connected to any SFTP server".

(** [listFiles(path = '/')]. *)
Definition listFiles (path : option string) : M nat := λ st,
  if negb (isConnected st) then Promise_reject not_connected st
  else
    new_Promise (λ p,
      t ← setTimeout p "List files operation timed out" 10000;
      once "file_list" (onFileList p t);;
      once "error" (onError p t "Failed to list files");;
      _sendMessage
        (Command.with_path (Some (default "/" path))
           (Command.tagged (Json.Kind "list_files")))) st.

(** [downloadFile(remotePath)]. *)
Definition downloadFile (remotePath : option string) : M nat := λ st,
  if negb (isConnected st) then Promise_reject not_connected st
  else
    new_Promise (λ p,
      t ← setTimeout p "Download operation timed out" 30000;
      once "file_content" (onFileContent p t);;
      once "error" (onError p t "Failed to download file");;
      _sendMessage
        (Command.with_remotePath remotePath
           (Command.tagged (Json.Kind "download_file")))) st.

(** [uploadFile(remotePath, content)]: the handlers are registered and the
    timer is set before the content is looked at. [max_arguments] is the
    number of arguments the engine takes at this call (see
    [Codec.fromCharCode_apply]). *)
Definition uploadFile (remotePath : option string) (content : Codec.content)
    (max_arguments : nat) : M nat := λ st,
  if negb (isConnected st) then Promise_reject not_connected st
  else
    new_Promise (λ p,
      t ← setTimeout p "Upload operation timed out" 30000;
      once "upload_success" (onUploadSuccess p t);;
      once "error" (onError p t "Failed to upload file");;
      match Codec.upload_encode max_arguments content with
      | Codec.Base64 base64Content =>
          _sendMessage
            (Command.with_content (Some base64Content)
               (Command.with_remotePath remotePath
                  (Command.tagged (Json.Kind "upload_file"))))
      | Codec.InvalidContentType => reject p "Invalid content type"
      | Codec.InvalidCharacter => throw "InvalidCharacterError"
      | Codec.RangeError => throw "RangeError: Maximum call stack size exceeded"
      end) st.

(** [deleteFile(path, isDirectory = false)]. *)
Definition deleteFile (path : option string) (isDirectory : bool) : M nat := λ st,
  if negb (isConnected st) then Promise_reject not_connected st
  else
    new_Promise (λ p,
      t ← setTimeout p "Delete operation timed out" 10000;
      once "delete_success" (onDeleteSuccess p t);;
      once "error" (onError p t "Failed to delete file");;
      _sendMessage
        (Command.with_isDirectory isDirectory
           (Command.with_path path (Command.tagged (Json.Kind "delete_file"))))) st.

(** [createDirectory(path)]. *)
Definition createDirectory (path : option string) : M nat := λ st,
  if negb (isConnected st) then Promise_reject not_connected st
  else
    new_Promise (λ p,
      t ← setTimeout p "Create directory operation timed out" 10000;
      once "mkdir_success" (onMkdirSuccess p t);;
      once "error" (onError p t "Failed to create directory");;
      _sendMessage
        (Command.with_path path (Command.tagged (Json.Kind "create_directory")))) st.

(** [disconnect()]: no timer here. *)
Definition disconnect : M nat := λ st,
  if negb (isConnected st) then Promise_resolve Undefined st
  else
    new_Promise (λ p,
      once "disconnect" (onDisconnected p);;
      _sendMessage (Command.tagged (Json.Kind "disconnect"))) st.

(** [close()]. *)
Definition close : M unit :=
  ((λ st, if socket_open st then modify (with_ws (Some CLOSING)) st
          else (Normal (), st)) : M unit);;
  modify (with_isConnected false);;
  modify (with_connectionId None).

(** [ws.onclose]. *)
Definition onclose : M unit :=
  modify (with_isConnected false);;
  modify (with_connectionId None);;
  _emitEvent "disconnect"
    (Response.with_message (Some "WebSocket connection closed") Response.object).

(** ** The client in its event loop *)

Inductive call :=
| CallConnect (c : connection) (opens : bool)
| CallListFiles (path : option string)
| CallDownloadFile (remotePath : option string)
| CallUploadFile (remotePath : option string) (content : Codec.content)
    (max_arguments : nat)
| CallDeleteFile (path : option string) (isDirectory : bool)
| CallCreateDirectory (path : option string)
| CallDisconnect
| CallClose
| CallOn (event : string) (id : nat)
| CallOff (event : string) (id : nat).

Inductive input :=
| Call (c : call)                      (* the application calls a method *)
| Frame (data : Json.parsed Response.t) (* ws.onmessage *)
| TimerFires (t : nat)                 (* a timeout set by setTimeout elapses *)
| SocketCloses                         (* onclose of the socket in [ws] *)
| StaleSocketCloses.                   (* onclose of a socket [ws] has replaced *)

Definition perform (c : call) : M unit :=
  match c with
  | CallConnect conn opens => connect conn opens;; mret ()
  | CallListFiles path => listFiles path;; mret ()
  | CallDownloadFile remotePath => downloadFile remotePath;; mret ()
  | CallUploadFile remotePath content max_arguments =>
      uploadFile remotePath content max_arguments;; mret ()
  | CallDeleteFile path isDirectory => deleteFile path isDirectory;; mret ()
  | CallCreateDirectory path => createDirectory path;; mret ()
  | CallDisconnect => disconnect;; mret ()
  | CallClose => close
  | CallOn event id => on event (listener id)
  | CallOff event id => off event (listener id)
  end.

(** The function handed to [setTimeout] runs: [reject(new Error(reason))].
    A timer that was cleared does not run. *)
Definition fire (t : nat) : M unit := λ st,
  match timers st !! t with
  | Some tm => (clearTimeout t;; reject (rejects tm) (reason tm)) st
  | None => (Normal (), st)
  end.

Definition step (i : input) (st : state) : state :=
  match i with
  | Call c => (perform c st).2
  | Frame data => (_handleMessage data st).2
  | TimerFires t => (fire t st).2
  | SocketCloses => (onclose (with_ws (Some CLOSED) st)).2
  | StaleSocketCloses => (onclose st).2
  end.

Definition run (inputs : list input) (st : state) : state :=
  foldl (λ st i, step i st) st inputs.

(** The number of calls of [resolve] and [reject] for the promise [p]. *)
Definition fulfilments (p : nat) (st : state) : nat :=
  length (filter (λ c, c.1 = p) (settled st)).

End Client.

(* ===================================================================== *)
(** * server/server.js *)

Module Server.

(** What a handler does to the outside, in order. The ssh client and the
    sftp session are objects of the ssh2 library: a call of one of their
    methods is recorded. Of their later callbacks, the hooks of the ssh
    client and the callback of [sftp()] are inputs of the machine below; the
    callbacks of [readdir], [stat], the streams, [rmdir], [unlink] and
    [mkdir] only send a response and are no inputs of it (those of
    [readdir], [stat] and the read stream are in [Callbacks]). *)
Inductive effect :=
| Send (channel : string) (r : Response.t)      (* ws.send(JSON.stringify(r)) *)
| ClientEnd (client : nat)                      (* sftpClient.end() *)
| ClientConnect (client : nat) (host : option string) (port : Z)
    (username password privateKey : option string)
| OpenSftp (client : nat)                       (* sftpClient.sftp(callback) *)
| Readdir (sftp : nat) (path : string)
| Stat (sftp : nat) (remotePath : option string)
| WriteFile (sftp : nat) (remotePath : option string) (buffer : list Byte.byte)
| Rmdir (sftp : nat) (path : option string)
| Unlink (sftp : nat) (path : option string)
| Mkdir (sftp : nat) (path : option string).

(** A call on the remote side, as opposed to a response to the browser. *)
Definition remote (e : effect) : bool :=
  match e with Send _ _ => false | _ => true end.

(** A value of [activeConnections]: [{ client, ws, sftp }]. [ws] is the
    socket of the channel the key names; [client] is what the variable
    [sftpClient] held at 'ready'. *)
Record entry := { client : option nat; sftp : option nat }.

(** [activeConnections], and for each channel accepted so far the variable
    [sftpClient] of its closure ([None] for null). [clients] counts the
    [new Client()] made; [crashed] is set by an exception no handler
    catches. *)
Record state := {
  activeConnections : gmap string entry;
  sftpClient : gmap string (option nat);
  clients : nat;
  crashed : bool
}.

Definition init : state :=
  {| activeConnections := ∅; sftpClient := ∅; clients := 0; crashed := false |}.

Definition with_activeConnections x st :=
  {| activeConnections := x; sftpClient := sftpClient st;
     clients := clients st; crashed := crashed st |}.
Definition with_sftpClient x st :=
  {| activeConnections := activeConnections st; sftpClient := x;
     clients := clients st; crashed := crashed st |}.
Definition with_clients x st :=
  {| activeConnections := activeConnections st; sftpClient := sftpClient st;
     clients := x; crashed := crashed st |}.
Definition with_crashed x st :=
  {| activeConnections := activeConnections st; sftpClient := sftpClient st;
     clients := clients st; crashed := x |}.

(** [sendResponse(type, data)]. *)
Definition sendResponse (connectionId type : string) (data : Response.t) : effect :=
  Send connectionId
    {| Response.type := Json.Kind type;
       Response.error := Response.error data;
       Response.connectionId := Response.connectionId data;
       Response.message := Response.message data;
       Response.path := Response.path data;
       Response.files := Response.files data;
       Response.content := Response.content data;
       Response.size := Response.size data |}.

Definition error_response (connectionId text : string) : effect :=
  sendResponse connectionId "error"
    (Response.with_error (Some text) Response.object).

Definition no_connection : string := "No active SFTP connection".

(** The value of the channel's variable [sftpClient]. *)
Definition variable (connectionId : string) (st : state) : option nat :=
  default None (sftpClient st !! connectionId).

(** [activeConnections.get(connectionId)] followed by the guard
    [!connection || !connection.sftp]: the session to use, if any. *)
Definition session (connectionId : string) (st : state) : option nat :=
  match activeConnections st !! connectionId with
  | Some connection => sftp connection
  | None => None
  end.

(** What running a piece of a handler gives. *)
Record outcome := {
  thrown : option string;
  after : state;
  effects : list effect
}.

Definition normal (st : state) (es : list effect) : outcome :=
  {| thrown := None; after := st; effects := es |}.
Definition throws (e : string) (st : state) : outcome :=
  {| thrown := Some e; after := st; effects := [] |}.

(** The labels of [switch (data.type)], and [default]. *)
Inductive label :=
| connect | list_files | download_file | upload_file | delete_file
| create_directory | disconnect | default_.

Definition labels : list (string * label) :=
  [("connect", connect); ("list_files", list_files);
   ("download_file", download_file); ("upload_file", upload_file);
   ("delete_file", delete_file); ("create_directory", create_directory);
   ("disconnect", disconnect)].

(** The cases compare with [===]: only a string can match. *)
Definition select (type : Json.type_field) : label :=
  match type with
  | Json.Kind kind =>
      match list_find (λ kl, kl.1 = kind) labels with
      | Some (_, (_, l)) => l
      | None => default_
      end
  | _ => default_
  end.

(** The [switch] of the message handler. *)
Definition switch (connectionId : string) (data : Command.t) (st : state) : outcome :=
  let guarded (k : nat → outcome) : outcome :=
    match session connectionId st with
    | Some sftp => k sftp
    | None => normal st [error_response connectionId no_connection]
    end in
  match select (Command.type data) with
  | connect =>
      let ended :=
        match variable connectionId st with
        | Some old => [ClientEnd old]
        | None => []
        end in
      let new := clients st in
      normal
        (with_clients (S new)
           (with_sftpClient (<[connectionId := Some new]> (sftpClient st)) st))
        (ended ++
         [ClientConnect new (Command.host data)
            (match Command.port data with
             | Some 0%Z | None => 22%Z
             | Some n => n
             end)
            (Command.username data) (Command.password data)
            (match Command.privateKey data with
             | Some "" | None => None
             | Some k => Some k
             end)])%list
  | list_files =>
      guarded (λ sftp,
        normal st [Readdir sftp (Json.or_else (Command.path data) "/")])
  | download_file =>
      guarded (λ sftp, normal st [Stat sftp (Command.remotePath data)])
  | upload_file =>
      guarded (λ sftp,
        match Command.content data with
        | Some content =>
            normal st
              [WriteFile sftp (Command.remotePath data)
                 (Codec.Buffer_from_base64 content)]
        | None => throws "TypeError: the first argument must be a string" st
        end)
  | delete_file =>
      guarded (λ sftp,
        if Command.isDirectory data
        then normal st [Rmdir sftp (Command.path data)]
        else normal st [Unlink sftp (Command.path data)])
  | create_directory =>
      guarded (λ sftp, normal st [Mkdir sftp (Command.path data)])
  | disconnect =>
      match variable connectionId st with
      | Some c =>
          normal
            (with_activeConnections (delete connectionId (activeConnections st))
               (with_sftpClient (<[connectionId := None]> (sftpClient st)) st))
            [ClientEnd c;
             sendResponse connectionId "disconnect"
               (Response.with_message (Some "Disconnected") Response.object)]
      | None =>
          normal st
            [sendResponse connectionId "disconnect"
               (Response.with_message (Some "Disconnected") Response.object)]
      end
  | default_ => normal st [error_response connectionId "Unknown command"]
  end.

(** The body of the [try] of [ws.on('message')]: [JSON.parse], then
    [console.log(`Received message type: ${data.type}`)], whose template
    literal converts [data.type] to a string, then the [switch]. *)
Definition try_body (connectionId : string) (message : Json.parsed Command.t)
    (st : state) : outcome :=
  match message with
  | Json.SyntaxError => throws "SyntaxError" st
  | Json.Null => throws "TypeError: cannot read properties of null" st
  | Json.Scalar => switch connectionId (Command.tagged Json.Absent) st
  | Json.Object data =>
      match Json.property_key (Command.type data) with
      | Some _ => switch connectionId data st
      | None => throws "TypeError: cannot convert object to primitive value" st
      end
  end.

(** [ws.on('message')]: the [try] and its [catch]. *)
Definition on_message (connectionId : string) (message : Json.parsed Command.t)
    (st : state) : outcome :=
  let r := try_body connectionId message st in
  match thrown r with
  | Some _ =>
      normal (after r)
        (effects r ++
         [Send connectionId
            (Response.with_error (Some "Invalid message format or server error")
               (Response.tagged "error"))])%list
  | None => r
  end.

(** [ws.on('close')]. *)
Definition on_ws_close (connectionId : string) (st : state) : outcome :=
  normal
    (with_activeConnections (delete connectionId (activeConnections st)) st)
    match variable connectionId st with
    | Some c => [ClientEnd c]
    | None => []
    end.

(** The hooks set on the ssh client, [.on('ready')] to [.on('close')]. They
    run outside of any [try]; they read [connectionId] and the variable
    [sftpClient] of the channel's closure. *)
Definition on_ready (connectionId : string) (st : state) : outcome :=
  let st' :=
    with_activeConnections
      (<[connectionId := {| client := variable connectionId st; sftp := None |}]>
         (activeConnections st)) st in
  match variable connectionId st with
  | Some c => normal st' [OpenSftp c]
  | None => throws "TypeError: cannot read properties of null" st'
  end.

(** The callback of [sftpClient.sftp], with [err] or the session. *)
Definition on_sftp (connectionId : string) (result : string + nat) (st : state)
  : outcome :=
  match result with
  | inl err =>
      normal st
        [sendResponse connectionId "connect_error"
           (Response.with_error (Some err) Response.object)]
  | inr session =>
      match activeConnections st !! connectionId with
      | Some connection =>
          normal
            (with_activeConnections
               (<[connectionId := {| client := client connection;
                                     sftp := Some session |}]>
                  (activeConnections st)) st)
            [sendResponse connectionId "connect_success"
               (Response.with_connectionId (Some connectionId) Response.object)]
      | None => throws "TypeError: cannot set properties of undefined" st
      end
  end.

Definition on_error (connectionId err : string) (st : state) : outcome :=
  normal st
    [sendResponse connectionId "connect_error"
       (Response.with_error (Some err) Response.object)].

Definition on_end (connectionId : string) (st : state) : outcome :=
  normal st
    [sendResponse connectionId "disconnect"
       (Response.with_message (Some "Connection ended") Response.object)].

Definition on_close (connectionId : string) (st : state) : outcome :=
  normal
    (with_activeConnections (delete connectionId (activeConnections st)) st)
    [sendResponse connectionId "disconnect"
       (Response.with_message (Some "Connection closed") Response.object)].

(** ** The bridge in its event loop *)

Inductive input :=
| Connection (connectionId : string)   (* wss.on('connection'), the uuid drawn *)
| Message (connectionId : string) (message : Json.parsed Command.t)
| WsClose (connectionId : string)
| Ready (connectionId : string)
| Error (connectionId : string) (err : string)
| End (connectionId : string)
| Close (connectionId : string)
| Sftp (connectionId : string) (result : string + nat).

Definition channel_of (i : input) : string :=
  match i with
  | Connection c | Message c _ | WsClose c | Ready c | Error c _ | End c
  | Close c | Sftp c _ => c
  end.

Definition handle (i : input) (st : state) : outcome :=
  match i with
  | Connection c =>
      normal (with_sftpClient (<[c := None]> (sftpClient st)) st) []
  | Message c m => on_message c m st
  | WsClose c => on_ws_close c st
  | Ready c => on_ready c st
  | Error c e => on_error c e st
  | End c => on_end c st
  | Close c => on_close c st
  | Sftp c r => on_sftp c r st
  end.

(** An input is taken when the process runs and the channel's closure
    exists; [uuidv4] does not draw an identity twice. An exception out of a
    handler ends the process. *)
Definition enabled (i : input) (st : state) : bool :=
  negb (crashed st) &&
  match i with
  | Connection c => bool_decide (sftpClient st !! c = None)
  | _ => bool_decide (is_Some (sftpClient st !! channel_of i))
  end.

Definition step (i : input) (st : state) : state * list effect :=
  if enabled i st then
    let r := handle i st in
    match thrown r with
    | Some _ => (with_crashed true (after r), effects r)
    | None => (after r, effects r)
    end
  else (st, []).

Definition run (inputs : list input) (st : state) : state :=
  foldl (λ st i, (step i st).1) st inputs.

End Server.

(* ===================================================================== *)
(** * server/server.js: [formatDate] *)

Module Date.

Local Open Scope Z_scope.

(** ** The time values of ECMAScript: milliseconds since 1 January 1970 UTC *)

Definition msPerDay : Z := 86400000.
Definition msPerHour : Z := 3600000.
Definition msPerMinute : Z := 60000.
Definition msPerSecond : Z := 1000.

Definition Day (t : Z) : Z := t / msPerDay.

Definition DaysInYear (y : Z) : Z :=
  if negb (y mod 4 =? 0) then 365
  else if negb (y mod 100 =? 0) then 366
  else if negb (y mod 400 =? 0) then 365
  else 366.

Definition DayFromYear (y : Z) : Z :=
  365 * (y - 1970) + (y - 1969) / 4 - (y - 1901) / 100 + (y - 1601) / 400.

(** [YearFromTime(t)] is the largest [y] with [DayFromYear y <= Day t]: the
    search goes up from a year that is not after it. *)
Fixpoint year_search (fuel : nat) (y day : Z) : Z :=
  match fuel with
  | O => y
  | S fuel =>
      if DayFromYear (y + 1) <=? day then year_search fuel (y + 1) day else y
  end.

Definition YearFromTime (t : Z) : Z :=
  let day := Day t in
  year_search 1200
    (1970 + (if 0 <=? day then day / 366 else day / 365 - 1)) day.

Definition InLeapYear (t : Z) : Z :=
  if DaysInYear (YearFromTime t) =? 366 then 1 else 0.

Definition DayWithinYear (t : Z) : Z := Day t - DayFromYear (YearFromTime t).

Definition MonthFromTime (t : Z) : Z :=
  let d := DayWithinYear t in
  let leap := InLeapYear t in
  if d <? 31 then 0
  else if d <? 59 + leap then 1
  else if d <? 90 + leap then 2
  else if d <? 120 + leap then 3
  else if d <? 151 + leap then 4
  else if d <? 181 + leap then 5
  else if d <? 212 + leap then 6
  else if d <? 243 + leap then 7
  else if d <? 273 + leap then 8
  else if d <? 304 + leap then 9
  else if d <? 334 + leap then 10
  else 11.

Definition DateFromTime (t : Z) : Z :=
  let d := DayWithinYear t in
  let leap := InLeapYear t in
  match MonthFromTime t with
  | 0 => d + 1
  | 1 => d - 30
  | 2 => d - 58 - leap
  | 3 => d - 89 - leap
  | 4 => d - 119 - leap
  | 5 => d - 150 - leap
  | 6 => d - 180 - leap
  | 7 => d - 211 - leap
  | 8 => d - 242 - leap
  | 9 => d - 272 - leap
  | 10 => d - 303 - leap
  | _ => d - 333 - leap
  end.

Definition HourFromTime (t : Z) : Z := (t / msPerHour) mod 24.
Definition MinFromTime (t : Z) : Z := (t / msPerMinute) mod 60.
Definition SecFromTime (t : Z) : Z := (t / msPerSecond) mod 60.
Definition msFromTime (t : Z) : Z := t mod msPerSecond.

(** ** [Date.prototype.toISOString] *)

Definition padStart (width : nat) (s : string) : string :=
  string_of_list_ascii (replicate (width - String.length s) "0"%char) ++ s.

(** A non-negative number in decimal, with zeros in front up to [width]. *)
Definition digits (width : nat) (n : Z) : string :=
  padStart width (Format.decimal n).

(** Four digits for the years 0 to 9999, a sign and six digits otherwise. *)
Definition year_string (y : Z) : string :=
  if (0 <=? y) && (y <=? 9999) then digits 4 y
  else (if y <? 0 then "-" else "+") ++ digits 6 (Z.abs y).

Definition toISOString (t : Z) : string :=
  year_string (YearFromTime t) ++ "-" ++ digits 2 (MonthFromTime t + 1)
  ++ "-" ++ digits 2 (DateFromTime t)
  ++ "T" ++ digits 2 (HourFromTime t) ++ ":" ++ digits 2 (MinFromTime t)
  ++ ":" ++ digits 2 (SecFromTime t) ++ "." ++ digits 3 (msFromTime t) ++ "Z".

(** [s.replace(c, by_)] with a one-character pattern: the first occurrence. *)
Fixpoint replace (c by_ : ascii) (s : string) : string :=
  match s with
  | EmptyString => EmptyString
  | String x r =>
      if Ascii.eqb x c then String by_ r else String x (replace c by_ r)
  end.

(** A time value a [Date] can hold; [new Date] of another number is an
    invalid date. *)
Definition valid (t : Z) : bool := Z.abs t <=? 8640000000000000.

(** server.js, formatDate, for a whole number of milliseconds:
    [new Date(timestamp).toISOString().replace('T', ' ').substr(0, 19)].
    [toISOString] throws a RangeError on an invalid date ([None]). *)
Definition formatDate (timestamp : Z) : option string :=
  if valid timestamp
  then Some (substring 0 19 (replace "T" " " (toISOString timestamp)))
  else None.

End Date.

(* ===================================================================== *)
(** * server/server.js: the callbacks of the sftp session *)

Module Callbacks.
Import Server.

Local Open Scope list_scope.

(** ** [list_files] *)

(** An element of the list [readdir] yields: [item.filename] and, of
    [item.attrs], what the handler reads. *)
Record item := {
  filename : string;
  isDirectory : bool;    (* item.attrs.isDirectory() *)
  size : Z;              (* item.attrs.size *)
  mtime : Z;             (* item.attrs.mtime, in seconds *)
  mode : Z               (* item.attrs.mode *)
}.

(** The function given to [list.map]; [None] when [formatDate] throws. *)
Definition file_entry (i : item) : option File.entry :=
  modified ← Date.formatDate (mtime i * 1000);
  Some {| File.name := filename i;
          File.type := if isDirectory i then "folder" else "file";
          File.size := Format.entry_size (isDirectory i) (size i);
          File.modified := modified;
          File.permissions := mode i;
          File.isDirectory := isDirectory i |}.

(** [sendResponse('file_list', { path, files })]. *)
Definition file_list (connectionId path : string) (files : list File.entry) : effect :=
  sendResponse connectionId "file_list"
    {| Response.type := Json.Absent; Response.error := None;
       Response.connectionId := None; Response.message := None;
       Response.path := Some path; Response.files := Some files;
       Response.content := None; Response.size := None |}.

(** The callback of [connection.sftp.readdir(path, ...)], with [err] (its
    message) or the list; [None] when it throws. *)
Definition readdir_callback (connectionId path : string)
    (result : string + list item) : option (list effect) :=
  match result with
  | inl err => Some [error_response connectionId err]
  | inr list =>
      files ← mapM file_entry list;
      Some [file_list connectionId path files]
  end.

(** ** [download_file] *)

(** What the callback of [stat] does. *)
Inductive started :=
| Responded (e : effect)
| Reading.              (* createReadStream(remotePath), and [chunks = []] *)

(** The callback of [connection.sftp.stat(remotePath, ...)], with [err] or
    [stats.isDirectory()]. *)
Definition stat_callback (connectionId : string) (result : string + bool) : started :=
  match result with
  | inl err => Responded (error_response connectionId err)
  | inr true => Responded (error_response connectionId "Cannot download a directory")
  | inr false => Reading
  end.

(** [stream.on('data')]: [chunks.push(chunk)]. *)
Definition stream_data (chunks : list (list Byte.byte)) (chunk : list Byte.byte)
  : list (list Byte.byte) := chunks ++ [chunk].

(** [sendResponse('file_content', { path: remotePath, content, size })]. *)
Definition file_content (connectionId : string) (remotePath : option string)
    (content : string) (size : Z) : effect :=
  sendResponse connectionId "file_content"
    {| Response.type := Json.Absent; Response.error := None;
       Response.connectionId := None; Response.message := None;
       Response.path := remotePath; Response.files := None;
       Response.content := Some content; Response.size := Some size |}.

(** [stream.on('end')]: [Buffer.concat(chunks)], encoded; [size] is
    [stats.size]. *)
Definition stream_end (connectionId : string) (remotePath : option string)
    (size : Z) (chunks : list (list Byte.byte)) : effect :=
  file_content connectionId remotePath
    (Codec.Buffer_toString_base64 (concat chunks)) size.

(** [stream.on('error')]. *)
Definition stream_error (connectionId err : string) : effect :=
  error_response connectionId err.

End Callbacks.

(* ===================================================================== *)
(** * src/pages/FileManager.jsx: paths and the saved download *)

Module FileManager.
Import Codec.

Local Open Scope list_scope.

(** The code units of a string literal of the source. *)
Definition units (s : string) : js_string := N_of_ascii <$> list_ascii_of_string s.

Definition slash : N := 47.

(** ['/'], the first [currentPath]. *)
Definition root : js_string := [slash].

(** The path [handleFileClick], [handleDownload], [handleDelete] and
    [handleUpload] make of the current directory and a name:
    [currentPath === '/' ? `/${name}` : `${currentPath}/${name}`]. *)
Definition child (currentPath name : js_string) : js_string :=
  if decide (currentPath = root) then slash :: name
  else currentPath ++ slash :: name.

(** [s.split('/')]: [current] is the piece being read. *)
Fixpoint split_from (current s : js_string) : list js_string :=
  match s with
  | [] => [current]
  | u :: r =>
      if decide (u = slash) then current :: split_from [] r
      else split_from (current ++ [u]) r
  end.

Definition split (s : js_string) : list js_string := split_from [] s.

(** [parts.join('/')]. *)
Fixpoint join (parts : list js_string) : js_string :=
  match parts with
  | [] => []
  | [p] => p
  | p :: ps => p ++ slash :: join ps
  end.

(** A breadcrumb. *)
Record segment := { name : js_string; path : js_string }.

Definition Home : segment := {| name := units "Home"; path := root |}.

Definition getPathSegments (currentPath : js_string) : list segment :=
  if decide (currentPath = root) then [Home]
  else
    let segments := filter (λ s, s ≠ []) (split currentPath) in
    Home ::
    imap (λ index segment,
            {| name := segment;
               path := slash :: join (take (S index) segments) |})
      segments.

(** ** [handleDownload]: [new Blob([result.content])] *)

Definition high_surrogate (u : N) : bool := ((55296 <=? u) && (u <=? 56319))%N.
Definition low_surrogate (u : N) : bool := ((56320 <=? u) && (u <=? 57343))%N.

(** The scalar values of a string: a surrogate pair is one code point, a
    lone surrogate becomes U+FFFD. *)
Fixpoint scalar_values (s : js_string) : list N :=
  match s with
  | [] => []
  | u :: r =>
      if high_surrogate u then
        match r with
        | v :: r' =>
            if low_surrogate v
            then (65536 + (u - 55296) * 1024 + (v - 56320))%N :: scalar_values r'
            else 65533%N :: scalar_values r
        | [] => [65533%N]
        end
      else if low_surrogate u then 65533%N :: scalar_values r
      else u :: scalar_values r
  end.

Definition utf8 (c : N) : list N :=
  (if c <? 128 then [c]
   else if c <? 2048 then [192 + c / 64; 128 + c mod 64]
   else if c <? 65536 then [224 + c / 4096; 128 + c / 64 mod 64; 128 + c mod 64]
   else [240 + c / 262144; 128 + c / 4096 mod 64; 128 + c / 64 mod 64;
         128 + c mod 64])%N.

(** The octets of [new Blob([content])] for a string [content]: its UTF-8
    encoding. *)
Definition Blob (content : js_string) : list N := scalar_values content ≫= utf8.

End FileManager.

(* ===================================================================== *)
(** * Part II: properties *)

(** Induction on lists three elements at a time, the shape of base64 groups. *)
Lemma list_ind3 {A} (P : list A → Prop) :
  P [] → (∀ a, P [a]) → (∀ a b, P [a; b]) →
  (∀ a b c l, P l → P (a :: b :: c :: l)) →
  ∀ l, P l.
Proof.
  intros H0 H1 H2 H3 l.
  assert (P l ∧ (∀ a, P (a :: l)) ∧ (∀ a b, P (a :: b :: l))) as [H _].
  { induction l as [|x l (IH0 & IH1 & IH2)]; [by auto|].
    split; [apply IH1|]. split; [intros a; apply IH2|].
    intros a b. by apply H3. }
  exact H.
Qed.

(* ===================================================================== *)
Module CodecFacts.
Import Codec.

Example encode_foobar :
  base64_encode [102; 111; 111; 98; 97]%N = "Zm9vYmE=".
Proof. reflexivity. Qed.

Example encode_binary :
  Buffer_toString_base64 [Byte.x00; Byte.xff] = "AP8=".
Proof. reflexivity. Qed.

Example atob_binary : atob "AP8=" = Some [0; 255]%N.
Proof. reflexivity. Qed.

Example atob_forgiving : atob " Zm9v YmE " = Some [102; 111; 111; 98; 97]%N.
Proof. reflexivity. Qed.

Example atob_rejects : atob "Zm9v*" = None.
Proof. reflexivity. Qed.

Example node_lenient :
  Buffer_from_base64 "AP*8=AAAA" = [Byte.x00; Byte.xff].
Proof. reflexivity. Qed.


Local Ltac divmod := zify; Z.to_euclidean_division_equations; lia.

Definition octet (b : N) : Prop := (b < 256)%N.
Definition sextet (s : N) : Prop := (s < 64)%N.

Lemma sextet_char_inv n : sextet n → char_sextet (sextet_char n) = Some n.
Proof.
  intros Hn.
  assert (∀ k, (k < 64)%nat →
               char_sextet (nth k alphabet "A"%char) = Some (N.of_nat k)) as H.
  { intros k Hk. do 64 (destruct k as [|k]; [reflexivity|]). lia. }
  unfold sextet_char, sextet in *. rewrite H by lia. by rewrite N2Nat.id.
Qed.

Lemma sextet_char_plain n :
  sextet_char n ≠ pad ∧ is_ascii_whitespace (sextet_char n) = false.
Proof.
  unfold sextet_char. generalize (N.to_nat n) as k. intros k.
  do 64 (destruct k as [|k]; [by split|]). by destruct k.
Qed.

Lemma sextets_sextet bs : Forall octet bs → Forall sextet (sextets bs).
Proof.
  unfold octet, sextet.
  induction bs as [|a|a b|a b c l IH] using list_ind3; intros H; cbn [sextets].
  - constructor.
  - apply Forall_cons in H as [Ha _]. repeat constructor; divmod.
  - apply Forall_cons in H as [Ha [Hb _]%Forall_cons].
    repeat constructor; divmod.
  - apply Forall_cons in H as [Ha [Hb [Hc Hl]%Forall_cons]%Forall_cons].
    repeat (constructor; [divmod|]). by apply IH.
Qed.

Lemma octets_sextets bs : Forall octet bs → octets (sextets bs) = bs.
Proof.
  unfold octet.
  induction bs as [|a|a b|a b c l IH] using list_ind3; intros H;
    cbn [sextets octets].
  - done.
  - apply Forall_cons in H as [Ha _]. f_equal. divmod.
  - apply Forall_cons in H as [Ha [Hb _]%Forall_cons].
    f_equal; [|f_equal]; divmod.
  - apply Forall_cons in H as [Ha [Hb [Hc Hl]%Forall_cons]%Forall_cons].
    rewrite IH by done. f_equal; [|f_equal; [|f_equal]]; divmod.
Qed.

Lemma length_sextets bs : length (sextets bs) = ((4 * length bs + 2) / 3)%nat.
Proof.
  induction bs as [|a|a b|a b c l IH] using list_ind3; [done..|].
  cbn [sextets length]. rewrite IH. divmod.
Qed.

Definition plain (c : ascii) : Prop :=
  c ≠ pad ∧ is_ascii_whitespace c = false.

Lemma body_plain ss : Forall plain (sextet_char <$> ss).
Proof. apply Forall_fmap, Forall_forall. intros n _. apply sextet_char_plain. Qed.

Lemma filter_whitespace_id l :
  Forall (λ c, is_ascii_whitespace c = false) l →
  filter (λ c, is_ascii_whitespace c = false) l = l.
Proof.
  induction 1 as [|c l Hc _ IH]; [done|].
  rewrite filter_cons_True by done. by rewrite IH.
Qed.

Lemma strip_padding_body body k :
  Forall plain body → (k ≤ 2)%nat →
  ((length body + k) mod 4 = 0)%nat →
  strip_padding (body ++ replicate k pad) = body.
Proof.
  intros Hb Hk Hlen. unfold strip_padding.
  rewrite length_app, length_replicate, Hlen. cbn [Nat.eqb].
  assert (∀ c r, rev body = c :: r → Ascii.eqb c pad = false) as Hlast.
  { intros c r E. apply Ascii.eqb_neq.
    assert (c ∈ body) as Hin.
    { apply list_elem_of_In, in_rev. rewrite E. by left. }
    by apply (proj1 (Forall_forall _ _) Hb c). }
  destruct k as [|[|[|k]]]; [| | |lia]; cbn [replicate].
  - rewrite app_nil_r. destruct (rev body) as [|c r] eqn:E; [done|].
    by rewrite (Hlast c r).
  - rewrite rev_app_distr. cbn [rev app]. rewrite Ascii.eqb_refl.
    destruct (rev body) as [|c r] eqn:E.
    + by rewrite <- (rev_involutive body), E.
    + rewrite (Hlast c r) by done. rewrite <- E. apply rev_involutive.
  - rewrite rev_app_distr. cbn [rev app]. rewrite !Ascii.eqb_refl.
    apply rev_involutive.
Qed.

Lemma until_pad_body body k :
  Forall plain body → until_pad (body ++ replicate k pad) = body.
Proof.
  induction 1 as [|c l [Hc _] _ IH]; cbn [app until_pad].
  - by destruct k.
  - apply Ascii.eqb_neq in Hc. by rewrite Hc, IH.
Qed.

Lemma omap_fmap_inv {A B} (f : A → option B) (g : B → A) (l : list B) :
  Forall (λ x, f (g x) = Some x) l → omap f (g <$> l) = l.
Proof. induction 1 as [|x l Hx _ IH]; [done|]. cbn. by rewrite Hx, IH. Qed.

Lemma padding_le len : ((3 - len mod 3) mod 3 ≤ 2)%nat.
Proof. divmod. Qed.

Lemma encoded_length len :
  (((4 * len + 2) / 3 + (3 - len mod 3) mod 3) mod 4 = 0)%nat.
Proof. divmod. Qed.

Lemma body_length_mod len : (((4 * len + 2) / 3) mod 4 =? 1)%nat = false.
Proof. apply Nat.eqb_neq. divmod. Qed.

(** The browser's decoder undoes the encoder on every octet sequence. *)
Lemma atob_base64_encode bs : Forall octet bs → atob (base64_encode bs) = Some bs.
Proof.
  intros Hbs. unfold atob, base64_encode, padding.
  rewrite list_ascii_of_string_of_list_ascii.
  pose proof (body_plain (sextets bs)) as Hbody.
  rewrite filter_whitespace_id.
  2:{ apply Forall_app. split.
      - eapply Forall_impl; [exact Hbody|]. by intros c [_ ?].
      - by apply Forall_replicate. }
  rewrite strip_padding_body; [|done|apply padding_le|].
  2:{ rewrite length_fmap, length_sextets. apply encoded_length. }
  rewrite length_fmap, length_sextets, body_length_mod.
  rewrite mapM_fmap_Forall_Some.
  - cbn. by rewrite octets_sextets.
  - eapply Forall_impl; [by apply sextets_sextet|]. apply sextet_char_inv.
Qed.

(** Node's decoder undoes the encoder on every buffer. *)
Lemma Buffer_from_base64_encode (C : list Byte.byte) :
  Buffer_from_base64 (base64_encode (Byte.to_N <$> C)) = C.
Proof.
  assert (Forall octet (Byte.to_N <$> C)) as Hoct.
  { apply Forall_fmap, Forall_forall. intros b _. unfold octet. cbn.
    pose proof (Byte.to_N_bounded b). lia. }
  unfold Buffer_from_base64, base64_encode, padding.
  rewrite list_ascii_of_string_of_list_ascii.
  rewrite until_pad_body by apply body_plain.
  rewrite omap_fmap_inv.
  - rewrite octets_sextets by done. apply omap_fmap_inv, Forall_forall.
    intros b _. apply Byte.of_to_N.
  - eapply Forall_impl; [by apply sextets_sextet|].
    intros n Hn. unfold node_sextet. by rewrite sextet_char_inv.
Qed.

Lemma btoa_octets bs : Forall octet bs → btoa bs = Some (base64_encode bs).
Proof.
  intros H. unfold btoa.
  assert (forallb (λ u, u <=? 255)%N bs = true) as ->; [|done].
  apply forallb_forall. intros u Hu%list_elem_of_In.
  apply N.leb_le. pose proof (proj1 (Forall_forall _ _) H u Hu) as Hb.
  unfold octet in Hb. lia.
Qed.

Lemma fromCharCode_octets C : Forall octet (fromCharCode C).
Proof.
  apply Forall_fmap, Forall_forall. intros b _. unfold octet. cbn.
  pose proof (Byte.to_N_bounded b). lia.
Qed.

Lemma upload_encode_buffer max_arguments C :
  upload_encode max_arguments (ArrayBufferContent C)
  = if decide (length C ≤ max_arguments)%nat
    then Base64 (base64_encode (fromCharCode C)) else RangeError.
Proof.
  unfold upload_encode, fromCharCode_apply.
  destruct (Nat.leb_spec (length C) max_arguments); case_decide; try lia; [|done].
  by rewrite btoa_octets by apply fromCharCode_octets.
Qed.

(** What was uploaded as [wire] comes back as the string of its octets. *)
Lemma download_of_wire C P fs :
  server_download P (server_upload P (base64_encode (fromCharCode C)) fs)
    ≫= download_decode
  = Some (fromCharCode C).
Proof.
  unfold server_download, server_upload. rewrite lookup_insert_eq. cbn.
  unfold fromCharCode. rewrite Buffer_from_base64_encode.
  unfold download_decode, Buffer_toString_base64.
  apply atob_base64_encode, fromCharCode_octets.
Qed.

(** C3. [uploadFile] hands the octets of an ArrayBuffer [C] to
    [String.fromCharCode.apply] as the arguments of one call. When [C] has
    more octets than the engine takes arguments, that call throws a
    RangeError: the conversion fails, nothing is uploaded, and there is
    nothing to download. For every [C] within the limit (the empty sequence
    and those with 0x00 and 0xFF included), every path [P] and every remote
    file system, the upload stores exactly [C] at [P] and the download of
    [P] through [downloadFile]'s conversion hands back the string whose code
    units are the octets of [C]. The encoder of one end followed by the
    decoder of the other is the identity, in both directions, and so is the
    round trip of a content given as a binary string. *)
Theorem upload_download_roundtrip (max_arguments : nat) (C : list Byte.byte)
    (P : string) (fs : remote_fs) :
  upload_then_download max_arguments P (ArrayBufferContent C) fs
  = (if decide (length C ≤ max_arguments)%nat then Some (fromCharCode C) else None)
  ∧ upload_encode max_arguments (ArrayBufferContent C)
    = (if decide (length C ≤ max_arguments)%nat
       then Base64 (base64_encode (fromCharCode C)) else RangeError)
  ∧ server_upload P (base64_encode (fromCharCode C)) fs !! P = Some C
  ∧ upload_then_download max_arguments P (StringContent (fromCharCode C)) fs
    = Some (fromCharCode C)
  ∧ Buffer_from_base64 (Buffer_toString_base64 C) = C
  ∧ download_decode (Buffer_toString_base64 C) = Some (fromCharCode C).
Proof.
  pose proof (fromCharCode_octets C) as Hoct.
  pose proof (download_of_wire C P fs) as Hback.
  split.
  { unfold upload_then_download. rewrite upload_encode_buffer.
    case_decide; [|done].
    destruct (server_download P _) as [back|]; [exact Hback|done]. }
  split; [apply upload_encode_buffer|].
  split.
  { unfold server_upload. rewrite lookup_insert_eq. f_equal.
    apply Buffer_from_base64_encode. }
  split.
  { unfold upload_then_download. cbn [upload_encode]. rewrite btoa_octets by done.
    destruct (server_download P _) as [back|]; [exact Hback|done]. }
  split; [apply Buffer_from_base64_encode|].
  by apply atob_base64_encode.
Qed.

(** An ArrayBuffer of one octet more than the engine takes arguments (here
    125304 of them) is not uploaded. *)
Example upload_too_long :
  let max_arguments := Z.to_nat 125304 in
  let content := ArrayBufferContent (replicate (S max_arguments) Byte.x00) in
  upload_encode max_arguments content = RangeError
  ∧ upload_then_download max_arguments "/f" content ∅ = None.
Proof. by vm_compute. Qed.

Example roundtrip_empty :
  upload_then_download 0 "/f" (ArrayBufferContent []) ∅ = Some [].
Proof. vm_compute. reflexivity. Qed.

Example roundtrip_binary :
  upload_then_download 3 "/f" (ArrayBufferContent [Byte.x00; Byte.xff; Byte.x41]) ∅
  = Some [0; 255; 65]%N.
Proof. vm_compute. reflexivity. Qed.

Example roundtrip_wide_string_fails :
  upload_encode 1 (StringContent [8364%N]) = InvalidCharacter.
Proof. reflexivity. Qed.

End CodecFacts.

(* ===================================================================== *)
Module FormatFacts.
Import Format.
Import PrimFloat.
Open Scope Z_scope.

Example size_1536 : formatFileSize 1536 = "1.50 KB".
Proof. by vm_compute. Qed.

Example size_rounds_up : formatFileSize 1048575 = "1024.00 KB".
Proof. by vm_compute. Qed.

Example size_terabytes : formatFileSize (1024 ^ 5 - 4) = "1024.00 TB".
Proof. by vm_compute. Qed.

Example size_exabyte : formatFileSize (2 ^ 60 - 128) = "1.00 undefined".
Proof. by vm_compute. Qed.

Example size_negative : formatFileSize (-1) = "NaN undefined".
Proof. by vm_compute. Qed.

Example folder_placeholder : entry_size true 4096 = "-".
Proof. reflexivity. Qed.

Example toFixed2_tie : toFixed2 0.125%float = "0.13".
Proof. by vm_compute. Qed.

Example toFixed2_large : toFixed2 1.5e21%float = "1.5e+21".
Proof. by vm_compute. Qed.

(** The quotient of the two logarithms, in doubles: exactly 1 and 2 at 1024
    and 1024^2, below 1 at 1023; exactly 5 already three bytes below
    1024^5. *)
Example log_quotients :
  let quotient bytes := (Math.log (Math.Number bytes) / Math.log 1024)%float in
  quotient 1023 = 0x1.ffed86445ef6dp-1%float
  ∧ quotient 1024 = 1%float
  ∧ quotient (1024 ^ 2) = 2%float
  ∧ quotient (1024 ^ 5 - 4) = 0x1.3ffffffffffffp+2%float
  ∧ quotient (1024 ^ 5 - 3) = 5%float
  ∧ quotient (1024 ^ 5) = 5%float.
Proof. by vm_compute. Qed.

(** A formatted size has a space in it. *)
Lemma formatFileSize_not_dash bytes : formatFileSize bytes ≠ "-".
Proof.
  unfold formatFileSize. destruct (bytes =? 0); [done|].
  generalize (toFixed2 (Math.Number bytes
                        / Math.pow_1024
                            (Math.floor (Math.log (Math.Number bytes) / Math.log 1024)))).
  intros [|c [|c' number]]; discriminate.
Qed.

(** X2. A whole number [k] of bytes, KiB, MiB, GiB or TiB, for [k] from 1 to
    1023, is printed as [k] with two zeros after the point and that unit:
    at each of these sizes, the powers of 1024 among them, the quotient of
    the logarithms in doubles has the integer part it should have. *)
Theorem formatFileSize_whole i k u :
  0 ≤ i → units !! Z.to_nat i = Some u → 0 < k < 1024 →
  formatFileSize (k * 1024 ^ i) = decimal k ++ ".00 " ++ u.
Proof.
  intros Hi Hu Hk.
  assert (forallb (λ i,
            forallb (λ k, String.eqb (formatFileSize (k * 1024 ^ i))
                            (decimal k ++ ".00 " ++ nth (Z.to_nat i) units ""))
              (seqZ 1 1023))
            (seqZ 0 5) = true) as Hall by (vm_compute; reflexivity).
  assert (i < 5) as Hi5 by (apply lookup_lt_Some in Hu; cbn in Hu; lia).
  rewrite <- (nth_lookup_Some _ _ "" _ Hu).
  apply String.eqb_eq.
  refine (proj1 (forallb_forall _ _)
            (proj1 (forallb_forall _ _) Hall i _) k _);
    apply list_elem_of_In, elem_of_seqZ; lia.
Qed.

(** The instance: 512 MiB. *)
Lemma formatFileSize_whole_witness :
  (0 ≤ 2 ∧ units !! Z.to_nat 2 = Some "MB" ∧ 0 < 512 < 1024)
  ∧ formatFileSize (512 * 1024 ^ 2) = "512.00 MB".
Proof.
  assert (0 ≤ 2 ∧ units !! Z.to_nat 2 = Some "MB" ∧ 0 < 512 < 1024) as H
    by (split; [lia|split; [reflexivity|lia]]).
  split; [exact H|].
  exact (formatFileSize_whole 2 512 "MB" (proj1 H) (proj1 (proj2 H)) (proj2 (proj2 H))).
Defined.

(** C6. [formatFileSize] maps 0 to "0 B", 1023 to "1023.00 B", 1024 to
    "1.00 KB" and 1048576 to "1.00 MB". It does not print every size in a
    unit of B/KB/MB/GB/TB: the unit is the one at the index
    [Math.floor(Math.log(bytes) / Math.log(1024))], and the list has no
    unit at the index 5. In doubles that index is 5 from three bytes below
    1024^5 on: the sizes 1024^5 - 1 and 1024^5 are printed as
    "1.00 undefined". *)
Theorem formatFileSize_unit_missing :
  formatFileSize 0 = "0 B"
  ∧ formatFileSize 1023 = "1023.00 B"
  ∧ formatFileSize 1024 = "1.00 KB"
  ∧ formatFileSize 1048576 = "1.00 MB"
  ∧ formatFileSize (1024 ^ 5 - 1) = "1.00 undefined"
  ∧ formatFileSize (1024 ^ 5) = "1.00 undefined".
Proof. by vm_compute. Qed.

End FormatFacts.

(* ===================================================================== *)
Module ClientFacts.
Import Client.

Definition profile : connection :=
  {| host := Some "sftp.example.org"; port := None; username := Some "alice";
     password := Some "secret"; privateKey := None |}.

Definition connect_success (id : string) : Response.t :=
  Response.with_connectionId (Some id) (Response.tagged "connect_success").

Definition error_frame (e : string) : Response.t :=
  Response.with_error (Some e) (Response.tagged "error").

Definition connected_idle : state :=
  with_isConnected true (with_ws (Some OPEN) constructor).


(** ** The listener table *)

(** The table has the keys the constructor gave it. *)
Definition keyed (st : state) : Prop :=
  dom (eventListeners st) = list_to_set event_names.

Lemma constructor_keyed : keyed constructor.
Proof. unfold keyed, constructor. cbn [eventListeners]. by rewrite dom_list_to_map_L. Qed.

Lemma keyed_some st ev :
  keyed st → ev ∈ event_names → ∃ l, eventListeners st !! ev = Some l.
Proof.
  intros Hk Hev. apply (elem_of_dom (eventListeners st)). rewrite Hk.
  by apply elem_of_list_to_set.
Qed.

Lemma keyed_none st ev :
  keyed st → ev ∉ event_names → eventListeners st !! ev = None.
Proof.
  intros Hk Hev. apply (not_elem_of_dom (eventListeners st)). rewrite Hk.
  by rewrite elem_of_list_to_set.
Qed.

Lemma member_own tbl ev l : tbl !! ev = Some l → member tbl ev = Own l.
Proof. unfold member. by intros ->. Qed.

Lemma member_not_own tbl ev :
  tbl !! ev = None → member tbl ev = Inherited ∨ member tbl ev = Missing.
Proof. unfold member. intros ->. case_bool_decide; auto. Qed.

Local Ltac mrun :=
  unfold mbind, M_bind, mret, M_ret, modify, throw, fresh, clearTimeout,
    resolve, reject, settle in *; cbn in *.

Lemma on_state ev cb st :
  (on ev cb st).2 =
  match eventListeners st !! ev with
  | Some l => with_eventListeners (<[ev := (l ++ [cb])%list]> (eventListeners st)) st
  | None => st
  end.
Proof.
  unfold on. destruct (eventListeners st !! ev) as [l|] eqn:E.
  - by rewrite (member_own _ _ l).
  - by destruct (member_not_own _ _ E) as [-> | ->].
Qed.

Lemma off_state ev cb st :
  (off ev cb st).2 =
  match eventListeners st !! ev with
  | Some l =>
      with_eventListeners (<[ev := filter (λ c, c ≠ cb) l]> (eventListeners st)) st
  | None => st
  end.
Proof.
  unfold off. destruct (eventListeners st !! ev) as [l|] eqn:E.
  - by rewrite (member_own _ _ l).
  - by destruct (member_not_own _ _ E) as [-> | ->].
Qed.

Lemma on_dom ev cb st :
  dom (eventListeners (on ev cb st).2) = dom (eventListeners st).
Proof.
  rewrite on_state. destruct (eventListeners st !! ev) eqn:E; [|done].
  cbn. by apply dom_insert_lookup_L.
Qed.

Lemma off_dom ev cb st :
  dom (eventListeners (off ev cb st).2) = dom (eventListeners st).
Proof.
  rewrite off_state. destruct (eventListeners st !! ev) eqn:E; [|done].
  cbn. by apply dom_insert_lookup_L.
Qed.

Lemma run_handler_listeners h data st :
  eventListeners (run_handler h data st).2 = eventListeners st.
Proof.
  destruct h; mrun; try done.
  destruct (Codec.download_decode _); by mrun.
Qed.

(** What [invoke] leaves in the table: the listener array of a one-shot
    wrapper without the wrapper. *)
Lemma invoke_listeners cb data st :
  eventListeners (invoke cb data st).2 =
  match cb with
  | onceCallback ev _ =>
      eventListeners (off ev cb (with_invoked (cb :: invoked st) st)).2
  | listener _ => eventListeners st
  end.
Proof.
  unfold invoke. destruct cb as [ev h|id]; mrun; [|done].
  destruct (off ev _ _) as [[[]|e] st1] eqn:E; cbn; [|done].
  apply run_handler_listeners.
Qed.

Lemma invoke_dom cb data st :
  dom (eventListeners (invoke cb data st).2) = dom (eventListeners st).
Proof.
  rewrite invoke_listeners. destruct cb; [|done]. by rewrite off_dom.
Qed.

(** The loop of [_emitEvent] over the array it read. *)
Definition sweep (data : Response.t) (l : list callback) (st : state) : state :=
  (forEach l (λ cb, try_catch (invoke cb data)) st).2.

Lemma sweep_nil data st : sweep data [] st = st.
Proof. done. Qed.

Lemma sweep_cons data cb l st :
  sweep data (cb :: l) st = sweep data l (invoke cb data st).2.
Proof. unfold sweep. cbn. unfold mbind, M_bind, try_catch. done. Qed.

Lemma emit_state ev data st :
  (_emitEvent ev data st).2 =
  match eventListeners st !! ev with
  | Some l => sweep data l st
  | None => st
  end.
Proof.
  unfold _emitEvent. destruct (eventListeners st !! ev) as [l|] eqn:E.
  - by rewrite (member_own _ _ l).
  - by destruct (member_not_own _ _ E) as [-> | ->].
Qed.

Lemma sweep_dom data l st :
  dom (eventListeners (sweep data l st)) = dom (eventListeners st).
Proof.
  revert st. induction l as [|cb l IH]; intros st; [done|].
  by rewrite sweep_cons, IH, invoke_dom.
Qed.

Lemma emit_dom ev data st :
  dom (eventListeners (_emitEvent ev data st).2) = dom (eventListeners st).
Proof.
  rewrite emit_state. destruct (eventListeners st !! ev); [|done].
  apply sweep_dom.
Qed.

(** C10. In a client whose table has the keys of the constructor, for every
    event name that is none of the eight: [on], [once] and [off] leave the
    client as it is (they return or throw a TypeError for a name of
    Object.prototype, without a change), [_emitEvent] calls no listener and
    leaves the client as it is, and a frame tagged with that name is
    dropped by [_handleMessage]. The set of keys of the table is the same
    after [on], [once], [off] and [_emitEvent], for every event name. *)
Theorem listener_keys_invariant st event cb h data :
  keyed st → event ∉ event_names →
  ((on event cb st).2 = st
   ∧ (once event h st).2 = st
   ∧ (off event cb st).2 = st
   ∧ (_emitEvent event data st).2 = st
   ∧ invoked (_emitEvent event data st).2 = invoked st
   ∧ (Json.property_key (Response.type data) = Some event →
      _handleMessage (Json.Object data) st = (Normal (), st)))
  ∧ (∀ ev' cb' h' data',
       keyed (on ev' cb' st).2
       ∧ keyed (once ev' h' st).2
       ∧ keyed (off ev' cb' st).2
       ∧ keyed (_emitEvent ev' data' st).2).
Proof.
  intros Hk Hev. pose proof (keyed_none st event Hk Hev) as Hnone. split.
  - assert ((_emitEvent event data st).2 = st) as Hemit.
    { by rewrite emit_state, Hnone. }
    split; [by rewrite on_state, Hnone|].
    split; [unfold once; by rewrite on_state, Hnone|].
    split; [by rewrite off_state, Hnone|].
    split; [done|]. split; [by rewrite Hemit|].
    intros Heq. unfold _handleMessage, try_catch. by rewrite Heq, Hemit.
  - intros ev' cb' h' data'. unfold keyed, once.
    by rewrite on_dom, on_dom, off_dom, emit_dom.
Qed.

(** The instance at the constructor's table and the wire name
    [connect_success]. *)
Lemma listener_keys_invariant_witness :
  (keyed constructor ∧ "connect_success" ∉ event_names)
  ∧ (once "connect_success" (onConnectSuccess 0 1) constructor).2 = constructor.
Proof.
  assert (keyed constructor ∧ "connect_success" ∉ event_names) as H.
  { split; [apply constructor_keyed|]. by apply (bool_decide_unpack _). }
  split; [exact H|].
  exact (proj1 (proj2 (proj1
    (listener_keys_invariant constructor "connect_success" (listener 0)
       (onConnectSuccess 0 1) Response.object (proj1 H) (proj2 H))))).
Defined.

(** ** Requests: promises, their handlers and their timers *)

Definition handler_promise (h : handler) : nat :=
  match h with
  | onConnectSuccess p _ | onConnectError p _ | onFileList p _
  | onFileContent p _ | onUploadSuccess p _ | onDeleteSuccess p _
  | onMkdirSuccess p _ | onError p _ _ | onDisconnected p => p
  end.

Definition handler_timer (h : handler) : option nat :=
  match h with
  | onConnectSuccess _ t | onConnectError _ t | onFileList _ t
  | onFileContent _ t | onUploadSuccess _ t | onDeleteSuccess _ t
  | onMkdirSuccess _ t | onError _ t _ => Some t
  | onDisconnected _ => None
  end.

(** The event name the operations pass to [once] with each handler. *)
Definition handler_event (h : handler) : string :=
  match h with
  | onConnectSuccess _ _ => "connect_success"
  | onConnectError _ _ => "connect_error"
  | onFileList _ _ => "file_list"
  | onFileContent _ _ => "file_content"
  | onUploadSuccess _ _ => "upload_success"
  | onDeleteSuccess _ _ => "delete_success"
  | onMkdirSuccess _ _ => "mkdir_success"
  | onError _ _ _ => "error"
  | onDisconnected _ => "disconnect"
  end.

(** The promise a member of a listener array settles, if it is a one-shot
    handler of a request. *)
Definition promise_of (cb : callback) : option nat :=
  match cb with
  | onceCallback _ h => Some (handler_promise h)
  | listener _ => None
  end.

Definition registered (st : state) (cb : callback) : Prop :=
  ∃ k l, eventListeners st !! k = Some l ∧ cb ∈ l.

(** No handler of the promise [p] is in the table. *)
Definition unregistered (p : nat) (st : state) : Prop :=
  ∀ cb, registered st cb → promise_of cb ≠ Some p.

(** No pending timeout rejects the promise [p]. *)
Definition untimed (p : nat) (st : state) : Prop :=
  ∀ t tm, timers st !! t = Some tm → rejects tm ≠ p.

(** Between [st] and [st'] a one-shot handler of [p] was called. *)
Definition fires (p : nat) (st st' : state) : Prop :=
  ∃ new cb, invoked st' = (new ++ invoked st)%list ∧ cb ∈ new ∧ promise_of cb = Some p.

(** Only the two wire names that are keys of the table can hold a handler,
    and such a handler calls [resolve] or [reject] whatever the frame. *)
Lemma handler_event_key h :
  handler_event h ∈ event_names →
  (∃ p t fb, h = onError p t fb) ∨ (∃ p, h = onDisconnected p).
Proof.
  intros Hin. destruct h; cbn in Hin;
    try (exfalso; revert Hin; by apply (bool_decide_unpack _)); eauto.
Qed.

Lemma fulfilments_cons p q s st rest :
  settled st = (q, s) :: rest →
  fulfilments p st = ((if decide (q = p) then 1 else 0) + length (filter (λ c, c.1 = p) rest))%nat.
Proof.
  intros E. unfold fulfilments. rewrite E, filter_cons. cbn.
  by destruct (decide (q = p)).
Qed.

(** *** What a call of a listener changes *)

Lemma run_handler_timers h data st :
  timers (run_handler h data st).2 =
  match handler_timer h with
  | Some t => delete t (timers st)
  | None => timers st
  end.
Proof.
  destruct h; mrun; try done.
  destruct (Codec.download_decode _); by mrun.
Qed.

Lemma run_handler_next h data st : next (run_handler h data st).2 = next st.
Proof.
  destruct h; mrun; try done.
  destruct (Codec.download_decode _); by mrun.
Qed.

Lemma run_handler_invoked h data st :
  invoked (run_handler h data st).2 = invoked st.
Proof.
  destruct h; mrun; try done.
  destruct (Codec.download_decode _); by mrun.
Qed.

Lemma run_handler_settled h data st :
  settled (run_handler h data st).2 = settled st
  ∨ ∃ s, settled (run_handler h data st).2 = (handler_promise h, s) :: settled st.
Proof.
  destruct h; mrun; eauto.
  destruct (Codec.download_decode _); mrun; eauto.
Qed.

Lemma run_handler_settles h data st :
  handler_event h ∈ event_names →
  ∃ s, settled (run_handler h data st).2 = (handler_promise h, s) :: settled st.
Proof.
  intros [(p & t & fb & ->)|(p & ->)]%handler_event_key; mrun; eauto.
Qed.

Lemma off_other ev cb st :
  timers (off ev cb st).2 = timers st ∧ next (off ev cb st).2 = next st
  ∧ settled (off ev cb st).2 = settled st ∧ invoked (off ev cb st).2 = invoked st.
Proof. rewrite off_state. by destruct (eventListeners st !! ev). Qed.

(** [invoke] on a one-shot wrapper whose array exists. *)
Lemma invoke_once ev h data st l :
  eventListeners st !! ev = Some l →
  (invoke (onceCallback ev h) data st).2 =
  (run_handler h data
     (with_eventListeners
        (<[ev := filter (λ c, c ≠ onceCallback ev h) l]> (eventListeners st))
        (with_invoked (onceCallback ev h :: invoked st) st))).2.
Proof.
  intros El. unfold invoke, off. mrun. by rewrite (member_own _ _ l El).
Qed.

(** [invoke] on a one-shot wrapper whose event is no key: [off] returns or
    throws, nothing but the record of the call changes. *)
Lemma invoke_stray ev h data st :
  eventListeners st !! ev = None →
  eventListeners (invoke (onceCallback ev h) data st).2 = eventListeners st.
Proof. intros E. rewrite invoke_listeners, off_state. cbn. by rewrite E. Qed.

Lemma invoke_timers cb data st :
  ∀ t tm, timers (invoke cb data st).2 !! t = Some tm → timers st !! t = Some tm.
Proof.
  intros t tm. unfold invoke. destruct cb as [ev h|id]; mrun; [|done].
  destruct (off ev _ _) as [[[]|e] st1] eqn:E; cbn.
  - rewrite run_handler_timers.
    pose proof (off_other ev (onceCallback ev h)
                  (with_invoked (onceCallback ev h :: invoked st) st)) as (Ht & _).
    rewrite E in Ht. cbn in Ht. rewrite Ht.
    destruct (handler_timer h); [|done]. by intros [_ ?]%lookup_delete_Some.
  - pose proof (off_other ev (onceCallback ev h)
                  (with_invoked (onceCallback ev h :: invoked st) st)) as (Ht & _).
    rewrite E in Ht. cbn in Ht. by rewrite Ht.
Qed.

Lemma invoke_next cb data st : next (invoke cb data st).2 = next st.
Proof.
  unfold invoke. destruct cb as [ev h|id]; mrun; [|done].
  pose proof (off_other ev (onceCallback ev h)
                (with_invoked (onceCallback ev h :: invoked st) st)) as (_ & Hn & _).
  destruct (off ev _ _) as [[[]|e] st1] eqn:E; cbn in *; [|done].
  by rewrite run_handler_next.
Qed.

Lemma invoke_invoked cb data st :
  invoked (invoke cb data st).2 = cb :: invoked st.
Proof.
  unfold invoke. destruct cb as [ev h|id]; mrun; [|done].
  pose proof (off_other ev (onceCallback ev h)
                (with_invoked (onceCallback ev h :: invoked st) st)) as (_ & _ & _ & Hi).
  destruct (off ev _ _) as [[[]|e] st1] eqn:E; cbn in *; [|done].
  by rewrite run_handler_invoked.
Qed.

Lemma invoke_settled cb data st :
  settled (invoke cb data st).2 = settled st
  ∨ ∃ p s, promise_of cb = Some p ∧ settled (invoke cb data st).2 = (p, s) :: settled st.
Proof.
  unfold invoke. destruct cb as [ev h|id]; mrun; [|by left].
  pose proof (off_other ev (onceCallback ev h)
                (with_invoked (onceCallback ev h :: invoked st) st)) as (_ & _ & Hs & _).
  destruct (off ev _ _) as [[[]|e] st1] eqn:E; cbn in *; [|by left].
  destruct (run_handler_settled h data st1) as [->|[s ->]]; rewrite Hs; eauto.
Qed.

(** *** The table and the timers only lose members in a call *)

Definition shrinks (st st' : state) : Prop :=
  dom (eventListeners st') = dom (eventListeners st)
  ∧ (∀ k l', eventListeners st' !! k = Some l' →
             ∃ l, eventListeners st !! k = Some l ∧ l' `sublist_of` l)
  ∧ (∀ t tm, timers st' !! t = Some tm → timers st !! t = Some tm)
  ∧ next st' = next st.

Lemma shrinks_refl st : shrinks st st.
Proof. repeat split; eauto. Qed.

Lemma shrinks_trans st1 st2 st3 : shrinks st1 st2 → shrinks st2 st3 → shrinks st1 st3.
Proof.
  intros (D1 & L1 & T1 & N1) (D2 & L2 & T2 & N2). repeat split.
  - congruence.
  - intros k l3 H3. destruct (L2 k l3 H3) as (l2 & H2 & S2).
    destruct (L1 k l2 H2) as (l1 & H1 & S1). exists l1. split; [done|].
    by etrans.
  - eauto.
  - congruence.
Qed.

Lemma invoke_shrinks cb data st : shrinks st (invoke cb data st).2.
Proof.
  split; [apply invoke_dom|]. split; [|split; [apply invoke_timers|apply invoke_next]].
  intros k l'. rewrite invoke_listeners. destruct cb as [ev h|id]; [|by eauto].
  rewrite off_state. cbn.
  destruct (eventListeners st !! ev) as [l|] eqn:E; cbn; [|by eauto].
  intros [[<- <-]|[Hne Hk]]%lookup_insert_Some; [|by eauto].
  exists l. split; [done|]. apply sublist_filter.
Qed.

Lemma sweep_shrinks data l st : shrinks st (sweep data l st).
Proof.
  revert st. induction l as [|cb l IH]; intros st; [apply shrinks_refl|].
  rewrite sweep_cons. eapply shrinks_trans; [apply invoke_shrinks|apply IH].
Qed.

Lemma sweep_invoked data l st :
  invoked (sweep data l st) = (rev l ++ invoked st)%list.
Proof.
  revert st. induction l as [|cb l IH]; intros st; [done|].
  rewrite sweep_cons, IH, invoke_invoked. cbn. by rewrite <- app_assoc.
Qed.

Lemma shrinks_registered st st' cb : shrinks st st' → registered st' cb → registered st cb.
Proof.
  intros (_ & L & _) (k & l' & Hk & Hin). destruct (L k l' Hk) as (l & Hl & Hsub).
  exists k, l. split; [done|]. by eapply elem_of_sublist.
Qed.

Lemma shrinks_unregistered p st st' : shrinks st st' → unregistered p st → unregistered p st'.
Proof. intros Hs Hu cb Hr. eapply Hu, shrinks_registered; eauto. Qed.

Lemma shrinks_untimed p st st' : shrinks st st' → untimed p st → untimed p st'.
Proof. intros (_ & _ & T & _) Hu t tm Ht. eapply Hu, T, Ht. Qed.

(** *** Calls that leave a promise alone *)

Lemma invoke_quiet p cb data st :
  promise_of cb ≠ Some p → fulfilments p (invoke cb data st).2 = fulfilments p st.
Proof.
  intros Hne. destruct (invoke_settled cb data st) as [E|(q & s & Hq & E)].
  - unfold fulfilments. by rewrite E.
  - rewrite (fulfilments_cons p q s _ _ E). destruct (decide (q = p)); [congruence|done].
Qed.

Lemma sweep_quiet p data l st :
  (∀ cb, cb ∈ l → promise_of cb ≠ Some p) →
  fulfilments p (sweep data l st) = fulfilments p st.
Proof.
  revert st. induction l as [|cb l IH]; intros st Hl; [done|].
  rewrite sweep_cons, IH; [|intros cb' ?; apply Hl; by right].
  apply invoke_quiet, Hl. by left.
Qed.

(** *** The call that fulfils a promise *)

(** What is known of the handler [onceCallback ev h] of the promise [p]
    while it waits in the table; calls of other listeners keep it. *)
Record armed (p : nat) (ev : string) (h : handler) (st : state) : Prop := {
  armed_promise : handler_promise h = p;
  armed_settles : handler_event h ∈ event_names;
  armed_key : is_Some (eventListeners st !! ev);
  armed_home : ∀ k l, eventListeners st !! k = Some l → onceCallback ev h ∈ l → k = ev;
  armed_only : ∀ cb, registered st cb → promise_of cb = Some p → cb = onceCallback ev h;
  armed_timer : ∀ t tm, timers st !! t = Some tm → rejects tm = p → handler_timer h = Some t
}.

Lemma armed_shrinks p ev h st st' : armed p ev h st → shrinks st st' → armed p ev h st'.
Proof.
  intros [A1 A2 A3 A4 A5 A6] Hs. pose proof Hs as (D & L & T & N).
  split; try done.
  - apply elem_of_dom. rewrite D. by apply elem_of_dom.
  - intros k l' Hk Hin. destruct (L k l' Hk) as (l & Hl & Hsub).
    eapply A4; [exact Hl|]. by eapply elem_of_sublist.
  - intros cb Hr. apply A5. by eapply shrinks_registered.
  - intros t tm Ht. apply A6. by apply T.
Qed.

Lemma invoke_fire p ev h data st :
  armed p ev h st →
  let st' := (invoke (onceCallback ev h) data st).2 in
  unregistered p st' ∧ untimed p st' ∧ fulfilments p st' = S (fulfilments p st).
Proof.
  intros [A1 A2 [l El] A4 A5 A6]. cbn zeta. rewrite (invoke_once ev h data st l El).
  set (st1 := with_eventListeners _ _). split; [|split].
  - intros cb (k & l' & Hk & Hin) Hp. rewrite run_handler_listeners in Hk.
    unfold st1 in Hk. cbn in Hk.
    apply lookup_insert_Some in Hk as [[<- <-]|[Hne Hk]].
    + apply list_elem_of_filter in Hin as [Hcb Hin]. apply Hcb, A5; [|done].
      by exists ev, l.
    + assert (cb = onceCallback ev h) as -> by (apply A5; [by exists k, l'|done]).
      apply Hne. symmetry. by eapply A4.
  - intros t tm Ht Hr. rewrite run_handler_timers in Ht.
    destruct (handler_timer h) as [t0|] eqn:Eh.
    + apply lookup_delete_Some in Ht as [Hne Ht]. apply Hne.
      specialize (A6 t tm Ht Hr). congruence.
    + by specialize (A6 t tm Ht Hr).
  - destruct (run_handler_settles h data st1 A2) as [s Hs].
    rewrite (fulfilments_cons p _ s _ _ Hs), A1, decide_True by done. done.
Qed.

Lemma nodup_promises_cons cb l :
  NoDup (omap promise_of (cb :: l)) →
  NoDup (omap promise_of l)
  ∧ ∀ p cb', promise_of cb = Some p → cb' ∈ l → promise_of cb' ≠ Some p.
Proof.
  cbn. destruct (promise_of cb) as [q|] eqn:E.
  - intros [Hnin Hnd]%NoDup_cons. split; [done|].
    intros p cb' [= <-] Hin Hp. apply Hnin, list_elem_of_omap. eauto.
  - intros Hnd. done.
Qed.

Lemma sweep_fire p ev h data l st :
  NoDup (omap promise_of l) → onceCallback ev h ∈ l → armed p ev h st →
  let st' := sweep data l st in
  unregistered p st' ∧ untimed p st' ∧ fulfilments p st' = S (fulfilments p st).
Proof.
  revert st. induction l as [|cb l IH]; intros st Hnd Hin Ha; cbn zeta.
  { by apply elem_of_nil in Hin. }
  apply nodup_promises_cons in Hnd as [Hnd Hother].
  rewrite sweep_cons. destruct (decide (cb = onceCallback ev h)) as [->|Hne].
  - destruct (invoke_fire p ev h data st Ha) as (Hu & Ht & Hf).
    pose proof (sweep_shrinks data l (invoke (onceCallback ev h) data st).2) as Hs.
    split; [by eapply shrinks_unregistered|]. split; [by eapply shrinks_untimed|].
    rewrite sweep_quiet; [done|]. intros cb' Hcb'.
    eapply Hother; [|done]. cbn. f_equal. apply Ha.
  - apply elem_of_cons in Hin as [Heq|Hin]; [congruence|].
    assert (promise_of cb ≠ Some p) as Hq.
    { intros Hq. eapply (Hother p); [done|exact Hin|].
      cbn. f_equal. apply Ha. }
    destruct (IH (invoke cb data st).2 Hnd Hin) as (Hu & Ht & Hf).
    { eapply armed_shrinks; [done|apply invoke_shrinks]. }
    split; [done|]. split; [done|]. by rewrite Hf, invoke_quiet.
Qed.

(** ** The invariant of the client *)

Record Inv (st : state) : Prop := {
  inv_keys : keyed st;
  inv_event : ∀ k l ev h,
    eventListeners st !! k = Some l → onceCallback ev h ∈ l →
    ev = k ∧ handler_event h = k;
  inv_nodup : ∀ k l, eventListeners st !! k = Some l → NoDup (omap promise_of l);
  inv_unique : ∀ cb1 cb2 p,
    registered st cb1 → registered st cb2 →
    promise_of cb1 = Some p → promise_of cb2 = Some p → cb1 = cb2;
  inv_fresh : ∀ cb p, registered st cb → promise_of cb = Some p → p < next st;
  inv_timer_fresh : ∀ t tm, timers st !! t = Some tm → rejects tm < next st;
  inv_tie : ∀ ev h t tm,
    registered st (onceCallback ev h) → timers st !! t = Some tm →
    rejects tm = handler_promise h → handler_timer h = Some t
}.

Lemma Inv_armed st k l cb p :
  Inv st → eventListeners st !! k = Some l → cb ∈ l → promise_of cb = Some p →
  ∃ h, cb = onceCallback k h ∧ armed p k h st ∧ NoDup (omap promise_of l).
Proof.
  intros [K E N U F TF T] Hk Hin Hp.
  destruct cb as [ev h|id]; [|done]. cbn in Hp. injection Hp as Hp.
  destruct (E k l ev h Hk Hin) as [-> Hev]. exists h. split; [done|].
  split; [|by eapply N]. split.
  - done.
  - rewrite Hev. apply (elem_of_list_to_set (C:=gset string)).
    unfold keyed in K. rewrite <- K. by eapply elem_of_dom_2.
  - by eexists.
  - intros k' l' Hk' Hin'. by destruct (E k' l' k h Hk' Hin') as [-> _].
  - intros cb Hr Hcb. eapply U; [done| |done|]; [by exists k, l|by cbn; f_equal].
  - intros t tm Ht Hr. eapply T; [by exists k, l|done|congruence].
Qed.

Lemma filter_none {A} (P : A → Prop) `{!∀ x, Decision (P x)} (l : list A) :
  (∀ x, x ∈ l → ¬ P x) → filter P l = [].
Proof.
  induction l as [|x l IH]; intros Hl; [done|].
  rewrite filter_cons_False by (apply Hl; by left).
  apply IH. intros y Hy. apply Hl. by right.
Qed.

Lemma omap_sublist {A B} (f : A → option B) (l1 l2 : list A) :
  l1 `sublist_of` l2 → omap f l1 `sublist_of` omap f l2.
Proof.
  induction 1 as [|x l1 l2 _ IH|x l1 l2 _ IH]; cbn.
  - constructor.
  - destruct (f x); [by constructor|done].
  - destruct (f x); [by constructor|done].
Qed.

Lemma Inv_shrinks st st' : Inv st → shrinks st st' → Inv st'.
Proof.
  intros [K E N U F TF T] Hs. pose proof Hs as (D & L & Tm & Nx). split.
  - unfold keyed in *. congruence.
  - intros k l' ev h Hk Hin. destruct (L k l' Hk) as (l & Hl & Hsub).
    eapply E; [exact Hl|]. by eapply elem_of_sublist.
  - intros k l' Hk. destruct (L k l' Hk) as (l & Hl & Hsub).
    eapply sublist_NoDup; [by eapply N|]. by apply omap_sublist.
  - intros cb1 cb2 p H1 H2. eapply U; by eapply shrinks_registered.
  - intros cb p Hr Hp. rewrite Nx. eapply F; [by eapply shrinks_registered|done].
  - intros t tm Ht. rewrite Nx. eapply TF, Tm, Ht.
  - intros ev h t tm Hr Ht. eapply T; [by eapply shrinks_registered|by apply Tm].
Qed.

(** The fields the invariant reads. *)
Definition same_core (st st' : state) : Prop :=
  eventListeners st' = eventListeners st ∧ timers st' = timers st
  ∧ next st' = next st ∧ settled st' = settled st ∧ invoked st' = invoked st.

Lemma same_core_shrinks st st' : same_core st st' → shrinks st st'.
Proof.
  intros (E & T & N & _). unfold shrinks. rewrite E, T, N.
  repeat split; eauto.
Qed.

(** ** What a call of an operation adds *)

(** A call made in [st] draws the identities [next st], [next st + 1] and
    adds at most: one timer, one member of one listener array, calls of
    [resolve]/[reject] for its own promise. *)
Record adds (st st' : state) : Prop := {
  adds_off : isConnected st = false → isConnected st' = false;
  adds_invoked : invoked st' = invoked st;
  adds_next : (next st ≤ next st')%nat;
  adds_settled : ∃ new, settled st' = (new ++ settled st)%list
                        ∧ ∀ q s, (q, s) ∈ new → q = next st ∧ next st < next st';
  adds_timers :
    timers st' = timers st
    ∨ ∃ tm, timers st' = <[S (next st) := tm]> (timers st)
            ∧ rejects tm = next st ∧ S (next st) < next st';
  adds_listeners :
    eventListeners st' = eventListeners st
    ∨ (∃ ev l id, eventListeners st !! ev = Some l
         ∧ eventListeners st' = <[ev := (l ++ [listener id])%list]> (eventListeners st))
    ∨ (∃ ev l id, eventListeners st !! ev = Some l
         ∧ eventListeners st' =
           <[ev := filter (λ c, c ≠ listener id) l]> (eventListeners st))
    ∨ (∃ ev l h, eventListeners st !! ev = Some l
         ∧ eventListeners st' =
           <[ev := (l ++ [onceCallback ev h])%list]> (eventListeners st)
         ∧ handler_promise h = next st ∧ next st < next st'
         ∧ handler_event h = ev
         ∧ match handler_timer h with
           | Some t => t = S (next st)
           | None => timers st' = timers st
           end)
}.

Lemma adds_core st st' :
  same_core st st' → (isConnected st = false → isConnected st' = false) →
  adds st st'.
Proof.
  intros (E & T & N & S & I) Hoff. split; try done; try lia; try by left.
  exists []. split; [done|]. intros q s Hin. by apply elem_of_nil in Hin.
Qed.

(** The end of an executor: it sends, or calls [reject] for its promise,
    or throws. *)
Definition settles_only (p : nat) (st st' : state) : Prop :=
  isConnected st' = isConnected st
  ∧ eventListeners st' = eventListeners st ∧ timers st' = timers st
  ∧ next st' = next st ∧ invoked st' = invoked st
  ∧ ∃ new, settled st' = (new ++ settled st)%list ∧ ∀ q s, (q, s) ∈ new → q = p.

Lemma settles_only_refl p st : settles_only p st st.
Proof.
  repeat split; try done.
  exists []. split; [done|]. intros q s Hin. by apply elem_of_nil in Hin.
Qed.

Lemma settles_only_trans p st1 st2 st3 :
  settles_only p st1 st2 → settles_only p st2 st3 → settles_only p st1 st3.
Proof.
  intros (C1 & E1 & T1 & N1 & I1 & new1 & S1 & H1)
         (C2 & E2 & T2 & N2 & I2 & new2 & S2 & H2).
  repeat split; try congruence.
  exists (new2 ++ new1)%list. split.
  - by rewrite S2, S1, app_assoc.
  - intros q s [?|?]%elem_of_app; eauto.
Qed.

Lemma settle_settles_only p s st : settles_only p st (settle p s st).2.
Proof.
  repeat split. exists [(p, s)]. split; [done|].
  intros q s' Hin. apply list_elem_of_singleton in Hin. congruence.
Qed.

Lemma sendMessage_settles_only p m st : settles_only p st (_sendMessage m st).2.
Proof.
  unfold _sendMessage.
  destruct (ws st) as [[]|]; cbn; try apply settles_only_refl.
  repeat split. exists []. split; [done|].
  intros q s Hin. by apply elem_of_nil in Hin.
Qed.

(** [new Promise(executor)] step by step. *)
Lemma new_Promise_state executor st :
  let st0 := with_promises (<[next st := Pending]> (promises st))
               (with_next (S (next st)) st) in
  (new_Promise executor st).2 =
  match executor (next st) st0 with
  | (Normal _, st') => st'
  | (Throw e, st') => (reject (next st) e st').2
  end.
Proof.
  unfold new_Promise. mrun.
  by destruct (executor _ _) as [[[]|e] st'].
Qed.

Lemma Promise_settled_adds s st :
  adds st (new_Promise (λ p, settle p s) st).2.
Proof.
  rewrite new_Promise_state. mrun. split; cbn; try done; try lia; try by left.
  exists [(next st, s)]. split; [done|].
  intros q s' Hin. apply list_elem_of_singleton in Hin.
  split; [congruence|lia].
Qed.

Arguments on : simpl never.
Arguments off : simpl never.
Arguments once : simpl never.
Arguments _sendMessage : simpl never.
Arguments _emitEvent : simpl never.

Lemma once_missing ev h st :
  keyed st → ev ∉ event_names → ev ∉ Object_prototype →
  once ev h st = (Normal (), st).
Proof.
  intros Hk H1 H2. unfold once, on, member. rewrite (keyed_none st ev Hk H1).
  by rewrite bool_decide_eq_false_2.
Qed.

Lemma once_own ev h st l :
  eventListeners st !! ev = Some l →
  once ev h st =
  (Normal (),
   with_eventListeners
     (<[ev := (l ++ [onceCallback ev h])%list]> (eventListeners st)) st).
Proof. intros E. unfold once, on. by rewrite (member_own _ _ l E). Qed.

(** The end of [new Promise]: what the executor throws rejects. *)
Lemma executor_end p (m : M unit) st :
  settles_only p st (m st).2 →
  settles_only p st
    (let (c, st') := m st in
     match c with
     | Normal _ => st'
     | Throw e => (reject p e st').2
     end).
Proof.
  intros H. destruct (m st) as [[[]|e] st']; cbn in *; [done|].
  eapply settles_only_trans; [exact H|]. apply settle_settles_only.
Qed.

(** The shape the five file operations share. *)
Definition request (reason : string) (delay : Z) (succ : string)
    (hs : nat → nat → handler) (fb : string) (tail : nat → M unit) : M nat :=
  new_Promise (λ p,
    t ← setTimeout p reason delay;
    once succ (hs p t);;
    once "error" (onError p t fb);;
    tail p).

Lemma request_adds reason delay succ hs fb tail st :
  keyed st → succ ∉ event_names → succ ∉ Object_prototype →
  (∀ p st, settles_only p st (tail p st).2) →
  adds st (request reason delay succ hs fb tail st).2.
Proof.
  intros Hk Hs1 Hs2 Htail.
  destruct (keyed_some st "error" Hk) as [l El]; [by apply (bool_decide_unpack _)|].
  unfold request. rewrite new_Promise_state. cbn zeta.
  unfold setTimeout. mrun.
  rewrite once_missing by done. cbn.
  erewrite once_own by (cbn; exact El). cbn.
  set (st2 := with_eventListeners _ _).
  assert (settles_only (next st) st2
            match tail (next st) st2 with
            | (Normal _, st') => st'
            | (Throw e, st') => (reject (next st) e st').2
            end) as (C & E & T & N & I & new & HS & Hnew).
  { pose proof (Htail (next st) st2) as Ht.
    destruct (tail (next st) st2) as [[[]|e] st'] eqn:Et; cbn in *; [done|].
    eapply settles_only_trans; [exact Ht|]. apply settle_settles_only. }
  destruct (tail (next st) st2) as [c st3] eqn:Et. cbn.
  set (final := match c with Normal _ => st3 | Throw e => _ end) in *.
  split.
  - by rewrite C.
  - by rewrite I.
  - rewrite N. cbn. lia.
  - exists new. split; [by rewrite HS|]. intros q s Hin. rewrite N. cbn.
    split; [by eapply Hnew|lia].
  - right. eexists. split; [by rewrite T|]. rewrite N. cbn. split; [done|lia].
  - right. right. right. exists "error", l, (onError (next st) (S (next st)) fb).
    rewrite E, N. cbn. repeat split; try done. lia.
Qed.

Lemma adds_core_l st st0 st' :
  same_core st st0 → isConnected st0 = isConnected st →
  adds st0 st' → adds st st'.
Proof.
  intros (E & T & N & S & I) C [A0 A1 A2 A3 A4 A5].
  rewrite ?E, ?T, ?N, ?S, ?I, ?C in *. by split.
Qed.

Lemma not_event ev : bool_decide (ev ∉ event_names) = true → ev ∉ event_names.
Proof. apply bool_decide_eq_true_1. Qed.

Lemma not_inherited ev :
  bool_decide (ev ∉ Object_prototype) = true → ev ∉ Object_prototype.
Proof. apply bool_decide_eq_true_1. Qed.

Lemma Promise_reject_adds e st : adds st (Promise_reject e st).2.
Proof. apply (Promise_settled_adds (Rejected e)). Qed.

Lemma Promise_resolve_adds v st : adds st (Promise_resolve v st).2.
Proof. apply (Promise_settled_adds (Resolved v)). Qed.

Local Ltac request_op :=
  match goal with
  | |- adds ?st _ =>
      destruct (isConnected st) eqn:?; cbn [negb];
      [ eapply request_adds;
        [ done | by apply not_event | by apply not_inherited | ]
      | apply Promise_reject_adds ]
  end.

Lemma listFiles_adds path st : keyed st → adds st (listFiles path st).2.
Proof.
  intros Hk. unfold listFiles. request_op.
  intros p st'. apply sendMessage_settles_only.
Qed.

Lemma downloadFile_adds remotePath st : keyed st → adds st (downloadFile remotePath st).2.
Proof.
  intros Hk. unfold downloadFile. request_op.
  intros p st'. apply sendMessage_settles_only.
Qed.

Lemma uploadFile_adds remotePath content max_arguments st :
  keyed st → adds st (uploadFile remotePath content max_arguments st).2.
Proof.
  intros Hk. unfold uploadFile. request_op.
  intros p st'. destruct (Codec.upload_encode max_arguments content).
  - apply sendMessage_settles_only.
  - apply settle_settles_only.
  - apply settles_only_refl.
  - apply settles_only_refl.
Qed.

Lemma deleteFile_adds path isDirectory st :
  keyed st → adds st (deleteFile path isDirectory st).2.
Proof.
  intros Hk. unfold deleteFile. request_op.
  intros p st'. apply sendMessage_settles_only.
Qed.

Lemma createDirectory_adds path st : keyed st → adds st (createDirectory path st).2.
Proof.
  intros Hk. unfold createDirectory. request_op.
  intros p st'. apply sendMessage_settles_only.
Qed.

(** [disconnect] registers its one handler under a key of the table. *)
Lemma disconnect_adds st : keyed st → adds st (disconnect st).2.
Proof.
  intros Hk. unfold disconnect.
  destruct (isConnected st); cbn [negb]; [|apply Promise_resolve_adds].
  destruct (keyed_some st "disconnect" Hk) as [l El]; [by apply (bool_decide_unpack _)|].
  rewrite new_Promise_state. cbn zeta. mrun.
  erewrite once_own by (cbn; exact El). cbn.
  set (st2 := with_eventListeners _ _).
  match goal with |- adds _ ?f => set (final := f) end.
  assert (settles_only (next st) st2 final) as (C & E & T & N & I & new & HS & Hnew).
  { apply executor_end, sendMessage_settles_only. }
  split.
  - by rewrite C.
  - by rewrite I.
  - rewrite N. cbn. lia.
  - exists new. split; [by rewrite HS|]. intros q s Hin. rewrite N. cbn.
    split; [by eapply Hnew|lia].
  - left. by rewrite T.
  - right. right. right. exists "disconnect", l, (onDisconnected (next st)).
    rewrite E, N, T. cbn. repeat split; try done. lia.
Qed.

(** [connect] on a socket that is open: its two handlers are registered
    under names that are no keys, only the timer stays. *)
Lemma connect_request_adds c st :
  keyed st →
  adds st
    (new_Promise (λ p,
       t ← setTimeout p "Connection timed out" 15000;
       once "connect_success" (onConnectSuccess p t);;
       once "connect_error" (onConnectError p t);;
       _sendMessage (connect_command c)) st).2.
Proof.
  intros Hk. rewrite new_Promise_state. cbn zeta. unfold setTimeout. mrun.
  rewrite once_missing; [|done|by apply not_event|by apply not_inherited]. cbn.
  rewrite once_missing; [|done|by apply not_event|by apply not_inherited]. cbn.
  set (st2 := with_timers _ _).
  match goal with |- adds _ ?f => set (final := f) end.
  assert (settles_only (next st) st2 final) as (C & E & T & N & I & new & HS & Hnew).
  { apply executor_end, sendMessage_settles_only. }
  split.
  - by rewrite C.
  - by rewrite I.
  - rewrite N. cbn. lia.
  - exists new. split; [by rewrite HS|]. intros q s Hin. rewrite N. cbn.
    split; [by eapply Hnew|lia].
  - right. eexists. split; [by rewrite T|]. rewrite N. cbn. split; [done|lia].
  - left. by rewrite E.
Qed.

(** ** The steps of the event loop *)

(** What a step does before the operation it may call: nothing, or the
    calls of the listeners of one event, or the rejection by one timer. *)
Inductive pre (st st1 : state) : Prop :=
| pre_core :
    same_core st st1 → (isConnected st = false → isConnected st1 = false) →
    pre st st1
| pre_emit st0 ev data l :
    same_core st st0 → (isConnected st = false → isConnected st0 = false) →
    eventListeners st0 !! ev = Some l →
    st1 = sweep data l st0 → pre st st1
| pre_fire t tm :
    timers st !! t = Some tm →
    isConnected st1 = isConnected st →
    eventListeners st1 = eventListeners st →
    timers st1 = delete t (timers st) →
    next st1 = next st → invoked st1 = invoked st →
    settled st1 = (rejects tm, Rejected (reason tm)) :: settled st →
    pre st st1.

Lemma same_core_refl st : same_core st st.
Proof. by repeat split. Qed.

Lemma emit_pre ev data st0 st :
  same_core st st0 → (isConnected st = false → isConnected st0 = false) →
  pre st (_emitEvent ev data st0).2.
Proof.
  intros Hc Hoff. rewrite emit_state.
  destruct (eventListeners st0 !! ev) as [l|] eqn:E.
  - by eapply pre_emit.
  - by apply pre_core.
Qed.

Lemma pre_refl st : pre st st.
Proof. by apply pre_core; [apply same_core_refl|]. Qed.

Lemma new_Promise_normal executor st :
  (new_Promise executor st).1 = Normal (next st).
Proof.
  unfold new_Promise. mrun.
  by destruct (executor _ _) as [[[]|e] st'].
Qed.

Lemma connect_split c opens st :
  keyed st → ∃ st1, pre st st1 ∧ adds st1 (connect c opens st).2.
Proof.
  intros Hk. unfold connect, connectToWebsocket. mrun.
  destruct (socket_open st) eqn:Eo; [|destruct opens]; cbn.
  - exists st. split; [apply pre_refl|].
    pose proof (connect_request_adds c st Hk) as Ha.
    pose proof (new_Promise_normal
      (λ p, t ← setTimeout p "Connection timed out" 15000;
            once "connect_success" (onConnectSuccess p t);;
            once "connect_error" (onConnectError p t);;
            _sendMessage (connect_command c)) st) as Hn.
    by destruct (new_Promise _ st) as [[n|e] st'].
  - exists st. split; [apply pre_refl|].
    pose proof (connect_request_adds c (with_ws (Some OPEN) st) Hk) as Ha.
    pose proof (new_Promise_normal
      (λ p, t ← setTimeout p "Connection timed out" 15000;
            once "connect_success" (onConnectSuccess p t);;
            once "connect_error" (onConnectError p t);;
            _sendMessage (connect_command c)) (with_ws (Some OPEN) st)) as Hn.
    destruct (new_Promise _ (with_ws (Some OPEN) st)) as [[n|e] st']; [|done].
    eapply adds_core_l; [| |exact Ha]; by repeat split.
  - set (data := Response.with_error _ _).
    exists (_emitEvent "error" data (with_ws (Some CLOSED) st)).2.
    split; [apply emit_pre; by repeat split|].
    destruct (_emitEvent "error" data _) as [[[]|e] st1]; cbn;
      apply Promise_reject_adds.
Qed.


Lemma bind_ret_state {A} (m : M A) st : ((m;; mret ()) st).2 = (m st).2.
Proof. mrun. by destruct (m st) as [[a|e] st']. Qed.

Lemma adds_refl st : adds st st.
Proof. by apply adds_core; [apply same_core_refl|]. Qed.

Lemma perform_split c st :
  keyed st → ∃ st1, pre st st1 ∧ adds st1 (perform c st).2.
Proof.
  intros Hk.
  destruct c as [conn opens|path|remotePath|remotePath content max_arguments|path isDirectory
                |path| | |ev id|ev id]; cbn [perform];
    rewrite ?bind_ret_state; [by apply connect_split|..];
    (exists st; split; [apply pre_refl|]).
  - by apply listFiles_adds.
  - by apply downloadFile_adds.
  - by apply uploadFile_adds.
  - by apply deleteFile_adds.
  - by apply createDirectory_adds.
  - by apply disconnect_adds.
  - unfold close. mrun. by apply adds_core; destruct (socket_open st).
  - rewrite on_state. destruct (eventListeners st !! ev) as [l|] eqn:E;
      [|apply adds_refl].
    split; cbn; try done; try by left.
    + exists []. split; [done|]. intros q s Hin. by apply elem_of_nil in Hin.
    + right. left. by exists ev, l, id.
  - rewrite off_state. destruct (eventListeners st !! ev) as [l|] eqn:E;
      [|apply adds_refl].
    split; cbn; try done; try by left.
    + exists []. split; [done|]. intros q s Hin. by apply elem_of_nil in Hin.
    + right. right. left. by exists ev, l, id.
Qed.

Lemma step_split i st :
  keyed st → ∃ st1, pre st st1 ∧ adds st1 (step i st).
Proof.
  intros Hk. destruct i as [c|data|t| |]; cbn [step].
  - by apply perform_split.
  - eexists. split; [|apply adds_refl].
    unfold _handleMessage, try_catch. cbn [snd].
    destruct data as [| | |message]; cbn;
      try apply pre_refl; [|destruct (Json.property_key _); [|apply pre_refl]];
      by apply emit_pre; [apply same_core_refl|].
  - eexists. split; [|apply adds_refl]. unfold fire.
    destruct (timers st !! t) as [tm|] eqn:E; [|apply pre_refl].
    by eapply (pre_fire _ _ t tm).
  - eexists. split; [|apply adds_refl]. unfold onclose. mrun.
    by apply emit_pre.
  - eexists. split; [|apply adds_refl]. unfold onclose. mrun.
    by apply emit_pre.
Qed.

(** *** What the additions of a call look like from the table *)

(** The one-shot handler a call has put in the table. *)
Definition new_once (st st' : state) (cb : callback) : Prop :=
  ∃ ev l h, cb = onceCallback ev h
    ∧ eventListeners st !! ev = Some l
    ∧ eventListeners st' = <[ev := (l ++ [cb])%list]> (eventListeners st)
    ∧ handler_promise h = next st ∧ next st < next st'
    ∧ handler_event h = ev
    ∧ match handler_timer h with
      | Some t => t = S (next st)
      | None => timers st' = timers st
      end.

Lemma new_once_unique st st' cb1 cb2 :
  new_once st st' cb1 → new_once st st' cb2 → cb1 = cb2.
Proof.
  intros (ev1 & l1 & h1 & _ & El1 & E1 & _) (ev2 & l2 & h2 & _ & El2 & E2 & _).
  assert (eventListeners st' !! ev1 = Some (l1 ++ [cb1])%list) as H1.
  { rewrite E1. apply lookup_insert_eq. }
  rewrite E2 in H1. apply lookup_insert_Some in H1 as [[<- H1]|[_ H1]].
  - assert (l2 = l1) as -> by congruence. by apply app_inv_head in H1 as [= ->].
  - rewrite El1 in H1. injection H1 as H1.
    apply (f_equal length) in H1. rewrite length_app in H1. cbn in H1. lia.
Qed.

Lemma new_once_promise st st' cb p :
  new_once st st' cb → promise_of cb = Some p → p = next st.
Proof. intros (ev & l & h & -> & _ & _ & Hp & _) [= <-]. done. Qed.

Lemma adds_list st st' k l' :
  adds st st' → eventListeners st' !! k = Some l' →
  ∃ l, eventListeners st !! k = Some l
       ∧ (l' `sublist_of` l
          ∨ (∃ id, l' = (l ++ [listener id])%list)
          ∨ (∃ h, l' = (l ++ [onceCallback k h])%list
                  ∧ new_once st st' (onceCallback k h))).
Proof.
  intros [_ _ _ _ _ HL] Hk.
  destruct HL as [E|[(ev & l & id & El & E)|[(ev & l & id & El & E)
                 |(ev & l & h & El & E & Hp & Hn & He & Ht)]]];
    rewrite E in Hk.
  - exists l'. split; [done|]. by left.
  - apply lookup_insert_Some in Hk as [[<- <-]|[Hne Hk]].
    + exists l. split; [done|]. right. left. by exists id.
    + exists l'. split; [done|]. by left.
  - apply lookup_insert_Some in Hk as [[<- <-]|[Hne Hk]].
    + exists l. split; [done|]. left. apply sublist_filter.
    + exists l'. split; [done|]. by left.
  - apply lookup_insert_Some in Hk as [[<- <-]|[Hne Hk]].
    + exists l. split; [done|]. right. right. exists h. split; [done|].
      by exists ev, l, h.
    + exists l'. split; [done|]. by left.
Qed.

Lemma adds_registered st st' cb :
  adds st st' → registered st' cb →
  registered st cb ∨ (∃ id, cb = listener id) ∨ new_once st st' cb.
Proof.
  intros Ha (k & l' & Hk & Hin).
  destruct (adds_list st st' k l' Ha Hk) as (l & Hl & [Hsub|[[id ->]|(h & -> & Hnew)]]).
  - left. exists k, l. split; [done|]. by eapply elem_of_sublist.
  - apply elem_of_app in Hin as [Hin|Hin%list_elem_of_singleton].
    + left. by exists k, l.
    + right. left. by exists id.
  - apply elem_of_app in Hin as [Hin|Hin%list_elem_of_singleton].
    + left. by exists k, l.
    + right. right. by subst.
Qed.

Lemma adds_timer st st' t tm :
  adds st st' → timers st' !! t = Some tm →
  timers st !! t = Some tm
  ∨ (t = S (next st) ∧ rejects tm = next st ∧ S (next st) < next st').
Proof.
  intros [_ _ _ _ HT _] Ht. destruct HT as [E|(tm' & E & Hr & Hn)]; rewrite E in Ht.
  - by left.
  - apply lookup_insert_Some in Ht as [[<- <-]|[Hne Ht]]; [|by left].
    right. by repeat split.
Qed.

Lemma adds_dom st st' :
  adds st st' → dom (eventListeners st') = dom (eventListeners st).
Proof.
  intros [_ _ _ _ _ HL].
  destruct HL as [E|[(ev & l & id & El & E)|[(ev & l & id & El & E)
                 |(ev & l & h & El & E & _)]]]; rewrite E; [done|..];
    by apply dom_insert_lookup_L.
Qed.

Lemma Inv_adds st st' : Inv st → adds st st' → Inv st'.
Proof.
  intros [K E N U F TF T] Ha. pose proof (adds_next _ _ Ha) as Hnext. split.
  - unfold keyed in *. by rewrite (adds_dom st st' Ha).
  - intros k l' ev h Hk Hin.
    destruct (adds_list st st' k l' Ha Hk) as (l & Hl & [Hsub|[[id ->]|(h' & -> & Hnew)]]).
    + eapply E; [exact Hl|]. by eapply elem_of_sublist.
    + apply elem_of_app in Hin as [Hin|Hin%list_elem_of_singleton]; [|done].
      by eapply E.
    + apply elem_of_app in Hin as [Hin|Hin%list_elem_of_singleton].
      * by eapply E.
      * injection Hin as -> ->.
        destruct Hnew as (ev' & l0 & h'' & [= <- <-] & _ & _ & _ & _ & He & _). done.
  - intros k l' Hk.
    destruct (adds_list st st' k l' Ha Hk) as (l & Hl & [Hsub|[[id ->]|(h' & -> & Hnew)]]).
    + eapply sublist_NoDup; [by eapply N|]. by apply omap_sublist.
    + rewrite omap_app. cbn. rewrite app_nil_r. by eapply N.
    + rewrite omap_app. cbn. apply NoDup_app. split; [by eapply N|]. split.
      * intros q (cb & Hcb & Hq)%list_elem_of_omap Hq'%list_elem_of_singleton.
        subst q. pose proof (F cb _ ltac:(by exists k, l) Hq) as Hlt.
        rewrite (new_once_promise st st' _ _ Hnew eq_refl) in Hlt. lia.
      * apply NoDup_singleton.
  - intros cb1 cb2 p H1 H2 Hp1 Hp2.
    destruct (adds_registered st st' cb1 Ha H1) as [R1|[[id ->]|N1]]; [| done |];
    destruct (adds_registered st st' cb2 Ha H2) as [R2|[[id ->]|N2]]; try done.
    + by eapply U.
    + pose proof (F cb1 p R1 Hp1). pose proof (new_once_promise _ _ _ _ N2 Hp2). lia.
    + pose proof (F cb2 p R2 Hp2). pose proof (new_once_promise _ _ _ _ N1 Hp1). lia.
    + by eapply new_once_unique.
  - intros cb p Hr Hp.
    destruct (adds_registered st st' cb Ha Hr) as [R|[[id ->]|Nw]]; [|done|].
    + pose proof (F cb p R Hp). lia.
    + rewrite (new_once_promise _ _ _ _ Nw Hp). by destruct Nw as (?&?&?&?&?&?&?&?&?).
  - intros t tm Ht.
    destruct (adds_timer st st' t tm Ha Ht) as [Ho|(-> & Hr & Hn)].
    + pose proof (TF t tm Ho). lia.
    + lia.
  - intros ev h t tm Hr Ht Hrej.
    destruct (adds_registered st st' _ Ha Hr) as [R|[[id [=]]|Nw]];
    destruct (adds_timer st st' t tm Ha Ht) as [Ho|(-> & Hr' & Hn)].
    + by eapply T.
    + pose proof (F _ _ R eq_refl) as Hlt. cbn in Hlt. lia.
    + pose proof (TF t tm Ho) as Hlt.
      pose proof (new_once_promise _ _ _ _ Nw eq_refl). lia.
    + destruct Nw as (ev' & l0 & h' & [= <- <-] & _ & _ & _ & _ & _ & Htm).
      destruct (handler_timer h) as [t0|]; [by subst|].
      rewrite Htm in Ht. pose proof (TF _ tm Ht). lia.
Qed.

Lemma Inv_pre st st1 : Inv st → pre st st1 → Inv st1.
Proof.
  intros HI [Hc _|st0 ev data l Hc _ El ->|t tm Ht _ E Tm Nx _ _].
  - eapply Inv_shrinks; [done|]. by apply same_core_shrinks.
  - eapply Inv_shrinks; [done|]. eapply shrinks_trans; [by apply same_core_shrinks|].
    apply sweep_shrinks.
  - eapply Inv_shrinks; [done|]. unfold shrinks. rewrite E, Tm, Nx.
    repeat split; eauto. by intros t' tm' [_ ?]%lookup_delete_Some.
Qed.

(** The invariant holds of the constructor's client and after every step. *)
Lemma Inv_constructor : Inv constructor.
Proof.
  assert (∀ k l, eventListeners constructor !! k = Some l → l = []) as Hnil.
  { intros k l Hk. unfold constructor in Hk. cbn [eventListeners] in Hk.
    apply elem_of_list_to_map_2, list_elem_of_fmap in Hk as (k' & [= _ ->] & _).
    done. }
  split.
  - apply constructor_keyed.
  - intros k l ev h Hk Hin. rewrite (Hnil k l Hk) in Hin. by apply elem_of_nil in Hin.
  - intros k l Hk. rewrite (Hnil k l Hk). constructor.
  - intros cb1 cb2 p (k & l & Hk & Hin). rewrite (Hnil k l Hk) in Hin.
    by apply elem_of_nil in Hin.
  - intros cb p (k & l & Hk & Hin). rewrite (Hnil k l Hk) in Hin.
    by apply elem_of_nil in Hin.
  - intros t tm Ht. done.
  - intros ev h t tm _ Ht. done.
Qed.

Lemma Inv_step i st : Inv st → Inv (step i st).
Proof.
  intros HI. destruct (step_split i st (inv_keys _ HI)) as (st1 & Hp & Ha).
  eapply Inv_adds; [|exact Ha]. by eapply Inv_pre.
Qed.

Lemma Inv_run inputs st : Inv st → Inv (run inputs st).
Proof.
  revert st. induction inputs as [|i inputs IH]; intros st HI; [done|].
  apply IH. by apply Inv_step.
Qed.


(** ** A fulfilled request stays fulfilled once *)

(** The promise [p] has left the client: no handler in the table, no timer,
    and its identity is not drawn again. *)
Definition retired (p : nat) (st : state) : Prop :=
  keyed st ∧ unregistered p st ∧ untimed p st ∧ p < next st.

Lemma same_core_fulfilments p st st' :
  same_core st st' → fulfilments p st' = fulfilments p st.
Proof. intros (_ & _ & _ & S & _). unfold fulfilments. by rewrite S. Qed.

Lemma pre_keyed st st1 : keyed st → pre st st1 → keyed st1.
Proof.
  unfold keyed. intros Hk [(E & _) _|st0 ev data l (E & _) _ El ->|t tm _ _ E _ _ _ _].
  - by rewrite E.
  - by rewrite sweep_dom, E.
  - by rewrite E.
Qed.

Lemma pre_quiet p st st1 :
  unregistered p st → untimed p st → pre st st1 →
  unregistered p st1 ∧ untimed p st1 ∧ next st1 = next st
  ∧ fulfilments p st1 = fulfilments p st.
Proof.
  intros Hu Ht [Hc _|st0 ev data l Hc _ El ->|t tm Htm _ E Tm Nx _ S].
  - pose proof (same_core_shrinks _ _ Hc) as Hs.
    split; [by eapply shrinks_unregistered|]. split; [by eapply shrinks_untimed|].
    split; [apply Hs|by apply same_core_fulfilments].
  - pose proof (same_core_shrinks _ _ Hc) as Hs.
    pose proof (sweep_shrinks data l st0) as Hs'.
    pose proof (shrinks_unregistered p _ _ Hs Hu) as Hu0.
    split; [by eapply shrinks_unregistered|].
    split; [eapply shrinks_untimed; [exact Hs'|]; by eapply shrinks_untimed|].
    split; [destruct Hs as (_&_&_&<-); apply Hs'|].
    rewrite sweep_quiet; [by apply same_core_fulfilments|].
    intros cb Hin. apply Hu0. by exists ev, l.
  - split; [|split; [|split; [done|]]].
    + intros cb (k & l & Hk & Hin). rewrite E in Hk. apply Hu. by exists k, l.
    + intros t' tm'. rewrite Tm. intros [_ ?]%lookup_delete_Some. by eapply Ht.
    + rewrite (fulfilments_cons p _ _ _ _ S).
      rewrite decide_False; [done|]. by eapply Ht.
Qed.

Lemma adds_keyed st st' : keyed st → adds st st' → keyed st'.
Proof. unfold keyed. intros Hk Ha. by rewrite (adds_dom _ _ Ha). Qed.

Lemma adds_quiet p st st' :
  p < next st → unregistered p st → untimed p st → adds st st' →
  unregistered p st' ∧ untimed p st' ∧ p < next st'
  ∧ fulfilments p st' = fulfilments p st.
Proof.
  intros Hp Hu Ht Ha. pose proof (adds_next _ _ Ha) as Hn.
  split; [|split; [|split; [lia|]]].
  - intros cb Hr Hcb.
    destruct (adds_registered st st' cb Ha Hr) as [R|[[id ->]|Nw]]; [|done|].
    + by apply (Hu cb R).
    + pose proof (new_once_promise _ _ _ _ Nw Hcb). lia.
  - intros t tm Htm Hr.
    destruct (adds_timer st st' t tm Ha Htm) as [Ho|(-> & Hr' & _)].
    + by apply (Ht t tm Ho).
    + lia.
  - destruct (adds_settled _ _ Ha) as (new & S & Hnew).
    unfold fulfilments. rewrite S, filter_app, length_app.
    assert (filter (λ c, c.1 = p) new = []) as ->; [|done].
    apply filter_none. intros [q s] Hin Hq. cbn in Hq. subst q.
    destruct (Hnew p s Hin). lia.
Qed.

Lemma step_quiet p i st :
  retired p st → retired p (step i st) ∧ fulfilments p (step i st) = fulfilments p st.
Proof.
  intros (Hk & Hu & Ht & Hp).
  destruct (step_split i st Hk) as (st1 & Hpre & Ha).
  destruct (pre_quiet p st st1 Hu Ht Hpre) as (Hu1 & Ht1 & Hn1 & Hf1).
  destruct (adds_quiet p st1 (step i st) ltac:(lia) Hu1 Ht1 Ha) as (Hu2 & Ht2 & Hn2 & Hf2).
  split; [|congruence]. split; [|done].
  eapply adds_keyed; [|exact Ha]. by eapply pre_keyed.
Qed.

Lemma run_cons i inputs st : run (i :: inputs) st = run inputs (step i st).
Proof. done. Qed.

Lemma run_quiet p inputs st :
  retired p st →
  retired p (run inputs st) ∧ fulfilments p (run inputs st) = fulfilments p st.
Proof.
  revert st. induction inputs as [|i inputs IH]; intros st Hr; [done|].
  rewrite run_cons. destruct (step_quiet p i st Hr) as [Hr' Hf'].
  destruct (IH _ Hr') as [Hr'' Hf'']. split; [done|congruence].
Qed.

(** Were a one-shot handler ever in the table (with the table of the
    constructor that takes a client whose [isConnected] is set, which no
    client reaches: see [never_connected] and [ListenerFacts]): in a client
    the invariant [Inv] holds of, for every promise [p] no [resolve]/[reject]
    was called for yet, if a step calls a one-shot handler of [p], then
    after that step no handler of [p] is in the listener table, no timeout
    of [p] is pending, [resolve]/[reject] was called exactly once for [p],
    and this stays so after any further inputs. Only the handler of the
    [error] kind and that of [disconnect] can be the one called; the wrapper
    of [once] removes itself alone, and no handler of the success kind was
    registered. *)
Lemma one_fulfilment st i p :
  Inv st → fulfilments p st = 0 → fires p st (step i st) →
  unregistered p (step i st) ∧ untimed p (step i st)
  ∧ fulfilments p (step i st) = 1
  ∧ ∀ inputs,
      fulfilments p (run inputs (step i st)) = 1
      ∧ unregistered p (run inputs (step i st))
      ∧ untimed p (run inputs (step i st)).
Proof.
  intros HI H0 (new & cb & Hinv & Hin & Hp).
  destruct (step_split i st (inv_keys _ HI)) as (st1 & Hpre & Ha).
  rewrite (adds_invoked _ _ Ha) in Hinv.
  assert (retired p st1 ∧ fulfilments p st1 = 1) as [(Hk1 & Hu1 & Ht1 & Hn1) Hf1].
  { destruct Hpre as [Hc _|st0 ev data l Hc _ El ->|t tm _ _ _ _ _ I _].
    - destruct Hc as (_ & _ & _ & _ & I). rewrite I in Hinv.
      apply (app_inv_tail _ [] new) in Hinv. subst new. by apply elem_of_nil in Hin.
    - pose proof (same_core_shrinks _ _ Hc) as Hs.
      pose proof (Inv_shrinks _ _ HI Hs) as HI0.
      rewrite sweep_invoked in Hinv. destruct Hc as (_ & _ & _ & S0 & I0).
      rewrite I0 in Hinv. apply app_inv_tail in Hinv. subst new.
      apply list_elem_of_In, in_rev, list_elem_of_In in Hin.
      destruct (Inv_armed st0 ev l cb p HI0 El Hin Hp) as (h & -> & Harm & Hnd).
      destruct (sweep_fire p ev h data l st0 Hnd Hin Harm) as (Hu & Ht & Hf).
      pose proof (sweep_shrinks data l st0) as Hs'.
      split; [split; [|split; [done|split; [done|]]]|].
      + unfold keyed. rewrite sweep_dom. apply HI0.
      + destruct Hs' as (_ & _ & _ & ->).
        eapply (inv_fresh _ HI0); [by exists ev, l|done].
      + rewrite Hf. unfold fulfilments in *. by rewrite S0, H0.
    - rewrite I in Hinv. apply (app_inv_tail _ [] new) in Hinv. subst new.
      by apply elem_of_nil in Hin. }
  destruct (adds_quiet p st1 (step i st) Hn1 Hu1 Ht1 Ha) as (Hu2 & Ht2 & Hn2 & Hf2).
  split; [done|]. split; [done|]. split; [congruence|].
  intros inputs.
  destruct (run_quiet p inputs (step i st)) as [(_ & Hu3 & Ht3 & _) Hf3].
  { split; [|done]. by eapply adds_keyed. }
  split; [congruence|done].
Qed.


Lemma Inv_connected_idle : Inv connected_idle.
Proof.
  eapply Inv_shrinks; [apply Inv_constructor|].
  apply same_core_shrinks. by repeat split.
Qed.

(** A client with a session (were [isConnected] ever set) that has called
    [listFiles()]. *)
Definition listing : state := step (Call (CallListFiles None)) connected_idle.

(** The request of [listing] answered by an [error] frame. *)
Lemma one_fulfilment_witness :
  (Inv listing ∧ fulfilments 0 listing = 0
   ∧ fires 0 listing (step (Frame (Json.Object (error_frame "Permission denied"))) listing))
  ∧ fulfilments 0 (step (Frame (Json.Object (error_frame "Permission denied"))) listing) = 1.
Proof.
  assert (Inv listing ∧ fulfilments 0 listing = 0
          ∧ fires 0 listing
              (step (Frame (Json.Object (error_frame "Permission denied"))) listing))
    as H.
  { split; [apply Inv_step, Inv_connected_idle|]. split; [by vm_compute|].
    exists [onceCallback "error" (onError 0 1 "Failed to list files")],
           (onceCallback "error" (onError 0 1 "Failed to list files")).
    split; [by vm_compute|]. split; [by left|done]. }
  split; [exact H|].
  exact (proj1 (proj2 (proj2
    (one_fulfilment listing
       (Frame (Json.Object (error_frame "Permission denied"))) 0
       (proj1 H) (proj1 (proj2 H)) (proj2 (proj2 H)))))).
Defined.

(** The same request when its timeout elapses first: the handler of the
    error kind stays in the table, and a later [error] frame calls
    [reject] a second time. *)
Example timeout_leaves_handler :
  let st := run [TimerFires 1] listing in
  eventListeners st !! "error"
    = Some [onceCallback "error" (onError 0 1 "Failed to list files")]
  ∧ fulfilments 0 st = 1
  ∧ fulfilments 0 (step (Frame (Json.Object (error_frame "late"))) st) = 2.
Proof. by vm_compute. Qed.

(** ** [connect] *)

Definition connect_timer (p : nat) : timer :=
  {| rejects := p; reason := "Connection timed out"; delay := 15000 |}.

(** [connect] on an open socket: the command is sent, the timer is set, and
    neither [connect_success] nor [connect_error] gets a handler. *)
Lemma connect_open c opens st :
  keyed st → socket_open st = true →
  connect c opens st =
  (Normal (next st),
   with_sent (connect_command c :: sent st)
     (with_timers (<[S (next st) := connect_timer (next st)]> (timers st))
        (with_next (S (S (next st)))
           (with_promises (<[next st := Pending]> (promises st))
              (with_next (S (next st)) st))))).
Proof.
  intros Hk Ho. unfold connect, new_Promise, setTimeout. mrun. rewrite Ho. cbn.
  rewrite once_missing; [|done|by apply not_event|by apply not_inherited]. cbn.
  rewrite once_missing; [|done|by apply not_event|by apply not_inherited]. cbn.
  unfold _sendMessage. cbn. unfold socket_open in Ho.
  by destruct (ws st) as [[]|].
Qed.

(** A frame whose kind is no key of the table, or converts to no key at
    all, changes nothing. *)
Lemma frame_dropped message st :
  keyed st →
  (∀ event, Json.property_key (Response.type message) = Some event →
            event ∉ event_names) →
  step (Frame (Json.Object message)) st = st.
Proof.
  intros Hk Hev. cbn. unfold try_catch. cbn.
  destruct (Json.property_key (Response.type message)) as [event|]; [|done].
  by rewrite emit_state, (keyed_none st _ Hk (Hev event eq_refl)).
Qed.

Lemma listFiles_not_connected path st :
  isConnected st = false →
  listFiles path st =
  (Normal (next st),
   with_settled ((next st, Rejected not_connected) :: settled st)
     (with_promises (<[next st := Settled (Rejected not_connected)]> (promises st))
        (with_next (S (next st)) st))).
Proof.
  intros Hc. unfold listFiles, Promise_reject, new_Promise. rewrite Hc. mrun.
  rewrite lookup_insert_eq. by rewrite insert_insert_eq.
Qed.

(** A timeout that elapses. *)
Lemma fire_state t tm st :
  timers st !! t = Some tm →
  step (TimerFires t) st =
  with_settled ((rejects tm, Rejected (reason tm)) :: settled st)
    (with_promises
       (match promises st !! rejects tm with
        | Some Pending => <[rejects tm := Settled (Rejected (reason tm))]> (promises st)
        | _ => promises st
        end)
       (with_timers (delete t (timers st)) st)).
Proof. intros E. cbn. unfold fire. rewrite E. by mrun. Qed.

(** ** [disconnect] *)

Lemma sweep_app data l1 l2 st :
  sweep data (l1 ++ l2) st = sweep data l2 (sweep data l1 st).
Proof.
  revert st. induction l1 as [|cb l1 IH]; intros st; [done|].
  cbn [app]. by rewrite !sweep_cons, IH.
Qed.

Lemma sweep_next data l st : next (sweep data l st) = next st.
Proof. apply sweep_shrinks. Qed.

Lemma disconnect_idle st :
  isConnected st = false →
  disconnect st =
  (Normal (next st),
   with_settled ((next st, Resolved Undefined) :: settled st)
     (with_promises (<[next st := Settled (Resolved Undefined)]> (promises st))
        (with_next (S (next st)) st))).
Proof.
  intros Hc. unfold disconnect, Promise_resolve, new_Promise. rewrite Hc. mrun.
  rewrite lookup_insert_eq. by rewrite insert_insert_eq.
Qed.

(** [disconnect] never throws: it returns a promise. *)
Lemma disconnect_returns st : (disconnect st).1 = Normal (next st).
Proof.
  unfold disconnect. destruct (negb (isConnected st)); apply new_Promise_normal.
Qed.

(** With a session, [disconnect] leaves its handler last in the array of
    [disconnect]. *)
Lemma disconnect_registers st :
  keyed st → isConnected st = true →
  ∃ l, eventListeners st !! "disconnect" = Some l
       ∧ eventListeners (disconnect st).2 !! "disconnect"
         = Some (l ++ [onceCallback "disconnect" (onDisconnected (next st))])%list.
Proof.
  intros Hk Hc. destruct (keyed_some st "disconnect" Hk) as [l El];
    [by apply (bool_decide_unpack _)|].
  exists l. split; [done|]. unfold disconnect. rewrite Hc. cbn [negb].
  rewrite new_Promise_state. cbn zeta. mrun.
  erewrite once_own by (cbn; exact El). cbn.
  set (st2 := with_eventListeners _ _).
  match goal with |- eventListeners ?f !! _ = _ => set (final := f) end.
  assert (settles_only (next st) st2 final) as (_ & E & _).
  { apply executor_end, sendMessage_settles_only. }
  rewrite E. unfold st2. cbn. apply lookup_insert_eq.
Qed.

(** The notification of the server then runs that handler. *)
Lemma disconnect_notified message st :
  keyed st → isConnected st = true →
  Response.type message = Json.Kind "disconnect" →
  let st' := step (Frame (Json.Object message)) (disconnect st).2 in
  isConnected st' = false ∧ connectionId st' = None
  ∧ ∃ rest, settled st' = (next st, Resolved Undefined) :: rest.
Proof.
  intros Hk Hc Ht. destruct (disconnect_registers st Hk Hc) as (l & El & El').
  cbn. unfold try_catch. cbn [snd]. rewrite Ht. cbn [Json.property_key].
  rewrite emit_state, El', sweep_app, sweep_cons, sweep_nil.
  set (st1 := sweep message l (disconnect st).2).
  assert (is_Some (eventListeners st1 !! "disconnect")) as [l1 El1].
  { apply elem_of_dom. unfold st1. rewrite sweep_dom. by eapply elem_of_dom_2. }
  rewrite (invoke_once _ _ _ _ l1 El1). mrun. eauto.
Qed.


(** ** [isConnected] is never set *)

Lemma off_isConnected ev cb st : isConnected (off ev cb st).2 = isConnected st.
Proof. rewrite off_state. by destruct (eventListeners st !! ev). Qed.

Lemma invoke_stays_off cb data st :
  (∀ ev h, cb = onceCallback ev h → handler_event h ∈ event_names) →
  isConnected st = false → isConnected (invoke cb data st).2 = false.
Proof.
  intros Hcb Hoff. unfold invoke. destruct cb as [ev h|id]; mrun; [|done].
  pose proof (off_isConnected ev (onceCallback ev h)
                (with_invoked (onceCallback ev h :: invoked st) st)) as Ho.
  destruct (off ev _ _) as [[[]|e] st1]; cbn in *; [|congruence].
  destruct (handler_event_key h (Hcb ev h eq_refl)) as [(p & t & fb & ->)|(p & ->)];
    cbn [run_handler]; mrun; congruence.
Qed.

Lemma sweep_stays_off data l st :
  (∀ ev h, onceCallback ev h ∈ l → handler_event h ∈ event_names) →
  isConnected st = false → isConnected (sweep data l st) = false.
Proof.
  revert st. induction l as [|cb l IH]; intros st Hl Hoff; [done|].
  rewrite sweep_cons. apply IH.
  - intros ev h Hin. apply (Hl ev h). by right.
  - apply invoke_stays_off; [|done]. intros ev h ->. apply (Hl ev h). by left.
Qed.

Lemma step_stays_off i st :
  Inv st → isConnected st = false → isConnected (step i st) = false.
Proof.
  intros HI Hoff. destruct (step_split i st (inv_keys _ HI)) as (st1 & Hpre & Ha).
  apply (adds_off _ _ Ha).
  destruct Hpre as [_ H|st0 ev data l Hc H El ->|t tm _ H _ _ _ _ _].
  - by apply H.
  - apply sweep_stays_off; [|by apply H].
    pose proof (Inv_shrinks _ _ HI (same_core_shrinks _ _ Hc)) as HI0.
    intros ev' h Hin. destruct (inv_event _ HI0 ev l ev' h El Hin) as [-> ->].
    apply (elem_of_list_to_set (C:=gset string)).
    rewrite <- (inv_keys _ HI0). by eapply elem_of_dom_2.
  - congruence.
Qed.

(** Whatever the application calls and whatever arrives, the client that
    the module exports never takes itself for connected. *)
Lemma never_connected inputs : isConnected (run inputs constructor) = false.
Proof.
  assert (∀ st, Inv st → isConnected st = false →
                isConnected (run inputs st) = false) as H.
  { induction inputs as [|i inputs IH]; intros st HI Hoff; [done|].
    rewrite run_cons. apply IH; [by apply Inv_step|by apply step_stays_off]. }
  apply H; [apply Inv_constructor|done].
Qed.

End ClientFacts.

(* ===================================================================== *)
Module ServerFacts.
Import Server.

(** ** The [switch] *)

Definition recognized : list string := labels.*1.

Lemma select_spec type l :
  select type = l →
  (∃ kind, type = Json.Kind kind ∧ (kind, l) ∈ labels)
  ∨ (l = default_ ∧ ∀ kind, kind ∈ recognized → type ≠ Json.Kind kind).
Proof.
  destruct type as [|kind|key|]; cbn; intros <-;
    [right; split; [done|intros ? ? [=]]| |right; split; [done|intros ? ? [=]]..].
  unfold labels. cbn.
  repeat (case_decide;
          [left; exists kind; split; [done|]; simplify_eq/=;
           repeat (first [by left|right])|]).
  cbn. right. split; [done|]. intros k Hin [= <-]. cbn in *.
  repeat (apply elem_of_cons in Hin as [->|Hin]; [done|]).
  by apply elem_of_nil in Hin.
Qed.

Lemma select_default type :
  (∀ kind, kind ∈ recognized → type ≠ Json.Kind kind) → select type = default_.
Proof.
  intros Hno. destruct (select_spec type _ eq_refl) as [(kind & -> & Hin)|[H _]];
    [|done].
  exfalso. apply (Hno kind); [|done].
  apply list_elem_of_fmap. by exists (kind, select (Json.Kind kind)).
Qed.

(** A channel the bridge has accepted, in a running process. *)
Definition open_channel (c : string) (st : state) : Prop :=
  crashed st = false ∧ is_Some (sftpClient st !! c).

Lemma open_channel_enabled c st i :
  open_channel c st → channel_of i = c → (∀ c', i ≠ Connection c') →
  enabled i st = true.
Proof.
  intros [Hc Hs] <- Hi. unfold enabled. rewrite Hc. cbn.
  destruct i; try by apply bool_decide_eq_true_2. by destruct (Hi connectionId).
Qed.

Lemma labels_inv kind l :
  (kind, l) ∈ labels →
  l ≠ default_ ∧ (l = connect → kind = "connect")
  ∧ (l = disconnect → kind = "disconnect").
Proof.
  unfold labels. intros Hin.
  repeat (apply elem_of_cons in Hin as [[= -> ->]|Hin]; [by repeat split|]).
  by apply elem_of_nil in Hin.
Qed.

Lemma select_connect type : select type = connect → type = Json.Kind "connect".
Proof.
  intros H. destruct (select_spec type _ H) as [(kind & -> & Hin)|[? _]]; [|done].
  f_equal. by apply (labels_inv kind connect Hin).
Qed.

Lemma select_disconnect type :
  select type = disconnect → type = Json.Kind "disconnect".
Proof.
  intros H. destruct (select_spec type _ H) as [(kind & -> & Hin)|[? _]]; [|done].
  f_equal. by apply (labels_inv kind disconnect Hin).
Qed.

(** ** The message handler *)

(** The [catch] leaves nothing to propagate. *)
Lemma on_message_catches c m st : thrown (on_message c m st) = None.
Proof.
  unfold on_message.
  destruct (thrown (try_body c m st)) eqn:E; [done|exact E].
Qed.

Lemma step_message c m st :
  open_channel c st →
  step (Message c m) st = (after (on_message c m st), effects (on_message c m st)).
Proof.
  intros Ho. unfold step. rewrite (open_channel_enabled c st) by done.
  cbn [handle]. by rewrite on_message_catches.
Qed.

Lemma step_hook i st r :
  open_channel (channel_of i) st → (∀ c', i ≠ Connection c') →
  handle i st = r → thrown r = None →
  step i st = (after r, effects r).
Proof.
  intros Ho Hi <- Ht. unfold step.
  rewrite (open_channel_enabled (channel_of i) st) by done. by rewrite Ht.
Qed.

Definition generic_error : string := "Invalid message format or server error".

(** The guard of the five file commands, and the [default] case. *)
Lemma switch_no_session c data st :
  session c st = None →
  select (Command.type data) ≠ connect → select (Command.type data) ≠ disconnect →
  ∃ text, switch c data st = normal st [error_response c text]
          ∧ (text = no_connection ∨ text = "Unknown command").
Proof.
  intros Hs Hc Hd. unfold switch. rewrite Hs.
  destruct (select (Command.type data)); try done; eauto.
Qed.

(** C5. On a channel without a registered session (no entry in the
    registry, or an entry whose sftp session is not there yet), every
    command that is neither [connect] nor [disconnect] is answered by one
    [error] response ("No active SFTP connection" for the five file
    commands, "Unknown command" for any other kind; for a [type] that
    cannot be converted to a string, the generic error of the [catch]);
    nothing is called on the remote side, and the registry, the channel's
    ssh client and the rest of the bridge are as before. *)
Theorem no_session_no_remote c data st :
  open_channel c st → session c st = None →
  Command.type data ≠ Json.Kind "connect" →
  Command.type data ≠ Json.Kind "disconnect" →
  ∃ text,
    step (Message c (Json.Object data)) st = (st, [error_response c text])
    ∧ (Command.type data ≠ Json.Unconvertible →
       text = no_connection ∨ text = "Unknown command")
    ∧ (Command.type data = Json.Unconvertible → text = generic_error)
    ∧ (select (Command.type data) ≠ default_ → text = no_connection)
    ∧ Forall (λ e, remote e = false) (step (Message c (Json.Object data)) st).2.
Proof.
  intros Ho Hs Hc Hd. rewrite step_message by done.
  unfold on_message, try_body.
  destruct (Command.type data) as [|kind|key|] eqn:Et; cbn [Json.property_key];
    [| | |exists generic_error; cbn; by repeat split; try done; repeat constructor];
    unfold switch; rewrite Hs, Et;
    destruct (select _) eqn:E; cbn;
    try (by apply select_connect in E); try (by apply select_disconnect in E);
    eexists; (split; [reflexivity|]); (split; [by auto|]); (split; [done|]);
    split; try done; by repeat constructor.
Qed.

(** The channel [c], just accepted. *)
Definition accepted (c : string) : state := (step (Connection c) init).1.

Lemma accepted_open c : open_channel c (accepted c).
Proof.
  split; [done|]. unfold accepted, step, enabled. cbn.
  rewrite bool_decide_eq_true_2 by done. cbn. rewrite lookup_insert_eq. by eexists.
Qed.

(** The instance: [list_files] on a channel that has not connected. *)
Lemma no_session_no_remote_witness :
  (open_channel "ch" (accepted "ch") ∧ session "ch" (accepted "ch") = None)
  ∧ ∃ text,
      step (Message "ch" (Json.Object (Command.tagged (Json.Kind "list_files"))))
        (accepted "ch")
      = (accepted "ch", [error_response "ch" text])
      ∧ (Json.Kind "list_files" ≠ Json.Unconvertible →
         text = no_connection ∨ text = "Unknown command")
      ∧ (Json.Kind "list_files" = Json.Unconvertible → text = generic_error)
      ∧ (select (Json.Kind "list_files") ≠ default_ → text = no_connection)
      ∧ Forall (λ e, remote e = false)
          (step (Message "ch" (Json.Object (Command.tagged (Json.Kind "list_files"))))
             (accepted "ch")).2.
Proof.
  assert (open_channel "ch" (accepted "ch") ∧ session "ch" (accepted "ch") = None) as H.
  { split; [apply accepted_open|reflexivity]. }
  split; [exact H|].
  apply (no_session_no_remote "ch" (Command.tagged (Json.Kind "list_files"))
           (accepted "ch") (proj1 H) (proj2 H)); discriminate.
Defined.

(** C7, as the code has it. A message whose [type] is none of the seven
    recognized kinds (or is no string, or is missing) is answered by one
    [error] response, and the bridge is otherwise unchanged. The [error]
    member of the response is "Unknown command", but for a [type] that
    cannot be converted to a string: the line that logs the type throws
    then, before the [switch], and the response is the generic one of the
    [catch]. *)
Theorem unknown_command c data st :
  open_channel c st →
  (∀ kind, kind ∈ recognized → Command.type data ≠ Json.Kind kind) →
  step (Message c (Json.Object data)) st
  = (st, [error_response c
            match Json.property_key (Command.type data) with
            | Some _ => "Unknown command"
            | None => generic_error
            end]).
Proof.
  intros Ho Hno. rewrite step_message by done.
  unfold on_message, try_body.
  destruct (Json.property_key (Command.type data)); [|done].
  unfold switch. by rewrite (select_default _ Hno).
Qed.

Lemma unknown_command_witness :
  (open_channel "ch" (accepted "ch")
   ∧ ∀ kind, kind ∈ recognized → Json.Kind "rename" ≠ Json.Kind kind)
  ∧ step (Message "ch" (Json.Object (Command.tagged (Json.Kind "rename"))))
      (accepted "ch")
    = (accepted "ch", [error_response "ch" "Unknown command"]).
Proof.
  assert (open_channel "ch" (accepted "ch")
          ∧ ∀ kind, kind ∈ recognized → Json.Kind "rename" ≠ Json.Kind kind) as H.
  { split; [apply accepted_open|]. intros kind Hin [= <-]. revert Hin.
    by apply (bool_decide_unpack _). }
  split; [exact H|].
  exact (unknown_command "ch" (Command.tagged (Json.Kind "rename")) (accepted "ch")
           (proj1 H) (proj2 H)).
Defined.

(** C7, as the specification words it: the text is not "unknown command",
    and for the message [{"type": {"toString": 0}}] it is not even the text
    of the [default] case. *)
Lemma unknown_command_text :
  (step (Message "ch" (Json.Object (Command.tagged (Json.Kind "rename"))))
     (accepted "ch")).2
  = [error_response "ch" "Unknown command"]
  ∧ (step (Message "ch" (Json.Object (Command.tagged (Json.Kind "rename"))))
       (accepted "ch")).2
    ≠ [error_response "ch" "unknown command"]
  ∧ (step (Message "ch" (Json.Object (Command.tagged Json.Unconvertible)))
       (accepted "ch")).2
    = [error_response "ch" generic_error].
Proof.
  split; [by vm_compute|]. split; [|by vm_compute]. vm_compute. discriminate.
Qed.

(** C8. A frame that is no JSON text, or the JSON text [null], makes the
    [try] throw; the [catch] answers with one [error] response, "Invalid
    message format or server error". A frame that parses to a number, a
    string, a boolean or an array gets the [error] response of the
    [default] case. In each case nothing leaves the handler as an exception
    (the process goes on), nothing is called on the remote side, and the
    registry with the sessions of all channels is as before. *)
Theorem malformed_message c message st :
  open_channel c st → (∀ data, message ≠ Json.Object data) →
  ∃ text,
    step (Message c message) st = (st, [error_response c text])
    ∧ thrown (on_message c message st) = None
    ∧ (message = Json.SyntaxError ∨ message = Json.Null →
       is_Some (thrown (try_body c message st)) ∧ text = generic_error)
    ∧ (message = Json.Scalar → text = "Unknown command")
    ∧ crashed (step (Message c message) st).1 = false
    ∧ activeConnections (step (Message c message) st).1 = activeConnections st
    ∧ sftpClient (step (Message c message) st).1 = sftpClient st.
Proof.
  intros Ho Hno. rewrite step_message by done.
  destruct message as [| | |data]; [..|by destruct (Hno data)];
    [exists generic_error|exists generic_error|exists "Unknown command"];
    cbn; (split; [done|]); (split; [done|]);
    (split; [first [by intros [[=]|[=]] | intros _; split; [by eexists|done]]|]);
    (split; [by intros; first [done|discriminate]|]);
    (split; [apply Ho|done]).
Qed.

Lemma malformed_message_witness :
  (open_channel "ch" (accepted "ch")
   ∧ ∀ data : Command.t, Json.SyntaxError ≠ Json.Object data)
  ∧ step (Message "ch" Json.SyntaxError) (accepted "ch")
    = (accepted "ch", [error_response "ch" generic_error]).
Proof.
  assert (open_channel "ch" (accepted "ch")
          ∧ ∀ data : Command.t, Json.SyntaxError ≠ Json.Object data) as H.
  { split; [apply accepted_open|discriminate]. }
  split; [exact H|].
  destruct (malformed_message "ch" Json.SyntaxError (accepted "ch")
              (proj1 H) (proj2 H)) as (text & Hstep & _ & Htext & _).
  rewrite Hstep. f_equal. f_equal. f_equal. apply Htext. by left.
Defined.

(** An [upload_file] without [content] on a channel with a session: the
    [Buffer.from] throws, and the [catch] answers likewise. *)
Lemma upload_without_content c data st sftp :
  open_channel c st → session c st = Some sftp →
  Command.type data = Json.Kind "upload_file" → Command.content data = None →
  step (Message c (Json.Object data)) st = (st, [error_response c generic_error]).
Proof.
  intros Ho Hs Ht Hc. rewrite step_message by done.
  assert (select (Json.Kind "upload_file") = upload_file) as Hsel by (by vm_compute).
  unfold on_message, try_body, switch. by rewrite Hs, Ht, Hsel, Hc.
Qed.

(** ** The lifecycle hooks of the ssh client *)

Definition disconnect_notice (c text : string) : effect :=
  sendResponse c "disconnect" (Response.with_message (Some text) Response.object).

Definition connect_error_response (c err : string) : effect :=
  sendResponse c "connect_error" (Response.with_error (Some err) Response.object).

(** The channel "ch" after a [connect] command and the client's 'ready'. *)
Definition ready_channel : state :=
  run [Connection "ch";
       Message "ch" (Json.Object (Command.tagged (Json.Kind "connect")));
       Ready "ch"] init.

Example ready_channel_entry :
  activeConnections ready_channel !! "ch" = Some {| client := Some 0; sftp := None |}
  ∧ crashed ready_channel = false.
Proof. by vm_compute. Qed.

(** C4, as the specification words it: after 'end' the entry of the channel
    is still in the registry. *)
Lemma end_keeps_entry :
  activeConnections (step (End "ch") ready_channel).1 !! "ch"
  = Some {| client := Some 0; sftp := None |}
  ∧ (step (End "ch") ready_channel).2 = [disconnect_notice "ch" "Connection ended"].
Proof. by vm_compute. Qed.

(** An 'error' after 'ready' leaves the entry where it is, too. *)
Example error_keeps_entry :
  activeConnections (step (Error "ch" "read ECONNRESET") ready_channel).1 !! "ch"
  = Some {| client := Some 0; sftp := None |}.
Proof. by vm_compute. Qed.

(** C4, as the code has it. On a channel of the running bridge:
    'ready' puts an entry for the channel in the registry; 'error' sends a
    [connect_error] response with the error text and leaves the registry as
    it is (no entry is created); 'end' sends a [disconnect] notification
    and leaves the registry as it is; 'close' removes the entry of the
    channel, leaves the entries of the other channels, and sends a
    [disconnect] notification. *)
Theorem lifecycle_hooks c err st :
  open_channel c st →
  is_Some (activeConnections (step (Ready c) st).1 !! c)
  ∧ step (Error c err) st = (st, [connect_error_response c err])
  ∧ step (End c) st = (st, [disconnect_notice c "Connection ended"])
  ∧ activeConnections (step (Close c) st).1 = delete c (activeConnections st)
  ∧ activeConnections (step (Close c) st).1 !! c = None
  ∧ (step (Close c) st).2 = [disconnect_notice c "Connection closed"].
Proof.
  intros Ho.
  assert (∀ i, channel_of i = c → (∀ c', i ≠ Connection c') → enabled i st = true)
    as Hen by (intros; by eapply open_channel_enabled).
  split.
  { unfold step. rewrite Hen by done. cbn [handle]. unfold on_ready.
    destruct (variable c st); cbn; rewrite lookup_insert_eq; by eexists. }
  split; [unfold step; by rewrite Hen|].
  split; [unfold step; by rewrite Hen|].
  unfold step. rewrite Hen by done. cbn. by rewrite lookup_delete_eq.
Qed.

Lemma ready_channel_open : open_channel "ch" ready_channel.
Proof. split; [done|]. vm_compute. by eexists. Qed.

Lemma lifecycle_hooks_witness :
  open_channel "ch" ready_channel
  ∧ step (End "ch") ready_channel
    = (ready_channel, [disconnect_notice "ch" "Connection ended"]).
Proof.
  split; [apply ready_channel_open|].
  exact (proj1 (proj2 (proj2
    (lifecycle_hooks "ch" "" ready_channel ready_channel_open)))).
Defined.

(** ** The registry and the channel's ssh client *)

(** While the process runs, a channel with an entry in the registry holds
    an ssh client in [sftpClient]. *)
Definition tidy (st : state) : Prop :=
  crashed st = false →
  ∀ c e, activeConnections st !! c = Some e → ∃ h, sftpClient st !! c = Some (Some h).

Lemma tidy_init : tidy init.
Proof. intros _ c e H. done. Qed.

Lemma variable_some c st h : variable c st = Some h → sftpClient st !! c = Some (Some h).
Proof. unfold variable. by destruct (sftpClient st !! c) as [[]|]; intros [= ->]. Qed.

(** What a message can do to the state: nothing, a new ssh client for the
    channel ([connect]), or the end of the channel's session
    ([disconnect]). *)
Lemma on_message_after c m st :
  crashed (after (on_message c m st)) = crashed st
  ∧ (after (on_message c m st) = st
     ∨ (activeConnections (after (on_message c m st)) = activeConnections st
        ∧ ∃ h, sftpClient (after (on_message c m st)) = <[c := Some h]> (sftpClient st))
     ∨ (activeConnections (after (on_message c m st)) = delete c (activeConnections st)
        ∧ sftpClient (after (on_message c m st)) = <[c := None]> (sftpClient st))).
Proof.
  unfold on_message, try_body, switch.
  destruct m as [| | |data]; cbn; [by auto..|].
  destruct (select (Command.type data)); cbn;
    repeat (case_match; cbn); (split; [done|]); eauto 6.
Qed.

Lemma tidy_step i st : tidy st → tidy (step i st).1.
Proof.
  unfold tidy. intros Ht. unfold step. destruct (enabled i st) eqn:En; [|done].
  apply andb_prop in En as [Hc%negb_true_iff En]. specialize (Ht Hc).
  destruct i as [c|c m|c|c|c err|c|c|c r]; cbn [handle].
  - cbn. intros _ c' e He. destruct (Ht c' e He) as [h Hh].
    apply bool_decide_eq_true_1 in En.
    exists h. rewrite lookup_insert_ne; [done|]. intros <-. congruence.
  - rewrite on_message_catches.
    destruct (on_message_after c m st) as (Hcr & [->|[(Ea & h & Es)|(Ea & Es)]]);
      cbn; intros _ c' e He; [by eapply Ht| |].
    + rewrite Ea in He. rewrite Es. destruct (decide (c = c')) as [<-|Hne].
      * rewrite lookup_insert_eq. by eexists.
      * rewrite lookup_insert_ne by done. by eapply Ht.
    + rewrite Ea in He. apply lookup_delete_Some in He as [Hne He].
      rewrite Es, lookup_insert_ne by done. by eapply Ht.
  - cbn. intros _ c' e [Hne He]%lookup_delete_Some. by eapply Ht.
  - unfold on_ready. destruct (variable c st) as [h|] eqn:Ev; cbn; [|done].
    intros _ c' e [[<- <-]|[Hne He]]%lookup_insert_Some.
    + exists h. by apply variable_some.
    + by eapply Ht.
  - cbn. intros _. apply Ht.
  - cbn. intros _. apply Ht.
  - cbn. intros _ c' e [Hne He]%lookup_delete_Some. by eapply Ht.
  - unfold on_sftp. destruct r as [err|s]; cbn; [intros _; apply Ht|].
    destruct (activeConnections st !! c) as [e0|] eqn:E0; cbn; [|done].
    intros _ c' e [[<- <-]|[Hne He]]%lookup_insert_Some; by eapply Ht.
Qed.

Lemma tidy_run inputs st : tidy st → tidy (run inputs st).
Proof.
  revert st. induction inputs as [|i inputs IH]; intros st Ht; [done|].
  apply IH. by apply tidy_step.
Qed.

(** The [disconnect] command on a channel of the running bridge, whatever
    led there: the channel's ssh client, if there is one, is ended; no
    entry of the channel is left in the registry; the other entries stay;
    one [disconnect] notification is sent, session or not. *)
Lemma disconnect_command inputs c data :
  let st := run inputs init in
  open_channel c st → Command.type data = Json.Kind "disconnect" →
  let r := step (Message c (Json.Object data)) st in
  activeConnections r.1 = delete c (activeConnections st)
  ∧ activeConnections r.1 !! c = None
  ∧ variable c r.1 = None
  ∧ crashed r.1 = false
  ∧ r.2 = (match variable c st with
           | Some h => [ClientEnd h]
           | None => []
           end ++ [disconnect_notice c "Disconnected"])%list.
Proof.
  intros st Ho Ht r. unfold r. rewrite step_message by done.
  assert (select (Json.Kind "disconnect") = disconnect) as Hsel by (by vm_compute).
  unfold on_message, try_body, switch. rewrite Ht, Hsel. cbn.
  pose proof (tidy_run inputs init tidy_init (proj1 Ho)) as Htidy. fold st in Htidy.
  destruct (variable c st) as [h|] eqn:Ev; cbn.
  - rewrite lookup_delete_eq. unfold variable. cbn. rewrite lookup_insert_eq.
    by repeat split; try apply Ho.
  - assert (activeConnections st !! c = None) as Hnone.
    { destruct (activeConnections st !! c) as [e|] eqn:E; [|done].
      destruct (Htidy c e E) as [h Hh]. unfold variable in Ev. by rewrite Hh in Ev. }
    rewrite delete_id by done. by repeat split; try apply Ho.
Qed.

End ServerFacts.

(* ===================================================================== *)
(** * One client and the bridge *)

Module BridgeFacts.

(** A client whose socket to the bridge is open. *)
Definition browser : Client.state := Client.with_ws (Some Client.OPEN) Client.constructor.

Lemma browser_keyed : ClientFacts.keyed browser.
Proof. apply ClientFacts.constructor_keyed. Qed.

(** The bridge after the channel "ch" was accepted, the [connect] command
    of [ClientFacts.profile] was received and the remote host accepted the
    credentials ('ready'). *)
Definition bridge_ready : Server.state :=
  Server.run
    [Server.Connection "ch";
     Server.Message "ch" (Json.Object (Client.connect_command ClientFacts.profile));
     Server.Ready "ch"]
    Server.init.

(** [connect] on every client with the constructor's table and an open
    socket: the [connect_success] frame is dropped, the promise stays
    pending until the timeout rejects it, and [listFiles] is refused. *)
Lemma connect_never_resolves (st : Client.state) (c : Client.connection) (id : string) :
  ClientFacts.keyed st → Client.socket_open st = true →
  Client.isConnected st = false →
  let p := Client.next st in
  let st1 := (Client.connect c true st).2 in
  let st2 := Client.step (Client.Frame (Json.Object (ClientFacts.connect_success id))) st1 in
  let st3 := Client.step (Client.TimerFires (S p)) st2 in
  let r := Client.listFiles (Some "/") st3 in
  st2 = st1
  ∧ Client.promises st2 !! p = Some Client.Pending
  ∧ Client.isConnected st2 = false
  ∧ Client.connectionId st2 = Client.connectionId st
  ∧ Client.promises st3 !! p
    = Some (Client.Settled (Client.Rejected "Connection timed out"))
  ∧ Client.promises r.2 !! Client.next st3
    = Some (Client.Settled (Client.Rejected Client.not_connected))
  ∧ Client.sent r.2 = Client.sent st1.
Proof.
  intros Hk Ho Hc. cbn zeta.
  rewrite ClientFacts.connect_open by done. cbn [snd].
  set (st1 := Client.with_sent _ _).
  rewrite (ClientFacts.frame_dropped _ st1); [|exact Hk|intros ev [= <-]; by apply ClientFacts.not_event].
  rewrite (ClientFacts.fire_state _ (ClientFacts.connect_timer (Client.next st)))
    by apply lookup_insert_eq.
  rewrite ClientFacts.listFiles_not_connected by done.
  unfold st1. cbn. rewrite !lookup_insert_eq. by repeat split.
Qed.

(** C1, on the code. The browser's client calls [connect] with credentials
    the remote host accepts. The bridge registers the session and sends
    [connect_success] with the channel's identity. The client has no
    listener array named [connect_success]: the frame is dropped, the
    promise of [connect] is still pending, [isConnected] is still false. The
    timeout then rejects the promise with "Connection timed out", and
    [listFiles('/')] is rejected with "Not connected to any SFTP server"
    without a command being sent. *)
Theorem connect_success_dropped :
  let calling := (Client.connect ClientFacts.profile true browser).2 in
  let answered := Server.step (Server.Sftp "ch" (inr 7)) bridge_ready in
  let received :=
    Client.step (Client.Frame (Json.Object (ClientFacts.connect_success "ch")))
      calling in
  let timed_out := Client.step (Client.TimerFires 1) received in
  let listed := (Client.listFiles (Some "/") timed_out).2 in
  Client.sent calling = [Client.connect_command ClientFacts.profile]
  ∧ answered.2 = [Server.Send "ch" (ClientFacts.connect_success "ch")]
  ∧ Server.session "ch" answered.1 = Some 7
  ∧ received = calling
  ∧ Client.promises received !! 0 = Some Client.Pending
  ∧ Client.isConnected received = false
  ∧ Client.connectionId received = None
  ∧ Client.promises timed_out !! 0
    = Some (Client.Settled (Client.Rejected "Connection timed out"))
  ∧ Client.promises listed !! 2
    = Some (Client.Settled (Client.Rejected "Not connected to any SFTP server"))
  ∧ Client.sent listed = [Client.connect_command ClientFacts.profile].
Proof.
  cbn zeta.
  destruct (connect_never_resolves browser ClientFacts.profile "ch"
              browser_keyed eq_refl eq_refl)
    as (E2 & P2 & C2 & I2 & P3 & P4 & S4).
  assert (Client.sent (Client.connect ClientFacts.profile true browser).2
          = [Client.connect_command ClientFacts.profile]) as Hsent.
  { by rewrite ClientFacts.connect_open by (done || apply browser_keyed). }
  split; [done|]. split; [by vm_compute|]. split; [by vm_compute|].
  split; [done|]. split; [done|]. split; [done|]. split; [done|].
  split; [done|]. split; [|by rewrite <- Hsent].
  exact P4.
Qed.

(** C9. Client: whatever the state of a client with the constructor's
    table, [disconnect()] returns a promise (it does not throw); once the
    bridge's [disconnect] notification has arrived (if there was a session
    to leave) [isConnected] is false; a second [disconnect()] then returns a
    promise resolved on the spot, sends nothing, and [isConnected] is still
    false. Bridge: in every state the running bridge can reach, the
    [disconnect] command ends the channel's ssh client if there is one,
    leaves no entry of the channel in the registry (and the other entries
    as they were), and sends one [disconnect] notification, whether or not
    a session existed. *)
Theorem disconnect_idempotent
    (st : Client.state) (notice : Response.t)
    (inputs : list Server.input) (c : string) (data : Command.t) :
  ClientFacts.keyed st →
  Response.type notice = Json.Kind "disconnect" →
  ServerFacts.open_channel c (Server.run inputs Server.init) →
  Command.type data = Json.Kind "disconnect" →
  (let first := Client.disconnect st in
   let st1 := if Client.isConnected st
              then Client.step (Client.Frame (Json.Object notice)) first.2
              else first.2 in
   let second := Client.disconnect st1 in
   first.1 = Client.Normal (Client.next st)
   ∧ Client.isConnected st1 = false
   ∧ second.1 = Client.Normal (Client.next st1)
   ∧ Client.isConnected second.2 = false
   ∧ Client.sent second.2 = Client.sent st1
   ∧ Client.promises second.2 !! Client.next st1
     = Some (Client.Settled (Client.Resolved Client.Undefined)))
  ∧ (let bridge := Server.run inputs Server.init in
     let r := Server.step (Server.Message c (Json.Object data)) bridge in
     Server.activeConnections r.1 = delete c (Server.activeConnections bridge)
     ∧ Server.activeConnections r.1 !! c = None
     ∧ Server.variable c r.1 = None
     ∧ Server.crashed r.1 = false
     ∧ r.2 = (match Server.variable c bridge with
              | Some h => [Server.ClientEnd h]
              | None => []
              end ++ [ServerFacts.disconnect_notice c "Disconnected"])%list).
Proof.
  intros Hk Hn Ho Hd. split; [|by apply ServerFacts.disconnect_command].
  cbn zeta. set (first := Client.disconnect st).
  set (st1 := if Client.isConnected st then _ else _).
  assert (Client.isConnected st1 = false) as H1.
  { unfold st1. destruct (Client.isConnected st) eqn:Ec.
    - by apply ClientFacts.disconnect_notified.
    - unfold first. by rewrite ClientFacts.disconnect_idle. }
  split; [apply ClientFacts.disconnect_returns|]. split; [done|].
  rewrite (ClientFacts.disconnect_idle st1 H1). cbn.
  repeat split; try done. apply lookup_insert_eq.
Qed.

(** The instance: a client with a session, and the channel "ch" of the
    bridge after 'ready'. *)
Lemma disconnect_idempotent_witness :
  (ClientFacts.keyed ClientFacts.connected_idle
   ∧ ServerFacts.open_channel "ch" ServerFacts.ready_channel)
  ∧ Server.activeConnections
      (Server.step
         (Server.Message "ch" (Json.Object (Command.tagged (Json.Kind "disconnect"))))
         ServerFacts.ready_channel).1 !! "ch" = None.
Proof.
  assert (ClientFacts.keyed ClientFacts.connected_idle
          ∧ ServerFacts.open_channel "ch" ServerFacts.ready_channel) as H.
  { split; [apply ClientFacts.constructor_keyed|apply ServerFacts.ready_channel_open]. }
  split; [exact H|].
  exact (proj1 (proj2 (proj2
    (disconnect_idempotent ClientFacts.connected_idle (Response.tagged "disconnect")
       [Server.Connection "ch";
        Server.Message "ch" (Json.Object (Command.tagged (Json.Kind "connect")));
        Server.Ready "ch"]
       "ch" (Command.tagged (Json.Kind "disconnect"))
       (proj1 H) eq_refl (proj2 H) eq_refl)))).
Defined.

End BridgeFacts.

(* ===================================================================== *)
Module DateFacts.
Import Date.
Local Open Scope Z_scope.

Local Ltac divmod := zify; Z.to_euclidean_division_equations; lia.

(** The quotients by 4, 100 and 400 in [DayFromYear] grow by one exactly at
    the multiples. *)
Lemma div_succ a k :
  k = 4 ∨ k = 100 ∨ k = 400 →
  (a + 1) / k = a / k + (if (a + 1) mod k =? 0 then 1 else 0).
Proof.
  intros [->|[->| ->]]; case Z.eqb_spec; divmod.
Qed.

Lemma DayFromYear_succ y : DayFromYear (y + 1) = DayFromYear y + DaysInYear y.
Proof.
  unfold DayFromYear, DaysInYear.
  replace (y + 1 - 1969) with (y - 1969 + 1) by lia.
  replace (y + 1 - 1901) with (y - 1901 + 1) by lia.
  replace (y + 1 - 1601) with (y - 1601 + 1) by lia.
  rewrite !div_succ by auto.
  replace ((y - 1969 + 1) mod 4) with (y mod 4) by divmod.
  replace ((y - 1901 + 1) mod 100) with (y mod 100) by divmod.
  replace ((y - 1601 + 1) mod 400) with (y mod 400) by divmod.
  destruct (Z.eqb_spec (y mod 4) 0) as [H4|H4];
    destruct (Z.eqb_spec (y mod 100) 0) as [H100|H100];
    destruct (Z.eqb_spec (y mod 400) 0) as [H400|H400]; cbn [negb]; try lia;
    exfalso; revert H4 H100 H400; divmod.
Qed.

Lemma DaysInYear_bounds y : 365 ≤ DaysInYear y ≤ 366.
Proof. unfold DaysInYear. repeat (destruct (_ =? _); cbn [negb]); lia. Qed.

(** The search, started at a year that is not too late and given enough
    steps, stops at the year of the day. *)
Lemma year_search_spec fuel y day :
  DayFromYear y ≤ day → day - DayFromYear y < 365 * Z.of_nat fuel →
  DayFromYear (year_search fuel y day) ≤ day
  < DayFromYear (year_search fuel y day + 1) ∧ y ≤ year_search fuel y day.
Proof.
  revert y. induction fuel as [|fuel IH]; intros y Hlo Hgap; [lia|].
  cbn [year_search]. destruct (Z.leb_spec (DayFromYear (y + 1)) day) as [Hle|Hgt].
  - destruct (IH (y + 1) Hle) as (H1 & H2).
    + rewrite DayFromYear_succ. pose proof (DaysInYear_bounds y). lia.
    + split; [done|lia].
  - lia.
Qed.

Lemma DayFromYear_mono y y' : y ≤ y' → DayFromYear y ≤ DayFromYear y'.
Proof.
  intros Hle. replace y' with (y + Z.of_nat (Z.to_nat (y' - y))) by lia.
  induction (Z.to_nat (y' - y)) as [|n IH]; [by rewrite Z.add_0_r|].
  replace (y + Z.of_nat (S n)) with (y + Z.of_nat n + 1) by lia.
  rewrite DayFromYear_succ. pose proof (DaysInYear_bounds (y + Z.of_nat n)). lia.
Qed.

(** A year whose first day is not after a day of the year [y'] is not after
    [y']: the year the search finds is the largest one. *)
Lemma DayFromYear_lt y y' : DayFromYear y < DayFromYear (y' + 1) → y ≤ y'.
Proof.
  intros Hlt. destruct (Z_le_gt_dec y y') as [|Hgt]; [done|].
  pose proof (DayFromYear_mono (y' + 1) y ltac:(lia)). lia.
Qed.

(** The first instant of the year 10000. *)
Definition year10000 : Z := 253402300800000.

(** With 1200 steps the search reaches the year of every instant before the
    year 10000. *)

Lemma YearFromTime_spec t :
  0 ≤ t < year10000 →
  1970 ≤ YearFromTime t ≤ 9999
  ∧ DayFromYear (YearFromTime t) ≤ Day t < DayFromYear (YearFromTime t + 1).
Proof.
  intros Ht. unfold YearFromTime. cbn zeta.
  assert (0 ≤ Day t < 2932897) as Hd by (unfold Day, msPerDay, year10000 in *; divmod).
  destruct (Z.leb_spec 0 (Day t)) as [_|]; [|lia].
  set (day := Day t) in *.
  destruct (year_search_spec 1200 (1970 + day / 366) day) as ((Hlo & Hhi) & Hy).
  - unfold DayFromYear. divmod.
  - unfold DayFromYear. divmod.
  - split; [|done]. split; [divmod|].
    assert (DayFromYear 10000 = 2932897) as H10 by reflexivity.
    apply Z.lt_succ_r. unfold Z.succ.
    destruct (Z_le_gt_dec 10000 (year_search 1200 (1970 + day / 366) day)) as [Hge|]; [|lia].
    pose proof (DayFromYear_mono _ _ Hge). lia.
Qed.

(** The civil calendar, counted from 1 January 1970. *)
Definition leap_year (y : Z) : bool :=
  (y mod 4 =? 0) && (negb (y mod 100 =? 0) || (y mod 400 =? 0)).

Definition year_length (y : Z) : Z := if leap_year y then 366 else 365.

Definition month_lengths (y : Z) : list Z :=
  [31; if leap_year y then 29 else 28; 31; 30; 31; 30; 31; 31; 30; 31; 30; 31].

Definition month_length (y m : Z) : Z := nth (Z.to_nat (m - 1)) (month_lengths y) 0.

Definition days_before_year (y : Z) : Z :=
  foldr Z.add 0 (year_length <$> seqZ 1970 (y - 1970)).

Definition days_before_month (y m : Z) : Z :=
  foldr Z.add 0 (take (Z.to_nat (m - 1)) (month_lengths y)).

(** The seconds from 1970-01-01 00:00:00 to [y]-[m]-[d] [hh]:[mi]:[ss]. *)
Definition seconds_since_epoch (y m d hh mi ss : Z) : Z :=
  (((days_before_year y + days_before_month y m + (d - 1)) * 24 + hh) * 60 + mi) * 60 + ss.

Lemma year_length_DaysInYear y : year_length y = DaysInYear y.
Proof.
  unfold year_length, leap_year, DaysInYear.
  destruct (y mod 4 =? 0), (y mod 100 =? 0) eqn:E100, (y mod 400 =? 0) eqn:E400;
    by cbn.
Qed.

Lemma foldr_add_snoc (l : list Z) (x : Z) :
  foldr Z.add 0 (l ++ [x]) = foldr Z.add 0 l + x.
Proof. induction l as [|a l IH]; cbn; lia. Qed.

Lemma days_before_year_DayFromYear y : 1970 ≤ y → days_before_year y = DayFromYear y.
Proof.
  intros Hy. unfold days_before_year.
  replace (y - 1970) with (Z.of_nat (Z.to_nat (y - 1970))) by lia.
  replace (DayFromYear y) with (DayFromYear (1970 + Z.of_nat (Z.to_nat (y - 1970))))
    by (f_equal; lia).
  induction (Z.to_nat (y - 1970)) as [|n IH]; [done|].
  rewrite seqZ_S, fmap_app.
  change (year_length <$> [1970 + Z.of_nat n]) with [year_length (1970 + Z.of_nat n)].
  rewrite foldr_add_snoc, IH.
  replace (1970 + Z.of_nat (S n)) with (1970 + Z.of_nat n + 1) by lia.
  by rewrite DayFromYear_succ, year_length_DaysInYear.
Qed.

(** No letter T in the string. *)
Definition no_T (s : string) : bool :=
  forallb (λ c, negb (Ascii.eqb c "T")) (list_ascii_of_string s).

Lemma digits2 n :
  0 ≤ n < 100 → String.length (digits 2 n) = 2%nat ∧ no_T (digits 2 n) = true.
Proof.
  intros Hn.
  assert (forallb (λ x, (String.length (digits 2 x) =? 2)%nat && no_T (digits 2 x))
            (seqZ 0 100) = true) as Hall by (vm_compute; reflexivity).
  assert (n ∈ seqZ 0 100) as Hin by (apply elem_of_seqZ; lia).
  apply list_elem_of_In in Hin.
  pose proof (proj1 (forallb_forall _ _) Hall n Hin) as [H1 H2]%andb_prop.
  clear Hall. by apply Nat.eqb_eq in H1.
Qed.

Lemma digits4 y :
  1970 ≤ y ≤ 9999 →
  year_string y = digits 4 y
  ∧ String.length (digits 4 y) = 4%nat ∧ no_T (digits 4 y) = true.
Proof.
  intros Hy. split.
  { unfold year_string. destruct (Z.leb_spec 0 y); [|lia].
    by destruct (Z.leb_spec y 9999); [|lia]. }
  assert (forallb (λ x, (String.length (digits 4 x) =? 4)%nat && no_T (digits 4 x))
            (seqZ 1970 8030) = true) as Hall by (vm_compute; reflexivity).
  assert (y ∈ seqZ 1970 8030) as Hin by (apply elem_of_seqZ; lia).
  apply list_elem_of_In in Hin.
  pose proof (proj1 (forallb_forall _ _) Hall y Hin) as [H1 H2]%andb_prop.
  clear Hall. by apply Nat.eqb_eq in H1.
Qed.

Lemma length2 s : String.length s = 2%nat → ∃ x y, s = String x (String y "").
Proof. destruct s as [|x [|y [|]]]; intros [=]. eauto. Qed.

Lemma length4 s :
  String.length s = 4%nat → ∃ x y z w, s = String x (String y (String z (String w ""))).
Proof. destruct s as [|x [|y [|z [|w [|]]]]]; intros [=]. eauto. Qed.

Lemma date_time_shape (a b c d e f rest : string) :
  String.length a = 4%nat → String.length b = 2%nat → String.length c = 2%nat →
  String.length d = 2%nat → String.length e = 2%nat → String.length f = 2%nat →
  no_T a = true → no_T b = true → no_T c = true →
  substring 0 19
    (replace "T" " "
       (a ++ "-" ++ b ++ "-" ++ c ++ "T" ++ d ++ ":" ++ e ++ ":" ++ f ++ rest))
  = a ++ "-" ++ b ++ "-" ++ c ++ " " ++ d ++ ":" ++ e ++ ":" ++ f.
Proof.
  intros (a1 & a2 & a3 & a4 & ->)%length4 (b1 & b2 & ->)%length2
    (c1 & c2 & ->)%length2 (d1 & d2 & ->)%length2 (e1 & e2 & ->)%length2
    (f1 & f2 & ->)%length2.
  unfold no_T. cbn [list_ascii_of_string forallb].
  intros Ha Hb Hc.
  repeat match goal with
         | H : _ && _ = true |- _ => apply andb_prop in H as [? ?]
         | H : negb _ = true |- _ => apply negb_true_iff in H
         end.
  cbv [String.append replace].
  repeat match goal with H : Ascii.eqb _ _ = false |- _ => rewrite H; clear H end.
  cbn. by destruct rest.
Qed.

Lemma month_day t :
  0 ≤ t < year10000 →
  let y := YearFromTime t in
  let m := MonthFromTime t + 1 in
  let d := DateFromTime t in
  1 ≤ m ≤ 12 ∧ 1 ≤ d ≤ month_length y m
  ∧ days_before_month y m + (d - 1) = Day t - DayFromYear y.
Proof.
  intros Ht. destruct (YearFromTime_spec t Ht) as (Hy & Hlo & Hhi). cbn zeta.
  rewrite DayFromYear_succ, <- year_length_DaysInYear in Hhi.
  unfold DateFromTime, MonthFromTime, InLeapYear, DayWithinYear.
  rewrite <- year_length_DaysInYear.
  unfold month_length, days_before_month, month_lengths.
  set (y := YearFromTime t) in *. set (dwy := Day t - DayFromYear y).
  assert (0 ≤ dwy < year_length y) as Hd by (unfold dwy; lia).
  clearbody dwy. unfold year_length in *.
  destruct (leap_year y); cbn [Z.eqb Pos.eqb];
    repeat (case Z.ltb_spec; intros ?);
    repeat match goal with
           | |- context [Z.to_nat ?e] =>
               let v := eval vm_compute in (Z.to_nat e) in
               change (Z.to_nat e) with v
           end;
    cbn [nth take foldr]; lia.
Qed.

Definition date_time (y m d hh mi ss : Z) : string :=
  digits 4 y ++ "-" ++ digits 2 m ++ "-" ++ digits 2 d ++ " "
  ++ digits 2 hh ++ ":" ++ digits 2 mi ++ ":" ++ digits 2 ss.

Lemma length_append (s1 s2 : string) :
  String.length (s1 ++ s2) = (String.length s1 + String.length s2)%nat.
Proof.
  induction s1 as [|a s1 IH]; [done|].
  change (String a s1 ++ s2) with (String a (s1 ++ s2)). cbn. by rewrite IH.
Qed.

Lemma month_length_le y m : month_length y m ≤ 31.
Proof.
  unfold month_length, month_lengths.
  destruct (Z.to_nat (m - 1)) as [|[|[|[|[|[|[|[|[|[|[|[|[|]]]]]]]]]]]]];
    cbn; destruct (leap_year y); lia.
Qed.

(** The date and time [formatDate] prints. *)
Local Abbreviation printed t :=
  (date_time (YearFromTime t) (MonthFromTime t + 1) (DateFromTime t)
     (HourFromTime t) (MinFromTime t) (SecFromTime t)).

Lemma civil_seconds t :
  ((Day t * 24 + HourFromTime t) * 60 + MinFromTime t) * 60 + SecFromTime t = t / 1000.
Proof.
  unfold Day, HourFromTime, MinFromTime, SecFromTime, msPerDay, msPerHour,
    msPerMinute, msPerSecond.
  divmod.
Qed.

Lemma time_of_day t :
  0 ≤ HourFromTime t < 24 ∧ 0 ≤ MinFromTime t < 60 ∧ 0 ≤ SecFromTime t < 60.
Proof.
  unfold HourFromTime, MinFromTime, SecFromTime.
  repeat split; apply Z.mod_pos_bound; lia.
Qed.

Lemma formatDate_shape t :
  0 ≤ t < year10000 →
  formatDate t = Some (printed t) ∧ String.length (printed t) = 19%nat.
Proof.
  intros Ht.
  destruct (YearFromTime_spec t Ht) as (Hy & _).
  destruct (month_day t Ht) as (Hm & Hd & _).
  destruct (time_of_day t) as (Hh & Hmi & Hs).
  pose proof (month_length_le (YearFromTime t) (MonthFromTime t + 1)) as H31.
  destruct (digits4 _ Hy) as (Ey & Ly & Py).
  destruct (digits2 (MonthFromTime t + 1)) as [Lm Pm]; [lia|].
  destruct (digits2 (DateFromTime t)) as [Ld Pd]; [lia|].
  destruct (digits2 (HourFromTime t)) as [Lh _]; [lia|].
  destruct (digits2 (MinFromTime t)) as [Lmi _]; [lia|].
  destruct (digits2 (SecFromTime t)) as [Ls _]; [lia|].
  split.
  - unfold formatDate, valid.
    destruct (Z.leb_spec (Z.abs t) 8640000000000000) as [_|Hbad];
      [|unfold year10000 in Ht; lia].
    f_equal. unfold toISOString. rewrite Ey. by apply date_time_shape.
  - unfold date_time. by rewrite !length_append, Ly, Lm, Ld, Lh, Lmi, Ls.
Qed.

(** X1. For every time stamp of a whole number of milliseconds from 1970 up
    to (not including) the year 10000, which covers every 32-bit [mtime],
    [formatDate] returns, without throwing, the 19 characters
    [YYYY-MM-DD HH:MM:SS] of the UTC civil date and time of that instant:
    the month is between 1 and 12, the day between 1 and the length of that
    month in that year, and the seconds counted from 1 January 1970 to the
    printed date and time are the time stamp's, the milliseconds dropped. *)
Theorem formatDate_civil (t : Z) :
  0 ≤ t < year10000 →
  ∃ y m d hh mi ss,
    formatDate t = Some (date_time y m d hh mi ss)
    ∧ String.length (date_time y m d hh mi ss) = 19%nat
    ∧ 1970 ≤ y ≤ 9999 ∧ 1 ≤ m ≤ 12 ∧ 1 ≤ d ≤ month_length y m
    ∧ 0 ≤ hh < 24 ∧ 0 ≤ mi < 60 ∧ 0 ≤ ss < 60
    ∧ seconds_since_epoch y m d hh mi ss = t / 1000.
Proof.
  intros Ht.
  destruct (YearFromTime_spec t Ht) as (Hy & Hlo & Hhi).
  destruct (month_day t Ht) as (Hm & Hd & Hdays).
  destruct (time_of_day t) as (Hh & Hmi & Hs).
  destruct (formatDate_shape t Ht) as [Ef Hlen].
  exists (YearFromTime t), (MonthFromTime t + 1), (DateFromTime t),
    (HourFromTime t), (MinFromTime t), (SecFromTime t).
  split; [exact Ef|]. split; [exact Hlen|].
  split; [exact Hy|]. split; [exact Hm|]. split; [exact Hd|].
  split; [exact Hh|]. split; [exact Hmi|]. split; [exact Hs|].
  unfold seconds_since_epoch. rewrite days_before_year_DayFromYear by lia.
  rewrite <- (civil_seconds t). do 3 f_equal. lia.
Qed.

(** The instance at 1700000000000 ms: "2023-11-14 22:13:20". *)
Lemma formatDate_civil_witness :
  0 ≤ 1700000000000 < year10000
  ∧ ∃ y m d hh mi ss,
      formatDate 1700000000000 = Some (date_time y m d hh mi ss)
      ∧ String.length (date_time y m d hh mi ss) = 19%nat
      ∧ 1970 ≤ y ≤ 9999 ∧ 1 ≤ m ≤ 12 ∧ 1 ≤ d ≤ month_length y m
      ∧ 0 ≤ hh < 24 ∧ 0 ≤ mi < 60 ∧ 0 ≤ ss < 60
      ∧ seconds_since_epoch y m d hh mi ss = 1700000000000 / 1000.
Proof.
  assert (0 ≤ 1700000000000 < year10000) as H by (unfold year10000; lia).
  split; [exact H|]. exact (formatDate_civil 1700000000000 H).
Defined.

Example formatDate_epoch : formatDate 0 = Some "1970-01-01 00:00:00".
Proof. vm_compute. reflexivity. Qed.

Example formatDate_leap_day : formatDate 951782400000 = Some "2000-02-29 00:00:00".
Proof. vm_compute. reflexivity. Qed.

Example formatDate_last_mtime :
  formatDate (4294967295 * 1000) = Some "2106-02-07 06:28:15".
Proof. vm_compute. reflexivity. Qed.

(** Past the year 9999 the year takes seven characters and the seconds are
    cut off. *)
Example formatDate_year_10000 : formatDate year10000 = Some "+010000-01-01 00:00".
Proof. vm_compute. reflexivity. Qed.

(** The first and the last instant a [Date] holds, and the first number
    past it. *)
Example formatDate_first :
  formatDate (-8640000000000000) = Some "-271821-04-20 00:00".
Proof. vm_compute. reflexivity. Qed.

Example formatDate_last : formatDate 8640000000000000 = Some "+275760-09-13 00:00".
Proof. vm_compute. reflexivity. Qed.

Example formatDate_invalid : formatDate 8640000000000001 = None.
Proof. reflexivity. Qed.

Example formatDate_before_epoch : formatDate (-1) = Some "1969-12-31 23:59:59".
Proof. vm_compute. reflexivity. Qed.

End DateFacts.


(* ===================================================================== *)
Module ListingFacts.
Import Server Callbacks.
Local Open Scope Z_scope.

(** ** The listing of a directory *)

(** What an entry of the [file_list] response says of the item it was made
    from. *)
Definition listed (i : item) (e : File.entry) : Prop :=
  File.name e = filename i
  ∧ File.isDirectory e = isDirectory i
  ∧ File.permissions e = mode i
  ∧ (File.type e = "folder" ↔ isDirectory i = true)
  ∧ (File.size e = "-" ↔ isDirectory i = true)
  ∧ (isDirectory i = false →
     File.type e = "file" ∧ File.size e = Format.formatFileSize (size i))
  ∧ Date.formatDate (mtime i * 1000) = Some (File.modified e)
  ∧ String.length (File.modified e) = 19%nat.

(** X3. When [readdir] yields a list whose modification times are 32-bit
    numbers of seconds, its callback does not throw and sends one
    [file_list] response with the path asked for and one entry per item, in
    the order of the list. An entry has the name and the mode of its item;
    its type is "folder" exactly for a directory, and so is the placeholder
    "-" for the size (no formatted size reads "-"); a file has the type
    "file" and its formatted size; [modified] is the formatted date, 19
    characters long. *)
Theorem directory_listing connectionId path (items : list item) :
  Forall (λ i, 0 ≤ mtime i < 2 ^ 32) items →
  ∃ files,
    readdir_callback connectionId path (inr items)
    = Some [file_list connectionId path files]
    ∧ Forall2 listed items files.
Proof.
  intros Hm.
  assert (∃ files, mapM file_entry items = Some files ∧ Forall2 listed items files)
    as (files & E & HF).
  { induction Hm as [|i items Hi _ (files & E & HF)]; [by exists []|].
    destruct (DateFacts.formatDate_shape (mtime i * 1000)) as [Ed Hlen].
    { unfold DateFacts.year10000. lia. }
    set (modified := DateFacts.date_time _ _ _ _ _ _) in Ed, Hlen. clearbody modified.
    eexists (_ :: files). split.
    - change (mapM file_entry (i :: items))
        with (e ← file_entry i; k ← mapM file_entry items; mret (e :: k)).
      rewrite E. unfold file_entry. rewrite Ed. reflexivity.
    - constructor; [|done]. unfold listed. cbn.
      split; [done|]. split; [done|]. split; [done|].
      split; [by destruct (isDirectory i)|].
      split.
      { unfold Format.entry_size. destruct (isDirectory i); [done|].
        split; [|done]. intros E'. by apply FormatFacts.formatFileSize_not_dash in E'. }
      split; [by intros ->|]. done. }
  exists files. split; [|done]. cbn. by rewrite E.
Qed.

Definition readme : item :=
  {| filename := "README.md"; isDirectory := false; size := 1536;
     mtime := 1700000000; mode := 33188 |}.

(** The instance: a directory with one file. *)
Lemma directory_listing_witness :
  Forall (λ i, 0 ≤ mtime i < 2 ^ 32) [readme]
  ∧ ∃ files,
      readdir_callback "ch" "/" (inr [readme]) = Some [file_list "ch" "/" files]
      ∧ Forall2 listed [readme] files.
Proof.
  assert (Forall (λ i, 0 ≤ mtime i < 2 ^ 32) [readme]) as H.
  { repeat constructor; cbn; lia. }
  split; [exact H|]. exact (directory_listing "ch" "/" [readme] H).
Defined.

Example listing_readme :
  readdir_callback "ch" "/" (inr [readme])
  = Some [file_list "ch" "/"
            [{| File.name := "README.md"; File.type := "file";
                File.size := "1.50 KB"; File.modified := "2023-11-14 22:13:20";
                File.permissions := 33188; File.isDirectory := false |}]].
Proof. vm_compute. reflexivity. Qed.

Example readdir_failed :
  readdir_callback "ch" "/" (inl "No such file")
  = Some [error_response "ch" "No such file"].
Proof. reflexivity. Qed.

Example stat_directory :
  stat_callback "ch" (inr true)
  = Responded (error_response "ch" "Cannot download a directory").
Proof. reflexivity. Qed.

(** ** The download of a file *)

Lemma foldl_stream_data (chunks parts : list (list Byte.byte)) :
  foldl stream_data chunks parts = (chunks ++ parts)%list.
Proof.
  revert chunks. induction parts as [|x parts IH]; intros chunks; cbn.
  - by rewrite app_nil_r.
  - rewrite IH. unfold stream_data. by rewrite <- app_assoc.
Qed.

(** X4. However the read stream cuts the file into chunks, the response sent
    at its end is a [file_content] response with the path asked for, the
    size [stat] reported, and a content that the client's decoder turns
    back into the octets of the chunks, in their order. Handed to the
    handler [downloadFile] builds, it resolves the pending promise with
    those octets, that size and that path. *)
Theorem streamed_download connectionId remotePath size (parts : list (list Byte.byte)) :
  ∃ r,
    stream_end connectionId remotePath size (foldl stream_data [] parts)
    = Send connectionId r
    ∧ Response.type r = Json.Kind "file_content"
    ∧ Response.path r = remotePath ∧ Response.size r = Some size
    ∧ Response.content r ≫= Codec.download_decode
      = Some (Codec.fromCharCode (concat parts))
    ∧ ∀ p t st,
        Client.promises st !! p = Some Client.Pending →
        Client.promises (Client.run_handler (Client.onFileContent p t) r st).2 !! p
        = Some (Client.Settled (Client.Resolved
                  (Client.FileData (Codec.fromCharCode (concat parts))
                     (Some size) remotePath))).
Proof.
  rewrite foldl_stream_data. cbn [app].
  assert (Codec.download_decode (Codec.Buffer_toString_base64 (concat parts))
          = Some (Codec.fromCharCode (concat parts))) as Hd.
  { apply CodecFacts.atob_base64_encode, CodecFacts.fromCharCode_octets. }
  eexists. split; [reflexivity|].
  cbn [Response.type Response.path Response.size Response.content].
  split; [done|]. split; [done|]. split; [done|]. split; [exact Hd|].
  intros p t st Hp.
  cbn [Client.run_handler Response.content Response.size Response.path default
         from_option id].
  rewrite Hd. unfold mbind, Client.M_bind, Client.clearTimeout, Client.resolve,
    Client.settle, Client.modify. cbn. rewrite Hp. cbn. apply lookup_insert_eq.
Qed.

End ListingFacts.

(* ===================================================================== *)
Module ListenerFacts.
Import Client ClientFacts.

Local Ltac mrun :=
  unfold mbind, M_bind, mret, M_ret, modify, throw, fresh, clearTimeout,
    resolve, reject, settle in *; cbn in *.

(** ** [on] and [off] *)

Lemma filter_snoc_fresh (cb : callback) (l : list callback) :
  cb ∉ l → filter (λ c, c ≠ cb) (l ++ [cb])%list = l.
Proof.
  intros Hn. rewrite filter_app, filter_cons_False, filter_nil, app_nil_r by (by intros []).
  induction l as [|x l IH]; [done|].
  rewrite filter_cons_True by (intros ->; apply Hn; by left).
  rewrite IH; [done|]. intros ?. apply Hn. by right.
Qed.

(** X5. [off(event, f)] leaves no registration of [f] for the event, however
    often [on] had added it. For a function that is not registered for the
    event, [on(event, f)] followed by [off(event, f)] gives back the very
    client there was, for every event name (one of the table, or not). *)
Theorem on_off_roundtrip st event id :
  (∀ l', eventListeners (step (Call (CallOff event id)) st) !! event = Some l' →
         listener id ∉ l')
  ∧ ((∀ l, eventListeners st !! event = Some l → listener id ∉ l) →
     step (Call (CallOff event id)) (step (Call (CallOn event id)) st) = st).
Proof.
  cbn [step perform]. split.
  - rewrite off_state. destruct (eventListeners st !! event) as [l|] eqn:E.
    + cbn. intros l'. rewrite lookup_insert_eq. intros [= <-].
      by intros [? _]%list_elem_of_filter.
    + intros l'. congruence.
  - intros Hfresh. rewrite on_state.
    destruct (eventListeners st !! event) as [l|] eqn:E.
    + rewrite off_state. cbn. rewrite lookup_insert_eq. cbn. rewrite insert_insert_eq.
      rewrite filter_snoc_fresh by (by apply Hfresh).
      rewrite insert_id by done. by destruct st.
    + by rewrite off_state, E.
Qed.

Example off_removes_twice :
  let st := run [Call (CallOn "error" 1); Call (CallOn "error" 2);
                 Call (CallOn "error" 1); Call (CallOff "error" 1)] constructor in
  eventListeners st !! "error" = Some [listener 2].
Proof. by vm_compute. Qed.

(** ** A frame and the listeners of its kind *)

(** The functions the application registered with [on] stay registered. *)
Definition keeps (st st' : state) : Prop :=
  ∀ k l id, eventListeners st !! k = Some l → listener id ∈ l →
            ∃ l', eventListeners st' !! k = Some l' ∧ listener id ∈ l'.

Lemma invoke_keeps cb data st : keeps st (invoke cb data st).2.
Proof.
  intros k l id Hk Hin. rewrite invoke_listeners.
  destruct cb as [ev h|id']; [|by eauto]. rewrite off_state. cbn.
  destruct (eventListeners st !! ev) as [l0|] eqn:E; cbn; [|by eauto].
  destruct (decide (ev = k)) as [->|Hne].
  - rewrite lookup_insert_eq. eexists. split; [done|].
    apply list_elem_of_filter. split; [done|]. congruence.
  - rewrite lookup_insert_ne by done. eauto.
Qed.

Lemma sweep_keeps data l st : keeps st (sweep data l st).
Proof.
  revert st. induction l as [|cb l IH]; intros st; [by intros k l0 id; eauto|].
  rewrite sweep_cons. intros k l0 id Hk Hin.
  destruct (invoke_keeps cb data st k l0 id Hk Hin) as (l1 & Hk1 & Hin1).
  by eapply IH.
Qed.

(** Calling listeners sends nothing and leaves the socket alone. *)
Lemma run_handler_wire h data st :
  sent (run_handler h data st).2 = sent st ∧ ws (run_handler h data st).2 = ws st.
Proof.
  destruct h; mrun; try done.
  destruct (Codec.download_decode _); by mrun.
Qed.

Lemma invoke_wire cb data st :
  sent (invoke cb data st).2 = sent st ∧ ws (invoke cb data st).2 = ws st.
Proof.
  unfold invoke. destruct cb as [ev h|id]; mrun; [|done].
  pose proof (off_state ev (onceCallback ev h)
                (with_invoked (onceCallback ev h :: invoked st) st)) as Ho.
  destruct (off ev _ _) as [[[]|e] st1]; cbn in *; subst st1.
  - destruct (run_handler_wire h data
      (match eventListeners st !! ev with
       | Some l => with_eventListeners
                     (<[ev:=filter (λ c, c ≠ onceCallback ev h) l]> (eventListeners st))
                     (with_invoked (onceCallback ev h :: invoked st) st)
       | None => with_invoked (onceCallback ev h :: invoked st) st
       end)) as [-> ->].
    by destruct (eventListeners st !! ev).
  - by destruct (eventListeners st !! ev).
Qed.

Lemma sweep_wire data l st :
  sent (sweep data l st) = sent st ∧ ws (sweep data l st) = ws st.
Proof.
  revert st. induction l as [|cb l IH]; intros st; [done|].
  rewrite sweep_cons. destruct (IH (invoke cb data st).2) as [-> ->].
  apply invoke_wire.
Qed.

(** X6. A frame whose kind is a key of the table calls the members of that
    listener array, and no other function: each one once, in the order of
    their registration, one-shot wrappers that remove themselves on the way
    included. The functions the application registered with [on], for this
    or any other event, are still registered afterwards, and nothing is
    sent. *)
Theorem frame_calls_each_listener st message event l :
  Json.property_key (Response.type message) = Some event →
  eventListeners st !! event = Some l →
  let st' := step (Frame (Json.Object message)) st in
  invoked st' = (rev l ++ invoked st)%list
  ∧ keeps st st'
  ∧ sent st' = sent st.
Proof.
  intros Ev El. cbn [step]. unfold _handleMessage, try_catch. cbn [snd].
  rewrite Ev, emit_state, El. split; [apply sweep_invoked|].
  split; [apply sweep_keeps|apply sweep_wire].
Qed.

(** A client with two listeners for [disconnect]. *)
Definition watched : state :=
  run [Call (CallOn "disconnect" 1); Call (CallOn "disconnect" 2)] constructor.

(** The instance: the [disconnect] notification of the bridge. *)
Lemma frame_calls_each_listener_witness :
  (Json.property_key (Response.type (Response.tagged "disconnect")) = Some "disconnect"
   ∧ eventListeners watched !! "disconnect" = Some [listener 1; listener 2])
  ∧ invoked (step (Frame (Json.Object (Response.tagged "disconnect"))) watched)
    = [listener 2; listener 1].
Proof.
  assert (Json.property_key (Response.type (Response.tagged "disconnect"))
          = Some "disconnect"
          ∧ eventListeners watched !! "disconnect" = Some [listener 1; listener 2]) as H
    by (split; reflexivity).
  split; [exact H|].
  exact (proj1 (frame_calls_each_listener watched (Response.tagged "disconnect")
                  "disconnect" [listener 1; listener 2] (proj1 H) (proj2 H))).
Defined.

(** ** [connect] when the socket cannot be opened *)

Lemma forEach_normal data l st :
  forEach l (λ cb, try_catch (invoke cb data)) st = (Normal (), sweep data l st).
Proof.
  revert st. induction l as [|cb l IH]; intros st; [done|].
  rewrite sweep_cons. cbn [forEach]. unfold mbind, M_bind, try_catch at 1.
  cbn. by rewrite IH.
Qed.

Lemma emit_own ev data st l :
  eventListeners st !! ev = Some l →
  _emitEvent ev data st = (Normal (), sweep data l st).
Proof.
  intros El. unfold _emitEvent. rewrite (member_own _ _ l El). apply forEach_normal.
Qed.

Lemma Promise_reject_state e st :
  Promise_reject e st =
  (Normal (next st),
   with_settled ((next st, Rejected e) :: settled st)
     (with_promises (<[next st := Settled (Rejected e)]> (promises st))
        (with_next (S (next st)) st))).
Proof.
  unfold Promise_reject, new_Promise. mrun.
  rewrite lookup_insert_eq. by rewrite insert_insert_eq.
Qed.

(** What [ws.onerror] hands to the listeners of [error]. *)
Definition socket_error : Response.t :=
  Response.with_error (Some "WebSocket connection error") Response.object.

Lemma connect_fails_state c st l :
  socket_open st = false → eventListeners st !! "error" = Some l →
  connect c false st
  = Promise_reject "WebSocket error" (sweep socket_error l (with_ws (Some CLOSED) st)).
Proof.
  intros Ho El. unfold connect. unfold mbind at 1, M_bind at 1. rewrite Ho.
  unfold connectToWebsocket. unfold mbind, M_bind, modify, throw. cbn [fst snd].
  by rewrite (emit_own "error" _ (with_ws (Some CLOSED) st) l) by done.
Qed.

(** X7. [connect] on a client whose socket is not open, when the new socket
    fails to open: it returns a promise that is rejected on the spot with
    the socket's error, calls the listeners of [error] (each once, in
    order), sends no command and sets no timeout. *)
Theorem connect_socket_fails c st l :
  socket_open st = false → eventListeners st !! "error" = Some l →
  let r := connect c false st in
  r.1 = Normal (next st)
  ∧ promises r.2 !! next st = Some (Settled (Rejected "WebSocket error"))
  ∧ ws r.2 = Some CLOSED
  ∧ sent r.2 = sent st
  ∧ invoked r.2 = (rev l ++ invoked st)%list
  ∧ (∀ t tm, timers r.2 !! t = Some tm → timers st !! t = Some tm).
Proof.
  intros Ho El. cbn zeta. rewrite (connect_fails_state c st l Ho El).
  pose proof (sweep_shrinks socket_error l (with_ws (Some CLOSED) st)) as (_ & _ & HT & HN).
  destruct (sweep_wire socket_error l (with_ws (Some CLOSED) st)) as [Hs Hw].
  pose proof (sweep_invoked socket_error l (with_ws (Some CLOSED) st)) as Hi.
  set (st1 := sweep _ _ _) in *. clearbody st1. cbn in HN, Hs, Hw, Hi, HT.
  rewrite Promise_reject_state. cbn [fst snd]. rewrite HN.
  split; [done|]. cbn. rewrite lookup_insert_eq. split; [done|].
  split; [done|]. split; [done|]. split; [done|].
  intros t tm Ht. by apply HT in Ht.
Qed.

(** The instance: the first [connect] of a new client. *)
Lemma connect_socket_fails_witness :
  (socket_open constructor = false ∧ eventListeners constructor !! "error" = Some [])
  ∧ promises (connect profile false constructor).2 !! 0
    = Some (Settled (Rejected "WebSocket error")).
Proof.
  assert (socket_open constructor = false
          ∧ eventListeners constructor !! "error" = Some []) as H.
  { split; reflexivity. }
  split; [exact H|].
  exact (proj1 (proj2 (connect_socket_fails profile constructor []
                         (proj1 H) (proj2 H)))).
Defined.

(** ** The client the module exports, in every state it reaches *)

Record unconnected (st : state) : Prop := {
  un_keys : keyed st;
  un_off : isConnected st = false;
  un_id : connectionId st = None;
  un_listeners : ∀ k l cb, eventListeners st !! k = Some l → cb ∈ l →
                           ∃ id, cb = listener id;
  un_sent : ∀ m, m ∈ sent st → Command.type m = Json.Kind "connect";
  un_timers : ∀ t tm, timers st !! t = Some tm → reason tm = "Connection timed out";
  un_settled : ∀ p v, (p, Resolved v) ∈ settled st → v = Undefined
}.

Lemma unconnected_constructor : unconnected constructor.
Proof.
  split; [apply constructor_keyed|done|done| | |done|].
  - intros k l cb Hk Hin. unfold constructor in Hk. cbn [eventListeners] in Hk.
    apply elem_of_list_to_map_2, list_elem_of_fmap in Hk as (k' & [= _ ->] & _).
    by apply elem_of_nil in Hin.
  - intros m Hin. by apply elem_of_nil in Hin.
  - intros p v Hin. by apply elem_of_nil in Hin.
Qed.

Lemma sweep_listeners data l st :
  (∀ cb, cb ∈ l → ∃ id, cb = listener id) →
  sweep data l st = with_invoked (rev l ++ invoked st)%list st.
Proof.
  revert st. induction l as [|cb l IH]; intros st Hl; [by destruct st|].
  rewrite sweep_cons. destruct (Hl cb) as [id ->]; [by left|].
  rewrite IH by (intros cb ?; apply Hl; by right).
  unfold invoke. mrun. by rewrite <- app_assoc.
Qed.

(** A change of the fields the invariant does not read. *)
Lemma unconnected_same st st' :
  unconnected st →
  eventListeners st' = eventListeners st → isConnected st' = false →
  connectionId st' = None → sent st' = sent st → timers st' = timers st →
  settled st' = settled st → unconnected st'.
Proof.
  intros [K O I L S T R] E1 E2 E3 E4 E5 E6.
  split; unfold keyed; rewrite ?E1, ?E4, ?E5, ?E6; done.
Qed.

Lemma unconnected_emit ev data st :
  unconnected st → unconnected (_emitEvent ev data st).2.
Proof.
  intros Hu. rewrite emit_state. destruct (eventListeners st !! ev) as [l|] eqn:E; [|done].
  rewrite sweep_listeners by (intros cb; by apply (un_listeners _ Hu ev l)).
  apply (unconnected_same st); try done; apply Hu.
Qed.

Lemma unconnected_reject e st :
  unconnected st → unconnected (Promise_reject e st).2.
Proof.
  intros [K O I L S T R]. rewrite Promise_reject_state. split; try done.
  cbn. intros p v [[=]|Hin]%elem_of_cons. eauto.
Qed.

Lemma unconnected_connect c opens st :
  unconnected st → unconnected (connect c opens st).2.
Proof.
  intros Hu.
  assert (∀ st0, unconnected st0 → socket_open st0 = true →
                 unconnected (connect c opens st0).2) as Hopen.
  { intros st0 [K O I L S T R] Ho. rewrite connect_open by done. split; try done.
    - cbn. intros m [->|Hin]%elem_of_cons; [done|]. eauto.
    - cbn. intros t tm [[_ <-]|[_ Ht]]%lookup_insert_Some; [done|]. eauto. }
  destruct (socket_open st) eqn:Ho; [by apply Hopen|].
  destruct opens.
  - assert (connect c true st = connect c true (with_ws (Some OPEN) st)) as ->.
    { unfold connect. unfold mbind at 1 3, M_bind at 1 3. rewrite Ho. done. }
    apply Hopen; [|done]. apply (unconnected_same st); try done; apply Hu.
  - destruct (keyed_some st "error" (un_keys _ Hu)) as [l El];
      [by apply (bool_decide_unpack _)|].
    rewrite (connect_fails_state c st l Ho El).
    apply unconnected_reject.
    rewrite sweep_listeners by (intros cb; by apply (un_listeners _ Hu "error" l)).
    apply (unconnected_same st); try done; apply Hu.
Qed.

Lemma unconnected_perform c st : unconnected st → unconnected (perform c st).2.
Proof.
  intros Hu. pose proof (un_off _ Hu) as Hoff.
  assert (∀ (m : M nat) e, m st = Promise_reject e st →
            unconnected ((m ;; mret ()) st).2) as Hrej.
  { intros m e E. unfold mbind, M_bind. rewrite E.
    pose proof (unconnected_reject e st Hu) as H.
    by destruct (Promise_reject e st) as [[p|e'] st']. }
  destruct c as [conn opens|path|remotePath|remotePath content max_arguments|path isDirectory|path
                 | | |event id|event id]; cbn [perform].
  - pose proof (unconnected_connect conn opens st Hu) as H.
    unfold mbind, M_bind. by destruct (connect conn opens st) as [[p|e] st'].
  - apply (Hrej _ not_connected). unfold listFiles. by rewrite Hoff.
  - apply (Hrej _ not_connected). unfold downloadFile. by rewrite Hoff.
  - apply (Hrej _ not_connected). unfold uploadFile. by rewrite Hoff.
  - apply (Hrej _ not_connected). unfold deleteFile. by rewrite Hoff.
  - apply (Hrej _ not_connected). unfold createDirectory. by rewrite Hoff.
  - unfold mbind, M_bind. rewrite disconnect_idle by done. cbn.
    destruct Hu as [K O I L S T R]. split; try done.
    cbn. intros p v [[=]|Hin]%elem_of_cons; [done|]. eauto.
  - unfold close. mrun. destruct (socket_open st); cbn;
      apply (unconnected_same st); try done; apply Hu.
  - rewrite on_state. destruct (eventListeners st !! event) as [l|] eqn:E; [|done].
    destruct Hu as [K O I L S T R]. split; try done.
    + unfold keyed in *. etrans; [|exact K]. by apply dom_insert_lookup_L.
    + cbn. intros k l' cb [[<- <-]|[_ Hk]]%lookup_insert_Some Hin; [|by eauto].
      apply elem_of_app in Hin as [Hin|Hin%list_elem_of_singleton]; eauto.
  - rewrite off_state. destruct (eventListeners st !! event) as [l|] eqn:E; [|done].
    destruct Hu as [K O I L S T R]. split; try done.
    + unfold keyed in *. etrans; [|exact K]. by apply dom_insert_lookup_L.
    + cbn. intros k l' cb [[<- <-]|[_ Hk]]%lookup_insert_Some Hin; [|by eauto].
      apply list_elem_of_filter in Hin as [_ Hin]. eauto.
Qed.

Lemma unconnected_step i st : unconnected st → unconnected (step i st).
Proof.
  intros Hu. destruct i as [c|data|t| |]; cbn [step].
  - by apply unconnected_perform.
  - unfold _handleMessage, try_catch. cbn [snd].
    destruct data as [| | |message]; [done|done|by apply unconnected_emit|].
    destruct (Json.property_key _); [by apply unconnected_emit|done].
  - destruct (timers st !! t) as [tm|] eqn:E.
    + pose proof (fire_state t tm st E) as Hf. cbn [step] in Hf. rewrite Hf.
      destruct Hu as [K O I L S T R]. split; try done.
      * cbn. intros t' tm' [_ Ht]%lookup_delete_Some. eauto.
      * cbn. intros p v [[=]|Hin]%elem_of_cons. eauto.
    + unfold fire. by rewrite E.
  - unfold onclose. mrun. apply unconnected_emit.
    apply (unconnected_same st); try done; apply Hu.
  - unfold onclose. mrun. apply unconnected_emit.
    apply (unconnected_same st); try done; apply Hu.
Qed.

Lemma unconnected_run inputs st : unconnected st → unconnected (run inputs st).
Proof.
  revert st. induction inputs as [|i inputs IH]; intros st Hu; [done|].
  rewrite run_cons. by apply IH, unconnected_step.
Qed.

(** ** Requests and the frames that answer them *)





(** X8. Whatever the application calls, whatever frames arrive, whichever
    timeouts elapse and sockets close, the client that the module exports
    has [isConnected] false and no [connectionId]; the only commands it ever
    sends are [connect] commands; no one-shot handler is ever in its
    listener table (only functions the application registered with [on]);
    its only timeouts are those of [connect]; no promise it returns is ever
    resolved with data ([disconnect()] alone resolves, with nothing); and
    [listFiles] is rejected with "Not connected to any SFTP server" without
    sending. *)
Theorem client_never_connects inputs :
  let st := run inputs constructor in
  isConnected st = false ∧ connectionId st = None
  ∧ (∀ m, m ∈ sent st → Command.type m = Json.Kind "connect")
  ∧ (∀ cb, registered st cb → ∃ id, cb = listener id)
  ∧ (∀ t tm, timers st !! t = Some tm → reason tm = "Connection timed out")
  ∧ (∀ p v, (p, Resolved v) ∈ settled st → v = Undefined)
  ∧ (∀ path,
       let r := listFiles path st in
       promises r.2 !! next st = Some (Settled (Rejected not_connected))
       ∧ sent r.2 = sent st).
Proof.
  cbn zeta. destruct (unconnected_run inputs constructor unconnected_constructor)
    as [K O I L S T R].
  repeat split; try done.
  - intros cb (k & l & Hk & Hin). eauto.
  - rewrite listFiles_not_connected by done. cbn. apply lookup_insert_eq.
  - by rewrite listFiles_not_connected.
Qed.

End ListenerFacts.

(* ===================================================================== *)
Module DispatchFacts.
Import Server ServerFacts.

(** ** One message, one answer or one request *)

(** A response to the browser, and a request passed on to the remote host
    ([end()] and [sftp()] are neither). *)
Definition answer (e : effect) : bool :=
  match e with Send _ _ => true | _ => false end.

Definition forwarded (e : effect) : bool :=
  match e with
  | ClientConnect _ _ _ _ _ _ | Readdir _ _ | Stat _ _ | WriteFile _ _ _
  | Rmdir _ _ | Unlink _ _ | Mkdir _ _ => true
  | _ => false
  end.

(** X9. Whatever a browser sends on an accepted channel (a command, another
    JSON value, no JSON at all), the message handler does exactly one of two
    things before it returns: it sends one response, or it passes one
    request on to the remote host (a connection attempt or an sftp call).
    The bridge does not crash, and every response goes to the channel the
    message came from. *)
Theorem answered_or_forwarded c m st :
  open_channel c st →
  let r := step (Message c m) st in
  (length (filter (λ e, answer e) r.2) + length (filter (λ e, forwarded e) r.2) = 1)%nat
  ∧ crashed r.1 = false
  ∧ ∀ c' x, Send c' x ∈ r.2 → c' = c.
Proof.
  intros Ho. cbn zeta. rewrite step_message by done.
  destruct (on_message_after c m st) as [Hcr _]. cbn [fst snd]. rewrite Hcr.
  split; [|split; [apply Ho|]].
  - unfold on_message, try_body, switch.
    destruct m as [| | |data]; [done..|].
    destruct (select (Command.type data)); cbn;
      repeat (case_match; cbn); done.
  - unfold on_message, try_body, switch.
    destruct m as [| | |data]; cbn.
    1-3: unfold error_response, sendResponse;
      by intros c' x [= <- _]%list_elem_of_singleton.
    destruct (select (Command.type data)); cbn;
      repeat (case_match; cbn); intros c' x Hin;
      unfold error_response, sendResponse in Hin;
      repeat (apply elem_of_cons in Hin as [Hin|Hin]; [by simplify_eq|]);
      by apply elem_of_nil in Hin.
Qed.

(** The instance: a frame that is no JSON, on a channel just accepted. *)
Lemma answered_or_forwarded_witness :
  open_channel "ch" (accepted "ch")
  ∧ crashed (step (Message "ch" Json.SyntaxError) (accepted "ch")).1 = false.
Proof.
  split; [apply accepted_open|].
  exact (proj1 (proj2 (answered_or_forwarded "ch" Json.SyntaxError (accepted "ch")
                         (accepted_open "ch")))).
Defined.

(** ** Channels do not see each other *)

Lemma handle_sends i st c' x : Send c' x ∈ effects (handle i st) → c' = channel_of i.
Proof.
  destruct i as [c|c m|c|c|c err|c|c|c r]; cbn [handle channel_of].
  - by intros ?%elem_of_nil.
  - unfold on_message, try_body, switch.
    destruct m as [| | |data]; cbn.
    1-3: unfold error_response, sendResponse;
      by intros [= <- _]%list_elem_of_singleton.
    destruct (select (Command.type data)); cbn;
      repeat (case_match; cbn); intros Hin;
      unfold error_response, sendResponse in Hin;
      repeat (apply elem_of_cons in Hin as [Hin|Hin]; [by simplify_eq|]);
      by apply elem_of_nil in Hin.
  - unfold on_ws_close. cbn. destruct (variable c st); cbn;
      [by intros [=]%list_elem_of_singleton|by intros ?%elem_of_nil].
  - unfold on_ready. destruct (variable c st); cbn;
      [by intros [=]%list_elem_of_singleton|by intros ?%elem_of_nil].
  - unfold on_error, sendResponse. cbn. by intros [= <- _]%list_elem_of_singleton.
  - unfold on_end, sendResponse. cbn. by intros [= <- _]%list_elem_of_singleton.
  - unfold on_close, sendResponse. cbn. by intros [= <- _]%list_elem_of_singleton.
  - unfold on_sftp, sendResponse. destruct r as [err|s]; cbn.
    + by intros [= <- _]%list_elem_of_singleton.
    + destruct (activeConnections st !! c); cbn;
        [by intros [= <- _]%list_elem_of_singleton|by intros ?%elem_of_nil].
Qed.

Lemma handle_other i st c' :
  c' ≠ channel_of i →
  activeConnections (after (handle i st)) !! c' = activeConnections st !! c'
  ∧ sftpClient (after (handle i st)) !! c' = sftpClient st !! c'.
Proof.
  intros Hne.
  destruct i as [c|c m|c|c|c err|c|c|c r]; cbn [handle channel_of] in *.
  - cbn. by rewrite lookup_insert_ne.
  - destruct (on_message_after c m st) as (_ & [->|[(Ea & h & Es)|(Ea & Es)]]);
      [done|rewrite Ea, Es|rewrite Ea, Es].
    + by rewrite lookup_insert_ne.
    + by rewrite lookup_delete_ne, lookup_insert_ne.
  - cbn. by rewrite lookup_delete_ne.
  - unfold on_ready. destruct (variable c st); cbn; by rewrite lookup_insert_ne.
  - done.
  - done.
  - cbn. by rewrite lookup_delete_ne.
  - unfold on_sftp. destruct r as [err|s]; cbn; [done|].
    destruct (activeConnections st !! c); cbn; [|done]. by rewrite lookup_insert_ne.
Qed.

(** X10. An event of one channel (a message, the close of its socket, a
    hook or the sftp callback of its ssh client) leaves every other channel
    as it was: its registry entry, its session and its ssh client are the
    same, and nothing is sent to it. *)
Theorem channels_isolated i st c' :
  c' ≠ channel_of i →
  activeConnections (step i st).1 !! c' = activeConnections st !! c'
  ∧ sftpClient (step i st).1 !! c' = sftpClient st !! c'
  ∧ session c' (step i st).1 = session c' st
  ∧ variable c' (step i st).1 = variable c' st
  ∧ ∀ c x, Send c x ∈ (step i st).2 → c = channel_of i.
Proof.
  intros Hne.
  assert (activeConnections (step i st).1 !! c' = activeConnections st !! c'
          ∧ sftpClient (step i st).1 !! c' = sftpClient st !! c') as [Ha Hs].
  { unfold step. destruct (enabled i st); [|done].
    destruct (handle_other i st c' Hne) as [Ha Hs].
    by destruct (thrown (handle i st)). }
  split; [done|]. split; [done|]. split; [unfold session; by rewrite Ha|].
  split; [unfold variable; by rewrite Hs|].
  intros c x. unfold step. destruct (enabled i st); [|by intros ?%elem_of_nil].
  destruct (thrown (handle i st)); apply handle_sends.
Qed.

(** Two channels, the first with an ssh client that is ready. *)
Definition two_channels : state :=
  run [Connection "a"; Connection "b";
       Message "a" (Json.Object (Command.tagged (Json.Kind "connect")));
       Ready "a"] init.

(** The instance: the other channel disconnects. *)
Lemma channels_isolated_witness :
  "a" ≠ channel_of (Message "b" (Json.Object (Command.tagged (Json.Kind "disconnect"))))
  ∧ activeConnections
      (step (Message "b" (Json.Object (Command.tagged (Json.Kind "disconnect"))))
         two_channels).1 !! "a"
    = activeConnections two_channels !! "a".
Proof.
  assert ("a" ≠ channel_of
                  (Message "b" (Json.Object (Command.tagged (Json.Kind "disconnect")))))
    as H by discriminate.
  split; [exact H|].
  exact (proj1 (channels_isolated
                  (Message "b" (Json.Object (Command.tagged (Json.Kind "disconnect"))))
                  two_channels "a" H)).
Defined.

(** ** The registry in every state the bridge reaches *)

Record registry_ok (st : state) : Prop := {
  ok_entry : ∀ c e, activeConnections st !! c = Some e →
    ∃ h k, sftpClient st !! c = Some (Some h) ∧ client e = Some k
           ∧ (k < clients st)%nat;
  ok_variable : ∀ c h, sftpClient st !! c = Some (Some h) → (h < clients st)%nat
}.

Lemma registry_ok_init : registry_ok init.
Proof. split; intros ? ? H; done. Qed.

Lemma on_message_clients c m st :
  (clients st ≤ clients (after (on_message c m st)))%nat
  ∧ ∀ h, sftpClient (after (on_message c m st)) !! c = Some (Some h) →
         sftpClient st !! c = Some (Some h)
         ∨ (h < clients (after (on_message c m st)))%nat.
Proof.
  unfold on_message, try_body, switch.
  destruct m as [| | |data]; cbn; [by auto..|].
  destruct (select (Command.type data)); cbn;
    repeat (case_match; cbn); (split; [lia|]); auto.
  all: intros h; rewrite lookup_insert_eq; intros [=]; subst; right; lia.
Qed.

Lemma registry_ok_step i st :
  crashed (step i st).1 = false → registry_ok st → registry_ok (step i st).1.
Proof.
  unfold step. destruct (enabled i st) eqn:En; [|done].
  apply andb_prop in En as [Hc%negb_true_iff En].
  destruct (thrown (handle i st)) eqn:Et; [done|]. intros _ [He Hv]. cbn [fst].
  destruct i as [c|c m|c|c|c err|c|c|c r]; cbn [handle] in *.
  - apply bool_decide_eq_true_1 in En. split; cbn.
    + intros c' e Hc'. destruct (He c' e Hc') as (h & k & Hh & Hk).
      exists h, k. rewrite lookup_insert_ne; [done|]. intros <-. congruence.
    + intros c' h [[_ [=]]|[_ Hh]]%lookup_insert_Some. eauto.
  - destruct (on_message_clients c m st) as [Hle Hnew].
    destruct (on_message_after c m st) as (_ & [E|[(Ea & h & Es)|(Ea & Es)]]).
    + rewrite E. by split.
    + split.
      * intros c' e. rewrite Ea. intros Hc'.
        destruct (He c' e Hc') as (h' & k & Hh & Hk & Hlt).
        destruct (decide (c = c')) as [<-|Hne].
        -- exists h, k. rewrite Es, lookup_insert_eq. repeat split; [done|lia].
        -- exists h', k. rewrite Es, lookup_insert_ne by done.
           repeat split; [done..|lia].
      * intros c' h'. destruct (decide (c = c')) as [<-|Hne].
        -- intros Hh. destruct (Hnew h' Hh) as [Hold|Hlt]; [|done].
           specialize (Hv _ _ Hold). lia.
        -- rewrite Es, lookup_insert_ne by done. intros Hh.
           specialize (Hv _ _ Hh). lia.
    + split.
      * intros c' e. rewrite Ea. intros [Hne Hc']%lookup_delete_Some.
        destruct (He c' e Hc') as (h' & k & Hh & Hk & Hlt).
        exists h', k. rewrite Es, lookup_insert_ne by done.
        repeat split; [done..|lia].
      * intros c' h'. rewrite Es.
        intros [[_ [=]]|[_ Hh]]%lookup_insert_Some. specialize (Hv _ _ Hh). lia.
  - split; cbn; [|done].
    intros c' e [Hne Hc']%lookup_delete_Some. eauto.
  - unfold on_ready in *. destruct (variable c st) as [h|] eqn:Ev; cbn in *; [|done].
    apply variable_some in Ev. split; cbn; [|done].
    intros c' e [[<- <-]|[Hne Hc']]%lookup_insert_Some; [|by eauto].
    exists h, h. cbn. repeat split; [done|]. by eapply Hv.
  - by split.
  - by split.
  - split; cbn; [|done].
    intros c' e [Hne Hc']%lookup_delete_Some. eauto.
  - unfold on_sftp in *. destruct r as [err|s]; cbn in *; [by split|].
    destruct (activeConnections st !! c) as [e0|] eqn:E0; cbn in *; [|done].
    split; cbn; [|done].
    intros c' e [[<- <-]|[Hne Hc']]%lookup_insert_Some; [|by eauto].
    cbn. by apply He.
Qed.

Lemma step_crashed i st : crashed (step i st).1 = false → crashed st = false.
Proof.
  unfold step, enabled. destruct (crashed st) eqn:E; cbn; [congruence|done].
Qed.

Lemma run_snoc inputs i st : run (inputs ++ [i]) st = (step i (run inputs st)).1.
Proof. unfold run. by rewrite foldl_app. Qed.

Lemma registry_ok_run inputs :
  crashed (run inputs init) = false → registry_ok (run inputs init).
Proof.
  induction inputs as [|i inputs IH] using rev_ind; [intros _; apply registry_ok_init|].
  rewrite run_snoc. intros Hc. apply registry_ok_step; [done|].
  by apply IH, (step_crashed i).
Qed.

(** X11. In every state the running bridge reaches from its start, whatever
    the order of messages, closes, hooks and callbacks: an entry of the
    registry belongs to a channel whose variable [sftpClient] holds an ssh
    client (it is not null), the [client] the entry records is an ssh client
    the bridge created, and so is the one in the variable. *)
Theorem registry_invariant inputs c e :
  let st := run inputs init in
  crashed st = false → activeConnections st !! c = Some e →
  ∃ h k, variable c st = Some h ∧ client e = Some k
         ∧ (h < clients st)%nat ∧ (k < clients st)%nat.
Proof.
  intros st Hc He. destruct (registry_ok_run inputs Hc) as [Hentry Hvar].
  destruct (Hentry c e He) as (h & k & Hh & Hk & Hlt). exists h, k.
  unfold variable. fold st in Hh. rewrite Hh. repeat split; [done| |done].
  by eapply Hvar.
Qed.

(** The instance: the channel "a" of [two_channels]. *)
Lemma registry_invariant_witness :
  (crashed two_channels = false
   ∧ activeConnections two_channels !! "a" = Some {| client := Some 0; sftp := None |})
  ∧ ∃ h k, variable "a" two_channels = Some h ∧ Some 0 = Some k
           ∧ (h < clients two_channels)%nat ∧ (k < clients two_channels)%nat.
Proof.
  assert (crashed two_channels = false
          ∧ activeConnections two_channels !! "a"
            = Some {| client := Some 0; sftp := None |}) as H.
  { split; reflexivity. }
  split; [exact H|].
  exact (registry_invariant
           [Connection "a"; Connection "b";
            Message "a" (Json.Object (Command.tagged (Json.Kind "connect")));
            Ready "a"]
           "a" {| client := Some 0; sftp := None |} (proj1 H) (proj2 H)).
Defined.

(** ** From [connect] to the first file command *)

Definition connect_success_response (c : string) : effect :=
  sendResponse c "connect_success"
    (Response.with_connectionId (Some c) Response.object).

(** X12. On an accepted channel, in whatever state: a [connect] command is
    answered by no response, it starts a connection attempt of a new ssh
    client; at that client's 'ready' the bridge asks it for an sftp session;
    when the session arrives the bridge sends one [connect_success] response
    that carries the channel's identity, and the session is the registered
    one. A [list_files] command is from then on passed to that session as
    [readdir] of the path, or of "/" when the path is missing or empty,
    without a change of the bridge. *)
Theorem connect_then_list c data path s st :
  open_channel c st → Command.type data = Json.Kind "connect" →
  let r1 := step (Message c (Json.Object data)) st in
  let r2 := step (Ready c) r1.1 in
  let r3 := step (Sftp c (inr s)) r2.1 in
  let r4 := step (Message c (Json.Object
                    (Command.with_path path (Command.tagged (Json.Kind "list_files")))))
              r3.1 in
  Forall (λ e, answer e = false) r1.2
  ∧ (∃ host port username password privateKey,
       ClientConnect (clients st) host port username password privateKey ∈ r1.2)
  ∧ r2.2 = [OpenSftp (clients st)]
  ∧ r3.2 = [connect_success_response c]
  ∧ session c r3.1 = Some s
  ∧ r4 = (r3.1, [Readdir s (Json.or_else path "/")]).
Proof.
  intros Ho Ht. cbn zeta.
  assert (select (Json.Kind "connect") = connect) as Hsel by (by vm_compute).
  assert (select (Json.Kind "list_files") = list_files) as Hsel' by (by vm_compute).
  rewrite step_message by done.
  unfold on_message, try_body, switch. rewrite Ht, Hsel.
  cbn [Json.property_key thrown normal after effects fst snd].
  set (st1 := with_clients _ _).
  assert (open_channel c st1) as Ho1.
  { split; [apply Ho|]. unfold st1. cbn. rewrite lookup_insert_eq. by eexists. }
  assert (variable c st1 = Some (clients st)) as Hv1.
  { unfold variable, st1. cbn. by rewrite lookup_insert_eq. }
  split. { destruct (variable c st); by repeat constructor. }
  split. { do 5 eexists. apply elem_of_app. right. by left. }
  rewrite (step_hook (Ready c) st1 (on_ready c st1)); [|done|done|done|];
    unfold on_ready; rewrite Hv1; [|done]. cbn [thrown normal after effects fst snd].
  set (st2 := with_activeConnections _ st1).
  assert (open_channel c st2) as Ho2 by (by split; [apply Ho1|apply Ho1]).
  split; [done|].
  rewrite (step_hook (Sftp c (inr s)) st2 (on_sftp c (inr s) st2)); [|done|done|done|];
    unfold on_sftp, st2; cbn [activeConnections with_activeConnections];
    rewrite lookup_insert_eq; [|done]. cbn [thrown normal after effects fst snd].
  set (st3 := with_activeConnections _ _).
  assert (open_channel c st3) as Ho3 by (by split; [apply Ho1|apply Ho1]).
  assert (session c st3 = Some s) as Hs3.
  { unfold session, st3. cbn. by rewrite lookup_insert_eq. }
  split; [done|]. split; [done|].
  rewrite step_message by done.
  unfold on_message, try_body, switch.
  cbn [Command.type Command.with_path Command.tagged Json.property_key].
  by rewrite Hsel', Hs3.
Qed.

(** The instance: the first [connect] on a channel just accepted. *)
Lemma connect_then_list_witness :
  (open_channel "ch" (accepted "ch")
   ∧ Command.type (Command.tagged (Json.Kind "connect")) = Json.Kind "connect")
  ∧ (step (Ready "ch")
       (step (Message "ch" (Json.Object (Command.tagged (Json.Kind "connect"))))
          (accepted "ch")).1).2
    = [OpenSftp (clients (accepted "ch"))].
Proof.
  assert (open_channel "ch" (accepted "ch")
          ∧ Command.type (Command.tagged (Json.Kind "connect")) = Json.Kind "connect")
    as H.
  { split; [apply accepted_open|reflexivity]. }
  split; [exact H|].
  exact (proj1 (proj2 (proj2
    (connect_then_list "ch" (Command.tagged (Json.Kind "connect")) None 7
       (accepted "ch") (proj1 H) (proj2 H))))).
Defined.

(** ** [upload_file] *)

(** X13. An [upload_file] command on a channel with a session: whatever the
    string in [content], valid base64 or not, the bridge does not answer and
    writes the octets Node decodes from it to the remote path (for the
    encoding of a buffer, that buffer); a command without [content] writes
    nothing and is answered by "Invalid message format or server error".
    The bridge is unchanged either way. *)
Theorem upload_file_dispatch c data s st :
  open_channel c st → session c st = Some s →
  Command.type data = Json.Kind "upload_file" →
  step (Message c (Json.Object data)) st
  = (st, match Command.content data with
         | Some content =>
             [WriteFile s (Command.remotePath data) (Codec.Buffer_from_base64 content)]
         | None => [error_response c generic_error]
         end)
  ∧ ∀ C, Command.content data = Some (Codec.Buffer_toString_base64 C) →
         (step (Message c (Json.Object data)) st).2
         = [WriteFile s (Command.remotePath data) C].
Proof.
  intros Ho Hs Ht.
  assert (select (Json.Kind "upload_file") = upload_file) as Hsel by (by vm_compute).
  assert (step (Message c (Json.Object data)) st
  = (st, match Command.content data with
         | Some content =>
             [WriteFile s (Command.remotePath data) (Codec.Buffer_from_base64 content)]
         | None => [error_response c generic_error]
         end)) as E.
  { rewrite step_message by done.
    unfold on_message, try_body, switch. rewrite Hs, Ht, Hsel.
    by destruct (Command.content data). }
  split; [done|]. intros C HC. rewrite E, HC. cbn.
  unfold Codec.Buffer_toString_base64. by rewrite CodecFacts.Buffer_from_base64_encode.
Qed.

(** The channel "ch" with a session. *)
Definition connected_channel : state :=
  run [Connection "ch";
       Message "ch" (Json.Object (Command.tagged (Json.Kind "connect")));
       Ready "ch"; Sftp "ch" (inr 7)] init.

Definition upload_hello : Command.t :=
  Command.with_content (Some "aGVsbG8=")
    (Command.with_remotePath (Some "/hello.txt")
       (Command.tagged (Json.Kind "upload_file"))).

(** The instance: the five octets of "hello". *)
Lemma upload_file_dispatch_witness :
  (open_channel "ch" connected_channel ∧ session "ch" connected_channel = Some 7
   ∧ Command.type upload_hello = Json.Kind "upload_file")
  ∧ step (Message "ch" (Json.Object upload_hello)) connected_channel
    = (connected_channel,
       [WriteFile 7 (Some "/hello.txt")
          (Codec.Buffer_from_base64 "aGVsbG8=")]).
Proof.
  assert (open_channel "ch" connected_channel ∧ session "ch" connected_channel = Some 7
          ∧ Command.type upload_hello = Json.Kind "upload_file") as H.
  { split; [split; [reflexivity|vm_compute; by eexists]|]. split; reflexivity. }
  split; [exact H|].
  exact (proj1 (upload_file_dispatch "ch" upload_hello 7 connected_channel
                  (proj1 H) (proj1 (proj2 H)) (proj2 (proj2 H)))).
Defined.

(** ** After [disconnect] *)

(** X14. In every state the running bridge reaches: when a [disconnect]
    command was handled on a channel, a file command that follows on that
    channel (any of the five) is answered by "No active SFTP connection",
    nothing is asked of the remote host, and the bridge stays as the
    [disconnect] left it. *)
Theorem file_command_after_disconnect inputs c data command :
  let st := run inputs init in
  open_channel c st → Command.type data = Json.Kind "disconnect" →
  select (Command.type command) ∈
    [list_files; download_file; upload_file; delete_file; create_directory] →
  let st' := (step (Message c (Json.Object data)) st).1 in
  step (Message c (Json.Object command)) st'
  = (st', [error_response c no_connection]).
Proof.
  intros st Ho Hd Hsel st'.
  destruct (disconnect_command inputs c data Ho Hd) as (_ & Hnone & _ & Hcr & _).
  fold st in Hnone, Hcr. fold st' in Hnone, Hcr.
  assert (open_channel c st') as Ho'.
  { split; [done|]. unfold st'. rewrite step_message by done. cbn [fst].
    destruct (on_message_after c (Json.Object data) st)
      as (_ & [->|[(_ & h & ->)|(_ & ->)]]);
      [apply Ho|rewrite lookup_insert_eq; by eexists..]. }
  rewrite step_message by done.
  assert (∃ kind, Command.type command = Json.Kind kind) as [kind Hk].
  { destruct (select_spec (Command.type command) _ eq_refl) as [(kind & Hk & _)|[Hdef _]];
      [by exists kind|]. rewrite Hdef in Hsel.
    repeat (apply elem_of_cons in Hsel as [[=]|Hsel]). by apply elem_of_nil in Hsel. }
  unfold on_message, try_body.
  destruct (Json.property_key (Command.type command)) eqn:Ek; [|by rewrite Hk in Ek].
  unfold switch, session. rewrite Hnone.
  repeat (apply elem_of_cons in Hsel as [->|Hsel]; [done|]).
  by apply elem_of_nil in Hsel.
Qed.

(** The instance: [list_files] after [disconnect] on "ch". *)
Lemma file_command_after_disconnect_witness :
  (open_channel "ch" connected_channel
   ∧ select (Json.Kind "list_files") ∈
       [list_files; download_file; upload_file; delete_file; create_directory])
  ∧ step (Message "ch" (Json.Object (Command.tagged (Json.Kind "list_files"))))
      (step (Message "ch" (Json.Object (Command.tagged (Json.Kind "disconnect"))))
         connected_channel).1
    = ((step (Message "ch" (Json.Object (Command.tagged (Json.Kind "disconnect"))))
          connected_channel).1,
       [error_response "ch" no_connection]).
Proof.
  assert (open_channel "ch" connected_channel
          ∧ select (Json.Kind "list_files") ∈
              [list_files; download_file; upload_file; delete_file; create_directory])
    as H.
  { split; [split; [reflexivity|vm_compute; by eexists]|]. by left. }
  split; [exact H|].
  exact (file_command_after_disconnect
           [Connection "ch";
            Message "ch" (Json.Object (Command.tagged (Json.Kind "connect")));
            Ready "ch"; Sftp "ch" (inr 7)]
           "ch" (Command.tagged (Json.Kind "disconnect"))
           (Command.tagged (Json.Kind "list_files"))
           (proj1 H) eq_refl (proj2 H)).
Defined.

End DispatchFacts.

(* ===================================================================== *)
Module FileManagerFacts.
Import Codec FileManager.

Local Open Scope list_scope.

(** ** Navigation and breadcrumbs *)

(** A name a directory can hold: not empty, no [/]. *)
Definition file_name (n : js_string) : Prop := n ≠ [] ∧ slash ∉ n.

(** The breadcrumbs after clicking through the folders [names] from the
    root: [Home], then one per folder, whose path is where the clicks up to
    that folder led. *)
Definition crumbs (names : list js_string) : list segment :=
  Home :: imap (λ i n, {| name := n; path := foldl child root (take (S i) names) |}) names.

Lemma split_from_app cur p rest :
  slash ∉ p → split_from cur (p ++ rest) = split_from (cur ++ p) rest.
Proof.
  revert cur. induction p as [|u p IH]; intros cur Hp; [by rewrite app_nil_r|].
  cbn. rewrite decide_False by (intros ->; apply Hp; by left).
  rewrite IH by (intros ?; apply Hp; by right). by rewrite <- app_assoc.
Qed.

Lemma split_from_join cur p ps :
  Forall (λ n, slash ∉ n) (p :: ps) →
  split_from cur (join (p :: ps)) = (cur ++ p) :: ps.
Proof.
  revert cur p. induction ps as [|q ps IH]; intros cur p [Hp Hps]%Forall_cons.
  - cbn [join]. rewrite <- (app_nil_r p) at 1. by rewrite split_from_app.
  - change (join (p :: q :: ps)) with (p ++ slash :: join (q :: ps)).
    rewrite split_from_app by done. cbn [split_from]. rewrite decide_True by done.
    by rewrite IH.
Qed.

Lemma split_from_free cur s :
  slash ∉ cur → Forall (λ n, slash ∉ n) (split_from cur s).
Proof.
  revert cur. induction s as [|u s IH]; intros cur Hc; cbn.
  - by constructor.
  - case_decide as Hu.
    + constructor; [done|]. apply IH. by intros ?%elem_of_nil.
    + apply IH. intros [?|?%list_elem_of_singleton]%elem_of_app; [done|congruence].
Qed.

Lemma join_snoc l n : l ≠ [] → join (l ++ [n]) = join l ++ slash :: n.
Proof.
  induction l as [|p l IH]; [done|]. intros _. destruct l as [|q l]; [done|].
  change (join ((p :: q :: l) ++ [n])) with (p ++ slash :: join ((q :: l) ++ [n])).
  rewrite IH by done. cbn [join]. by rewrite <- app_assoc.
Qed.

Lemma join_nonempty p l : p ≠ [] → join (p :: l) ≠ [].
Proof. destruct p; [done|]. by destruct l. Qed.

Lemma foldl_child p l names :
  p ≠ [] → foldl child (slash :: join (p :: l)) names = slash :: join (p :: l ++ names).
Proof.
  intros Hp. revert l. induction names as [|n names IH]; intros l; [by rewrite app_nil_r|].
  cbn [foldl]. unfold child at 2. rewrite decide_False.
  - rewrite <- app_comm_cons.
    rewrite <- join_snoc by done. change ((p :: l) ++ [n]) with (p :: (l ++ [n])).
    rewrite IH. by rewrite <- app_assoc.
  - intros [= E]. by apply (join_nonempty p l).
Qed.

(** Clicking through folders from the root joins their names. *)
Lemma navigate_join n names :
  n ≠ [] → foldl child root (n :: names) = slash :: join (n :: names).
Proof.
  intros Hn. cbn [foldl]. unfold child at 2. rewrite decide_True by done.
  change (slash :: n) with (slash :: join [n]). by rewrite foldl_child.
Qed.

Lemma filter_nonempty names :
  Forall file_name names → filter (λ s : js_string, s ≠ []) names = names.
Proof.
  induction 1 as [|n names [Hn _] _ IH]; [done|].
  by rewrite filter_cons_True, IH.
Qed.

Lemma split_navigate names :
  Forall file_name names →
  filter (λ s : js_string, s ≠ []) (split (foldl child root names)) = names.
Proof.
  intros Hv. destruct names as [|n names]; [by vm_compute|].
  pose proof Hv as [[Hn _] _]%Forall_cons.
  rewrite navigate_join by done. unfold split. cbn [split_from].
  rewrite decide_True by done. rewrite split_from_join.
  - rewrite filter_cons_False by (by intros []). by apply filter_nonempty.
  - eapply Forall_impl; [exact Hv|]. by intros ? [].
Qed.

Lemma segments_crumbs currentPath :
  getPathSegments currentPath
  = crumbs (filter (λ s : js_string, s ≠ []) (split currentPath)).
Proof.
  unfold getPathSegments, crumbs. case_decide as Hr; [subst; by vm_compute|].
  f_equal. apply imap_ext. intros i n Hi. cbn. f_equal.
  set (names := filter _ _) in *.
  destruct names as [|n0 names'] eqn:E; [done|].
  cbn [take]. rewrite navigate_join; [done|].
  assert (n0 ∈ filter (λ s : js_string, s ≠ []) (split currentPath)) as Hin.
  { fold names. rewrite E. by left. }
  by apply list_elem_of_filter in Hin as [? _].
Qed.

Lemma split_names currentPath :
  Forall file_name (filter (λ s : js_string, s ≠ []) (split currentPath)).
Proof.
  apply Forall_forall. intros n [Hn Hin]%list_elem_of_filter. split; [done|].
  clear Hn. revert n Hin. apply Forall_forall, split_from_free. by intros ?%elem_of_nil.
Qed.

Lemma crumbs_navigation names :
  Forall file_name names → getPathSegments (foldl child root names) = crumbs names.
Proof. intros Hv. by rewrite segments_crumbs, split_navigate. Qed.

(** X15. After the folders [names] (each a name that is not empty and has no
    [/]) were clicked one after the other from the root, the breadcrumbs are
    [Home] and one breadcrumb per folder, in that order and under its name,
    and the path of each breadcrumb is the path the clicks up to that folder
    led to: clicking a breadcrumb goes back to exactly that directory. *)
Theorem breadcrumbs_follow_navigation names :
  Forall file_name names →
  getPathSegments (foldl child root names)
  = Home :: imap (λ i n, {| name := n; path := foldl child root (take (S i) names) |})
              names.
Proof.
  intros Hnames. rewrite segments_crumbs.
  rewrite split_navigate by exact Hnames. reflexivity.
Qed.

Definition docs_img : list js_string := [units "docs"; units "img"].

Lemma docs_img_names : Forall file_name docs_img.
Proof.
  repeat constructor; try discriminate;
    intros Hin; repeat (apply elem_of_cons in Hin as [Hin|Hin]; [discriminate|]);
    by apply elem_of_nil in Hin.
Qed.

(** The instance: [/docs/img]. *)
Lemma breadcrumbs_follow_navigation_witness :
  Forall file_name docs_img
  ∧ getPathSegments (units "/docs/img")
    = [Home; {| name := units "docs"; path := units "/docs" |};
       {| name := units "img"; path := units "/docs/img" |}].
Proof.
  split; [apply docs_img_names|].
  exact (breadcrumbs_follow_navigation docs_img docs_img_names).
Defined.

Lemma take_crumbs i names : take (S i) (crumbs names) = crumbs (take i names).
Proof.
  unfold crumbs. cbn [take]. f_equal. apply list_eq. intros j.
  rewrite lookup_take, !list_lookup_imap, lookup_take.
  case_decide as Hj; [|done].
  destruct (names !! j); [|done]. cbn. do 2 f_equal.
  rewrite take_take. do 2 f_equal. lia.
Qed.

(** X16. For every [currentPath], also one with doubled or trailing [/]: the
    breadcrumbs of the path of the breadcrumb at position [i] are the
    breadcrumbs of [currentPath] up to and including that position. So a
    click on a breadcrumb keeps the breadcrumbs before it and drops those
    after it. *)
Theorem breadcrumbs_prefix_closed currentPath i s :
  getPathSegments currentPath !! i = Some s →
  getPathSegments (path s) = take (S i) (getPathSegments currentPath).
Proof.
  rewrite !segments_crumbs. set (names := filter _ (split currentPath)).
  pose proof (split_names currentPath) as Hv. fold names in Hv.
  intros Hs. rewrite take_crumbs.
  assert (path s = foldl child root (take i names)) as ->.
  { destruct i as [|i]; [by injection Hs as <-|].
    unfold crumbs in Hs. cbn [lookup list_lookup] in Hs.
    apply list_lookup_imap_Some in Hs as (n & Hn & ->). done. }
  rewrite <- segments_crumbs. apply crumbs_navigation.
  by apply Forall_take.
Qed.

(** The instance: the second breadcrumb of [//docs//img/]. *)
Lemma breadcrumbs_prefix_closed_witness :
  getPathSegments (units "//docs//img/") !! 1%nat
  = Some {| name := units "docs"; path := units "/docs" |}
  ∧ getPathSegments (units "/docs")
    = take 2 (getPathSegments (units "//docs//img/")).
Proof.
  assert (getPathSegments (units "//docs//img/") !! 1%nat
          = Some {| name := units "docs"; path := units "/docs" |}) as H
    by reflexivity.
  split; [exact H|].
  exact (breadcrumbs_prefix_closed (units "//docs//img/") 1
           {| name := units "docs"; path := units "/docs" |} H).
Defined.

(** ** The saved file *)

Definition ascii_octet (b : Byte.byte) : Prop := (Byte.to_N b < 128)%N.

Global Instance ascii_octet_dec b : Decision (ascii_octet b).
Proof. unfold ascii_octet. apply _. Defined.

Lemma scalar_values_octets (C : list Byte.byte) :
  scalar_values (fromCharCode C) = fromCharCode C.
Proof.
  unfold fromCharCode. induction C as [|b C IH]; [done|].
  cbn [fmap list_fmap scalar_values]. pose proof (Byte.to_N_bounded b) as Hb.
  unfold high_surrogate, low_surrogate.
  destruct (N.leb_spec 55296 (Byte.to_N b)); [lia|].
  destruct (N.leb_spec 56320 (Byte.to_N b)); [lia|]. cbn. by f_equal.
Qed.

Lemma Blob_cons (b : Byte.byte) (C : list Byte.byte) :
  Blob (fromCharCode (b :: C))
  = (if decide (ascii_octet b) then [Byte.to_N b]
     else [192 + Byte.to_N b / 64; 128 + Byte.to_N b mod 64]%N)
    ++ Blob (fromCharCode C).
Proof.
  unfold Blob. rewrite !scalar_values_octets. unfold fromCharCode.
  cbn [fmap list_fmap mbind list_bind]. f_equal.
  pose proof (Byte.to_N_bounded b) as Hb. unfold utf8, ascii_octet.
  case_decide as Ha.
  - by destruct (N.ltb_spec (Byte.to_N b) 128); [|lia].
  - destruct (N.ltb_spec (Byte.to_N b) 128); [lia|].
    by destruct (N.ltb_spec (Byte.to_N b) 2048); [|lia].
Qed.

Lemma Blob_length (C : list Byte.byte) :
  length (Blob (fromCharCode C))
  = (length C + length (filter (λ b, ¬ ascii_octet b) C))%nat.
Proof.
  induction C as [|b C IH]; [done|].
  rewrite Blob_cons, length_app, IH. cbn [length]. case_decide as Ha.
  - rewrite filter_cons_False by tauto. cbn. lia.
  - rewrite filter_cons_True by done. cbn. lia.
Qed.

Lemma download_of_upload max_arguments (C : list Byte.byte) (P : string)
    (fs : remote_fs) :
  (length C ≤ max_arguments)%nat →
  upload_then_download max_arguments P (ArrayBufferContent C) fs
  = Some (fromCharCode C).
Proof.
  intros Hlen. unfold upload_then_download.
  rewrite CodecFacts.upload_encode_buffer, decide_True by done.
  pose proof (CodecFacts.download_of_wire C P fs) as Hback.
  by destruct (server_download P _).
Qed.

(** X17. A file of octets [C] uploaded as an ArrayBuffer (one the engine
    can convert: no more octets than it takes arguments), downloaded again
    and put into a [Blob] as [handleDownload] does (the downloaded content
    is a string, and a [Blob] takes the UTF-8 encoding of a string): the
    blob has one octet for every octet of [C] below 0x80 and two for every
    other one, so it has the octets of [C] exactly when every octet of [C]
    is below 0x80. *)
Theorem saved_download max_arguments (C : list Byte.byte) (P : string)
    (fs : remote_fs) :
  (length C ≤ max_arguments)%nat →
  ∃ content,
    upload_then_download max_arguments P (ArrayBufferContent C) fs = Some content
    ∧ length (Blob content)
      = (length C + length (filter (λ b, ¬ ascii_octet b) C))%nat
    ∧ (Blob content = Byte.to_N <$> C ↔ Forall ascii_octet C).
Proof.
  intros Hlen.
  exists (fromCharCode C). split; [by apply download_of_upload|].
  clear Hlen. split; [apply Blob_length|]. split.
  - intros E. apply (f_equal length) in E.
    rewrite Blob_length, length_fmap in E.
    assert (filter (λ b, ¬ ascii_octet b) C = []) as Hnil.
    { apply length_zero_iff_nil. lia. }
    apply Forall_forall. intros b Hb.
    destruct (decide (ascii_octet b)) as [|Hn]; [done|].
    assert (b ∈ filter (λ b, ¬ ascii_octet b) C) as Hin by (by apply list_elem_of_filter).
    rewrite Hnil in Hin. by apply elem_of_nil in Hin.
  - induction 1 as [|b C Hb _ IH]; [done|].
    rewrite Blob_cons, decide_True by done. cbn. by rewrite IH.
Qed.

(** The instance: the two octets 0x41 0xFF. *)
Lemma saved_download_witness :
  (length [Byte.x41; Byte.xff] ≤ 2)%nat
  ∧ ∃ content,
      upload_then_download 2 "/f" (ArrayBufferContent [Byte.x41; Byte.xff]) ∅
      = Some content
      ∧ length (Blob content)
        = (length [Byte.x41; Byte.xff]
           + length (filter (λ b, ¬ ascii_octet b) [Byte.x41; Byte.xff]))%nat
      ∧ (Blob content = Byte.to_N <$> [Byte.x41; Byte.xff]
         ↔ Forall ascii_octet [Byte.x41; Byte.xff]).
Proof.
  assert (length [Byte.x41; Byte.xff] ≤ 2)%nat as H by apply le_n.
  split; [exact H|].
  exact (saved_download 2 [Byte.x41; Byte.xff] "/f" ∅ H).
Defined.

Example saved_binary :
  Blob <$> upload_then_download 2 "/f" (ArrayBufferContent [Byte.x41; Byte.xff]) ∅
  = Some [65; 195; 191]%N.
Proof. vm_compute. reflexivity. Qed.

Example Blob_surrogates :
  Blob [8364; 55357; 56832; 55357]%N
  = [226; 130; 172; 240; 159; 152; 128; 239; 191; 189]%N.
Proof. vm_compute. reflexivity. Qed.

End FileManagerFacts.
